(** * SpaceWalk engine: a shallow embedding of [engine.hpp]

    The engine builds a world of rooms, entities and items out of an XML
    story, wires the rooms together by their integer ids and offers a
    key/lock check.

    - Ownership.  The C++ code holds its data through smart pointers:
      [std::unique_ptr<Object>] for items, [std::shared_ptr<Room>] and
      [std::shared_ptr<Entity>] for rooms and entities.  The embedding
      keeps these pointers: a pointer is an optional address into a store
      of cells, the null pointer is [None], two pointers to one object
      are one address, and every dereference is a lookup in the store.
    - Faults.  Undefined behaviour of the C++ program (dereferencing a
      null or stale pointer, building a [std::string] out of a null
      character pointer, indexing outside a vector) is an explicit
      [Fault] outcome that ends the run.  The loaders are given twice:
      as functions from state to state, whose fault carries no state,
      and as runs in place, which give the state that their writes have
      reached when they stop; the two are proved to agree on the
      outcome and on the world returned.
    - Integers.  Ids are [int]s that the engine reads, stores and
      compares but never computes with: they are [Z].  The only
      arithmetic is on vector sizes and on the entity counter, which stay
      far below the bounds of [int] for any story that fits in memory.
    - The story.  The XML reader is a library the engine calls; the
      document it exposes is a tree of nodes, an element pointer is a
      place in that tree, and its conversion of a text to an integer is
      a parameter of the loaders. *)

From Stdlib Require Import ZArith Ascii String List Bool Lia.
From stdpp Require Import base option list.
Import ListNotations.
Local Open Scope string_scope.
Local Open Scope Z_scope.
Local Open Scope list_scope.

(** ** Outcomes of a run *)

Inductive fault : Type :=
| NullDereference     (* dereferencing [nullptr] *)
| DanglingPointer     (* the address is not (or no longer) a live cell *)
| NullCString         (* a [std::string] built from a null character pointer *)
| IndexOutOfRange.    (* [v[i]] or [v.back()] outside the vector *)

Inductive outcome (A : Type) : Type :=
| Ok (a : A)
| Fault (f : fault).
Arguments Ok {A} a.
Arguments Fault {A} f.

#[global] Instance outcome_ret : MRet outcome := fun _ a => Ok a.
#[global] Instance outcome_bind : MBind outcome := fun _ _ k c =>
  match c with
  | Ok a => k a
  | Fault f => Fault f
  end.

#[global] Instance outcome_fmap : FMap outcome := fun _ _ g c =>
  match c with
  | Ok a => Ok (g a)
  | Fault f => Fault f
  end.

Definition returns {A : Type} (c : outcome A) : bool :=
  match c with Ok _ => true | Fault _ => false end.

(** Monadic left fold: the body of a loop run over the sequence of values
    the loop variable takes. *)
Fixpoint foldM {A S : Type} (body : A -> S -> outcome S) (l : list A) (s : S)
  : outcome S :=
  match l with
  | [] => Ok s
  | a :: l' => s' ← body a s; foldM body l' s'
  end.

(** ** Pointers and stores *)

(** An address is an index into a store; [None] is [nullptr]. *)
Abbreviation ptr := (option nat) (only parsing).

(** [typedef std::unique_ptr<Object> item;] *)
Abbreviation item := (option nat) (only parsing).
(** [typedef std::shared_ptr<Room> node;] *)
Abbreviation node := (option nat) (only parsing).
(** [typedef std::shared_ptr<Entity> ent;] *)
Abbreviation ent := (option nat) (only parsing).
(** [typedef std::vector<item> items;] and its two siblings *)
Abbreviation items := (list (option nat)) (only parsing).
Abbreviation nodes := (list (option nat)) (only parsing).
Abbreviation entities := (list (option nat)) (only parsing).

(** ** class Object, class Key *)

Record Object : Type := mkObject {
  objectName : string;
  objectDescriptor : string;
  objID : Z;
}.

(** [Object(const std::string& n, const int id, const std::string& d)] *)
Definition Object_ctor (n : string) (id : Z) (d : string) : Object :=
  {| objectName := n; objectDescriptor := d; objID := id |}.

Definition Object_getName (o : Object) : string := objectName o.
Definition Object_getID (o : Object) : Z := objID o.
Definition Object_getDescription (o : Object) : string := objectDescriptor o.

(** [class Key : public Object { const int keyID; ... }] *)
Record Key : Type := mkKey {
  Key_base : Object;
  keyID : Z;
}.

(** [Key(const int kid, const std::string& n, const int id, const std::string& d)] *)
Definition Key_ctor (kid : Z) (n : string) (id : Z) (d : string) : Key :=
  {| Key_base := Object_ctor n id d; keyID := kid |}.

(** What an item cell holds: the most derived type of the allocated
    object, which is what [dynamic_cast] inspects. *)
Inductive Dyn : Type :=
| DynObject (o : Object)
| DynKey (k : Key).

(** The [Object] base subobject of a cell. *)
Definition Dyn_base (d : Dyn) : Object :=
  match d with
  | DynObject o => o
  | DynKey k => Key_base k
  end.

Definition is_Key (d : Dyn) : bool :=
  match d with DynKey _ => true | DynObject _ => false end.

(** ** class Entity *)

(** The seven integer attributes ([hp], [stamina], ...) are never
    initialised nor read by the engine; they are left out. *)
Record Entity : Type := mkEntity {
  Entity_name : string;
  Entity_inventory : items;
}.

(** [Entity(const std::string& n) : name(n) {}] *)
Definition Entity_ctor (n : string) : Entity :=
  {| Entity_name := n; Entity_inventory := [] |}.

Definition Entity_getName (e : Entity) : string := Entity_name e.

(** [Entity& addItem(item &i) { inventory.push_back(std::move(i)); ... }]
    The handle is passed by reference and moved from: the second
    component is the value the caller's handle has afterwards. *)
Definition Entity_addItem (e : Entity) (i : item) : Entity * item :=
  ({| Entity_name := Entity_name e;
      Entity_inventory := Entity_inventory e ++ [i] |}, None).

(** [Entity& addItems(items &i)]: [addItem] on every slot of the caller's
    vector, front to back; returns the vector as it is left. *)
Fixpoint Entity_addItems (e : Entity) (i : items) : Entity * items :=
  match i with
  | [] => (e, [])
  | it :: rest =>
      let '(e1, it') := Entity_addItem e it in
      let '(e2, rest') := Entity_addItems e1 rest in
      (e2, it' :: rest')
  end.

(** ** class Room *)

Inductive LockStatus : Type := locked | unlocked.

Record Room : Type := mkRoom {
  roomName : string;
  roomID : Z;
  description : string;
  lock : LockStatus;
  roomPopulation : entities;
  neighbours : nodes;
  Room_inventory : items;
}.

(** [Room(const std::string& n, int id, const std::string& desc)
      : roomName(n), roomID(id), description(desc), lock(locked) {}] *)
Definition Room_ctor (n : string) (id : Z) (desc : string) : Room :=
  {| roomName := n; roomID := id; description := desc; lock := locked;
     roomPopulation := []; neighbours := []; Room_inventory := [] |}.

Definition Room_getName (r : Room) : string := roomName r.
Definition Room_getID (r : Room) : Z := roomID r.
Definition Room_getDescription (r : Room) : string := description r.
Definition Room_getNeighbours (r : Room) : nodes := neighbours r.

Definition Room_with_neighbours (r : Room) (ns : nodes) : Room :=
  {| roomName := roomName r; roomID := roomID r; description := description r;
     lock := lock r; roomPopulation := roomPopulation r; neighbours := ns;
     Room_inventory := Room_inventory r |}.

Definition Room_with_inventory (r : Room) (inv : items) : Room :=
  {| roomName := roomName r; roomID := roomID r; description := description r;
     lock := lock r; roomPopulation := roomPopulation r;
     neighbours := neighbours r; Room_inventory := inv |}.

Definition Room_with_population (r : Room) (es : entities) : Room :=
  {| roomName := roomName r; roomID := roomID r; description := description r;
     lock := lock r; roomPopulation := es; neighbours := neighbours r;
     Room_inventory := Room_inventory r |}.

(** [Room& addNeighbour(node& nn) { neighbours.push_back(nn); ... }] *)
Definition Room_addNeighbour (r : Room) (nn : node) : Room :=
  Room_with_neighbours r (neighbours r ++ [nn]).

(** [Room& addNeighbours(nodes& ns)] *)
Definition Room_addNeighbours (r : Room) (ns : nodes) : Room :=
  fold_left Room_addNeighbour ns r.

(** [Room& addItem(item& i) { inventory.emplace_back(std::move(i)); ... }] *)
Definition Room_addItem (r : Room) (i : item) : Room * item :=
  (Room_with_inventory r (Room_inventory r ++ [i]), None).

(** [Room& addItems(items& inv)] *)
Fixpoint Room_addItems (r : Room) (inv : items) : Room * items :=
  match inv with
  | [] => (r, [])
  | it :: rest =>
      let '(r1, it') := Room_addItem r it in
      let '(r2, rest') := Room_addItems r1 rest in
      (r2, it' :: rest')
  end.

(** [Room& addEntity(ent& e) { roomPopulation.push_back(e); ... }]
    A [shared_ptr] is copied: the caller keeps its reference. *)
Definition Room_addEntity (r : Room) (e : ent) : Room :=
  Room_with_population r (roomPopulation r ++ [e]).

(** [Room& addEntities(entities& ents)] *)
Definition Room_addEntities (r : Room) (ents : entities) : Room :=
  fold_left Room_addEntity ents r.

(** [Room& setLock(LockStatus stat) { lock = stat; ... }] *)
Definition Room_setLock (r : Room) (stat : LockStatus) : Room :=
  {| roomName := roomName r; roomID := roomID r; description := description r;
     lock := stat; roomPopulation := roomPopulation r;
     neighbours := neighbours r; Room_inventory := Room_inventory r |}.

(** ** The free store *)

(** One store per class.  Item cells can be deleted one by one
    ([delete], [unique_ptr] going out of scope), which leaves [None] at
    their address; rooms and entities are only ever added. *)
Record Memory : Type := mkMemory {
  objectStore : list (option Dyn);
  entityStore : list Entity;
  roomStore : list Room;
}.

Definition empty_memory : Memory :=
  {| objectStore := []; entityStore := []; roomStore := [] |}.

Definition deref {A : Type} (store : list A) (p : ptr) : outcome A :=
  match p with
  | None => Fault NullDereference
  | Some l =>
      match store !! l with
      | Some a => Ok a
      | None => Fault DanglingPointer
      end
  end.

Definition deref_object (m : Memory) (p : ptr) : outcome Dyn :=
  c ← deref (objectStore m) p;
  match c with
  | Some d => Ok d
  | None => Fault DanglingPointer
  end.

Definition deref_entity (m : Memory) (p : ent) : outcome Entity :=
  deref (entityStore m) p.

Definition deref_room (m : Memory) (p : node) : outcome Room :=
  deref (roomStore m) p.

Definition with_objects (m : Memory) (os : list (option Dyn)) : Memory :=
  {| objectStore := os; entityStore := entityStore m; roomStore := roomStore m |}.

Definition with_entities (m : Memory) (es : list Entity) : Memory :=
  {| objectStore := objectStore m; entityStore := es; roomStore := roomStore m |}.

Definition with_rooms (m : Memory) (rs : list Room) : Memory :=
  {| objectStore := objectStore m; entityStore := entityStore m; roomStore := rs |}.

(** [std::make_unique<T>(...)] / [std::make_shared<T>(...)]: a fresh cell
    at the end of the store. *)
Definition new_object (m : Memory) (d : Dyn) : ptr * Memory :=
  (Some (length (objectStore m)), with_objects m (objectStore m ++ [Some d])).

Definition new_entity (m : Memory) (e : Entity) : ptr * Memory :=
  (Some (length (entityStore m)), with_entities m (entityStore m ++ [e])).

Definition new_room (m : Memory) (r : Room) : ptr * Memory :=
  (Some (length (roomStore m)), with_rooms m (roomStore m ++ [r])).

(** Writing through a pointer that was just dereferenced. *)
Definition store_room (m : Memory) (p : node) (r : Room) : Memory :=
  match p with
  | Some l => with_rooms m (<[l := r]> (roomStore m))
  | None => m
  end.

Definition store_entity (m : Memory) (p : ent) (e : Entity) : Memory :=
  match p with
  | Some l => with_entities m (<[l := e]> (entityStore m))
  | None => m
  end.

(** [delete p]: nothing for [nullptr], otherwise the cell is gone. *)
Definition delete_object (m : Memory) (p : ptr) : outcome Memory :=
  match p with
  | None => Ok m
  | Some l =>
      match objectStore m !! l with
      | Some (Some _) => Ok (with_objects m (<[l := None]> (objectStore m)))
      | _ => Fault DanglingPointer
      end
  end.

(** [dynamic_cast<Key*>(p)]: null for a null pointer and for a cell whose
    object is not a [Key], otherwise the same address. *)
Definition dynamic_cast_Key (m : Memory) (p : ptr) : outcome ptr :=
  match p with
  | None => Ok None
  | Some _ =>
      d ← deref_object m p;
      Ok (if is_Key d then p else None)
  end.

(** ** Room::unlock *)

(** [bool static unlock(item& k, node r)].  The result carries the value
    returned, the value of the caller's handle [k] afterwards, and the
    memory.

<<
    Key* k2r = dynamic_cast<Key*>(k.release());
    if (k2r != nullptr && k->getID() == r->getID()) {
        r->setLock(unlocked);
        delete k2r;
        return true;
    }
    Object* o = dynamic_cast<Object*>(k2r);
    k = std::make_unique<Object>( *o );
    return false;
>> *)
Definition Room_unlock (k : item) (r : node) (m : Memory)
  : outcome (bool * item * Memory) :=
  (* k.release(): hands out the raw pointer and leaves k null *)
  let released := k in
  let k : item := None in
  k2r ← dynamic_cast_Key m released;
  cond ← match k2r with
         | None => Ok false
         | Some _ =>
             ko ← deref_object m k;
             ro ← deref_room m r;
             Ok (Object_getID (Dyn_base ko) =? Room_getID ro)
         end;
  if cond : bool then
    ro ← deref_room m r;
    let m1 := store_room m r (Room_setLock ro unlocked) in
    m2 ← delete_object m1 k2r;
    Ok (true, k, m2)
  else
    (* an upcast keeps the address *)
    let o := k2r in
    od ← deref_object m o;
    let '(fresh, m1) := new_object m (DynObject (Dyn_base od)) in
    (* move assignment into k: k held nothing, so nothing is destroyed *)
    m2 ← delete_object m1 k;
    Ok (false, fresh, m2).

(** ** class World *)

(** [roomConnectionMap] is a [std::map<int, std::vector<int>>]: its
    entries are kept, and iterated, in ascending key order, one entry per
    key.  The story document is not a field here: it is the input of
    [initWorld]. *)
Record World : Type := mkWorld {
  title : string;
  worldRooms : nodes;
  population : entities;
  roomConnectionMap : list (Z * list Z);
}.

(** [World() {}] *)
Definition World_ctor : World :=
  {| title := ""; worldRooms := []; population := []; roomConnectionMap := [] |}.

Definition World_getWorldRooms (w : World) : nodes := worldRooms w.
Definition World_getPopulation (w : World) : entities := population w.

Definition with_worldRooms (w : World) (rs : nodes) : World :=
  {| title := title w; worldRooms := rs; population := population w;
     roomConnectionMap := roomConnectionMap w |}.

Definition with_population (w : World) (es : entities) : World :=
  {| title := title w; worldRooms := worldRooms w; population := es;
     roomConnectionMap := roomConnectionMap w |}.

Definition with_roomConnectionMap (w : World) (cm : list (Z * list Z)) : World :=
  {| title := title w; worldRooms := worldRooms w; population := population w;
     roomConnectionMap := cm |}.

(** The entry of a key, if any ([std::map::find]). *)
Fixpoint map_find (k : Z) (cm : list (Z * list Z)) : option (list Z) :=
  match cm with
  | [] => None
  | (k', v') :: rest => if k =? k' then Some v' else map_find k rest
  end.

(** The place of a new key in key order. *)
Fixpoint map_place (k : Z) (v : list Z) (cm : list (Z * list Z))
  : list (Z * list Z) :=
  match cm with
  | [] => [(k, v)]
  | (k', v') :: rest =>
      if k <? k' then (k, v) :: cm else (k', v') :: map_place k v rest
  end.

(** [std::map::insert(std::make_pair(k, v))]: when the key is already
    there the map is left as it is; otherwise the pair goes to its place
    in key order. *)
Definition map_insert (k : Z) (v : list Z) (cm : list (Z * list Z))
  : list (Z * list Z) :=
  match map_find k cm with
  | Some _ => cm
  | None => map_place k v cm
  end.

(** [v.back()] and [v[i]] with an [int] index. *)
Definition vector_back {A : Type} (v : list A) : outcome A :=
  match last v with
  | Some a => Ok a
  | None => Fault IndexOutOfRange
  end.

Definition vector_at {A : Type} (v : list A) (i : Z) : outcome A :=
  if i <? 0 then Fault IndexOutOfRange
  else match v !! Z.to_nat i with
       | Some a => Ok a
       | None => Fault IndexOutOfRange
       end.

(** [void RoomFactory(const std::string& name, int id, const std::string& desc)] *)
Definition RoomFactory (name : string) (id : Z) (desc : string)
  (s : World * Memory) : World * Memory :=
  let '(w, m) := s in
  let '(newRoom, m1) := new_room m (Room_ctor name id desc) in
  (with_worldRooms w (worldRooms w ++ [newRoom]), m1).

(** [void EntityFactory(const std::string& name)] *)
Definition EntityFactory (name : string) (s : World * Memory) : World * Memory :=
  let '(w, m) := s in
  let '(newEnt, m1) := new_entity m (Entity_ctor name) in
  (with_population w (population w ++ [newEnt]), m1).

(** ** The story tree

    The loaders walk the document of an XML reader ([tinyxml2.h]) that is
    not part of the engine.  The engine needs little of it: the first
    child element and the next sibling element of a given name, the text
    of an element, and the integer in the text of an element. *)

(** Modelled from the spec: the story document of the markup reader, a
    tree of named, nested records.  A node is a text, an element with
    its tag name and its children, or something else (a comment). *)
#[warnings="-register-all"] Inductive XMLNode : Type :=
| XMLText (value : string)
| XMLElem (tag : string) (children : list XMLNode)
| XMLComment (value : string).

(** Modelled from the spec: an element pointer of the markup reader, as
    a place in the tree: the element with its children and the siblings
    that follow it.  The null pointer is [None]. *)
Record XMLElement : Type := mkXMLElement {
  Name : string;
  Children : list XMLNode;
  Following : list XMLNode;
}.

(** Modelled from the spec: the first element with a given tag name in a
    run of sibling nodes, a null pointer when there is none. *)
Fixpoint first_element (name : string) (l : list XMLNode) : option XMLElement :=
  match l with
  | [] => None
  | XMLElem t ch :: rest =>
      if String.eqb t name
      then Some {| Name := t; Children := ch; Following := rest |}
      else first_element name rest
  | _ :: rest => first_element name rest
  end.

(** Modelled from the spec: [e->FirstChildElement(name)], the first
    element with the given tag name under a parent. *)
Definition FirstChildElement (e : XMLElement) (name : string) : option XMLElement :=
  first_element name (Children e).

(** Modelled from the spec: [e->NextSiblingElement(name)], the next
    sibling element with the given tag name. *)
Definition NextSiblingElement (e : XMLElement) (name : string) : option XMLElement :=
  first_element name (Following e).

(** Modelled from the spec: [e->GetText()], the text content of an
    element: the text of its first child when that child is a text node,
    a null pointer when the element has no text. *)
Definition GetText (e : XMLElement) : option string :=
  match Children e with
  | XMLText v :: _ => Some v
  | _ => None
  end.

(** [p->...] on an element pointer. *)
Definition arrow (p : option XMLElement) : outcome XMLElement :=
  match p with
  | Some e => Ok e
  | None => Fault NullDereference
  end.

(** All the elements of a given name in a run of siblings, each with the
    siblings after it. *)
Fixpoint elements_named (name : string) (l : list XMLNode) : list XMLElement :=
  match l with
  | [] => []
  | XMLElem t ch :: rest =>
      if String.eqb t name
      then {| Name := t; Children := ch; Following := rest |}
             :: elements_named name rest
      else elements_named name rest
  | _ :: rest => elements_named name rest
  end.

(** The values [actual] takes in
    [while (actual) { ...; actual = actual->NextSiblingElement(name); }]. *)
Definition sibling_chain (name : string) (actual : option XMLElement)
  : list XMLElement :=
  match actual with
  | None => []
  | Some e => e :: elements_named name (Following e)
  end.

(** The error codes of the reader that matter to [QueryIntText]. *)
Inductive XMLError : Type :=
| XML_SUCCESS
| XML_NO_TEXT_NODE
| XML_CAN_NOT_CONVERT_TEXT.

Section Loader.

(** [e->QueryIntText(&ival)] of the XML reader.  The call reports through
    its error code and may write the variable it is given; the second
    component is the value of that variable afterwards.  The reader is
    not part of the engine, so the function is a parameter of the
    loaders. *)
Variable QueryIntText : XMLElement -> Z -> XMLError * Z.

(** [const std::string s(e->FirstChildElement(name)->GetText());] *)
Definition child_text (e : XMLElement) (name : string) : outcome string :=
  c ← arrow (FirstChildElement e name);
  match GetText c with
  | Some s => Ok s
  | None => Fault NullCString
  end.

(** [int id = 0; e->FirstChildElement(name)->QueryIntText(&id);]
    The error code is dropped by the callers. *)
Definition child_int (e : XMLElement) (name : string) : outcome Z :=
  c ← arrow (FirstChildElement e name);
  Ok (snd (QueryIntText c 0)).

(** The three extractions that open the body of both item loops
    ([makeInventory] and the inventory loop of [loadRooms]), with the
    [Object] they feed to [std::make_unique<Object>]. *)
Definition read_object (actual : XMLElement) : outcome Object :=
  objName ← child_text actual "name";
  desc ← child_text actual "description";
  id ← child_int actual "id";
  Ok (Object_ctor objName id desc).

(** [items makeInventory(tinyxml2::XMLElement* invEle)] *)
Definition makeInventory_body (actual : XMLElement) (s : items * Memory)
  : outcome (items * Memory) :=
  let '(retItems, m) := s in
  o ← read_object actual;
  let '(newObj, m1) := new_object m (DynObject o) in
  (* retItems.push_back(std::move(newObj)); newObj ends null *)
  Ok (retItems ++ [newObj], m1).

Definition makeInventory (invEle : option XMLElement) (m : Memory)
  : outcome (items * Memory) :=
  inv ← arrow invEle;
  foldM makeInventory_body
    (sibling_chain "object" (FirstChildElement inv "object")) ([], m).

(** [std::vector<int> trackConnections(tinyxml2::XMLElement* conns)] *)
Definition trackConnections (conns : option XMLElement) : outcome (list Z) :=
  c ← arrow conns;
  Ok (fold_left
        (fun neighbours actual => neighbours ++ [snd (QueryIntText actual 0)])
        (sibling_chain "id" (FirstChildElement c "id")) []).

(** The end of the scope of a vector of items: every handle that still
    holds an object deletes it. *)
Definition destroy_items (inv : items) (m : Memory) : outcome Memory :=
  foldM (fun i m => delete_object m i) inv m.

(** [int loadEntities(tinyxml2::XMLElement* firstEle)] *)
Definition loadEntities_body (actual : XMLElement) (s : nat * (World * Memory))
  : outcome (nat * (World * Memory)) :=
  let '(counter, (w, m)) := s in
  name ← child_text actual "name";
  '(inv, m1) ← makeInventory (FirstChildElement actual "inventory") m;
  let '(newEnt, m2) := new_entity m1 (Entity_ctor name) in
  let w1 := with_population w (population w ++ [newEnt]) in
  back ← vector_back (population w1);
  e ← deref_entity m2 back;
  let '(e', inv') := Entity_addItems e inv in
  let m3 := store_entity m2 back e' in
  m4 ← destroy_items inv' m3;
  Ok (S counter, (w1, m4)).

Definition loadEntities (firstEle : option XMLElement) (s : World * Memory)
  : outcome (nat * (World * Memory)) :=
  foldM loadEntities_body (sibling_chain "entity" firstEle) (0%nat, s).

(** The inventory loop of [loadRooms]: one object record is built and
    moved into the room at the back of the registry. *)
Definition loadRooms_item (w : World) (actualInv : XMLElement) (m : Memory)
  : outcome Memory :=
  o ← read_object actualInv;
  let '(tmpItem, m1) := new_object m (DynObject o) in
  back ← vector_back (worldRooms w);
  r ← deref_room m1 back;
  let '(r', tmpItem') := Room_addItem r tmpItem in
  let m2 := store_room m1 back r' in
  delete_object m2 tmpItem'.

(** [for (int i = int(population.size())-entCount; i < int(population.size()); i++)
       worldRooms.back()->addEntity(population[i]);]
    with [n] iterations left and [i] the loop variable. *)
Fixpoint loadRooms_attach (w : World) (n : nat) (i : Z) (m : Memory)
  : outcome Memory :=
  match n with
  | O => Ok m
  | S n' =>
      e ← vector_at (population w) i;
      back ← vector_back (worldRooms w);
      r ← deref_room m back;
      loadRooms_attach w n' (i + 1) (store_room m back (Room_addEntity r e))
  end.

(** The body of the loop of [loadRooms]. *)
Definition loadRooms_body (actual : XMLElement) (s : World * Memory)
  : outcome (World * Memory) :=
  roomName ← child_text actual "name";
  roomDescription ← child_text actual "description";
  roomID ← child_int actual "id";
  let '(w1, m1) := RoomFactory roomName roomID roomDescription s in
  invEle ← arrow (FirstChildElement actual "inventory");
  m2 ← foldM (loadRooms_item w1)
         (sibling_chain "object" (FirstChildElement invEle "object")) m1;
  connections ← trackConnections (FirstChildElement actual "connections");
  let w2 := with_roomConnectionMap w1
              (map_insert roomID connections (roomConnectionMap w1)) in
  '(entCount, (w3, m3)) ← loadEntities (FirstChildElement actual "entity") (w2, m2);
  let size := Z.of_nat (length (population w3)) in
  let first := size - Z.of_nat entCount in
  m4 ← loadRooms_attach w3 (Z.to_nat (size - first)) first m3;
  Ok (w3, m4).

(** [void loadRooms(tinyxml2::XMLElement* firstRoom)] *)
Definition loadRooms (firstRoom : option XMLElement) (s : World * Memory)
  : outcome (World * Memory) :=
  foldM loadRooms_body (sibling_chain "room" firstRoom) s.

End Loader.

(** ** World::connectRooms *)

(** [std::find_if(worldRooms.begin(), worldRooms.end(),
       [&id](node& r) { if (r->getID() == id) return true; return false; })]
    The iterator found is given by the element it points to; [None] is
    [worldRooms.end()]. *)
Fixpoint find_if_id (m : Memory) (id : Z) (v : nodes) : outcome (option node) :=
  match v with
  | [] => Ok None
  | r :: rest =>
      ro ← deref_room m r;
      if Room_getID ro =? id then Ok (Some r) else find_if_id m id rest
  end.

(** The body of the inner loop, for one neighbour id of a found parent. *)
Definition connectRooms_child (w : World) (parentRoom : node) (id2find : Z)
  (m : Memory) : outcome Memory :=
  childRoom ← find_if_id m id2find (worldRooms w);
  match childRoom with
  | Some child =>
      pr ← deref_room m parentRoom;
      Ok (store_room m parentRoom (Room_addNeighbour pr child))
  | None => Ok m
  end.

(** The body of the outer loop, for one entry of the connection map. *)
Definition connectRooms_entry (w : World) (it : Z * list Z) (m : Memory)
  : outcome Memory :=
  let parentID := fst it in
  parentRoom ← find_if_id m parentID (worldRooms w);
  match parentRoom with
  | Some parent => foldM (connectRooms_child w parent) (snd it) m
  | None => Ok m
  end.

(** [void connectRooms()] *)
Definition connectRooms (s : World * Memory) : outcome (World * Memory) :=
  let '(w, m) := s in
  m' ← foldM (connectRooms_entry w) (roomConnectionMap w) m;
  Ok (w, m').

(** [void initWorld(const char* path2story)], on the document that
    [story.LoadFile] produced (no node at all when the file could not be
    read). *)
Definition initWorld (QueryIntText : XMLElement -> Z -> XMLError * Z) (story : list XMLNode)
  (s : World * Memory) : outcome (World * Memory) :=
  worldElement ← arrow (first_element "world" story);
  s1 ← loadRooms QueryIntText (FirstChildElement worldElement "room") s;
  connectRooms s1.

(** ** The loaders as they write into the world

    The loaders write the members of the [World] they are called on, and
    the objects these lead to, in place: nothing is rolled back when a
    run stops at a fault.  A run in place gives, with its outcome, the
    state that its writes have reached: the state at the return, or the
    state at the faulting statement. *)
Definition inplace (A : Type) : Type :=
  World * Memory -> (World * Memory) * outcome A.

#[global] Instance inplace_ret : MRet inplace := fun _ a s => (s, Ok a).
#[global] Instance inplace_bind : MBind inplace := fun _ _ k c s =>
  match c s with
  | (s1, Ok a) => k a s1
  | (s1, Fault f) => (s1, Fault f)
  end.

(** A statement that only reads the story, one that reads the state, one
    that writes and cannot fault, and a statement on the memory that
    may fault, and writes nothing when it does. *)
Definition reads {A : Type} (c : outcome A) : inplace A := fun s => (s, c).

Definition reads_state {A : Type} (c : World * Memory -> outcome A) : inplace A :=
  fun s => (s, c s).

Definition writes (f : World * Memory -> World * Memory) : inplace unit :=
  fun s => (f s, Ok tt).

Definition updates (f : Memory -> outcome Memory) : inplace unit :=
  fun s =>
    match f (snd s) with
    | Ok m' => ((fst s, m'), Ok tt)
    | Fault e => (s, Fault e)
    end.

(** [std::make_unique<Object>(...)] and [std::make_shared<Entity>(...)]
    in place. *)
Definition allocates_object (d : Dyn) : inplace item :=
  fun s => let '(p, m1) := new_object (snd s) d in ((fst s, m1), Ok p).

Definition allocates_entity (e : Entity) : inplace ent :=
  fun s => let '(p, m1) := new_entity (snd s) e in ((fst s, m1), Ok p).

(** A loop over the values of its loop variable, with the local variable
    that its body updates. *)
Fixpoint iterates {A B : Type} (body : A -> B -> inplace B) (l : list A) (b : B)
  : inplace B :=
  match l with
  | [] => mret b
  | a :: l' => b' ← body a b; iterates body l' b'
  end.

(** What a run in place returns, with the state it returns in. *)
Definition result {A : Type} (x : (World * Memory) * outcome A)
  : outcome (A * (World * Memory)) :=
  match x with
  | (s, Ok a) => Ok (a, s)
  | (_, Fault f) => Fault f
  end.

Section LoaderInPlace.

Variable QueryIntText : XMLElement -> Z -> XMLError * Z.

(** [items makeInventory(tinyxml2::XMLElement* invEle)] *)
Definition makeInventory_inplace (invEle : option XMLElement) : inplace items :=
  inv ← reads (arrow invEle);
  iterates
    (fun actual retItems =>
       o ← reads (read_object QueryIntText actual);
       newObj ← allocates_object (DynObject o);
       (* retItems.push_back(std::move(newObj)); *)
       mret (retItems ++ [newObj]))
    (sibling_chain "object" (FirstChildElement inv "object")) [].

(** [int loadEntities(tinyxml2::XMLElement* firstEle)] *)
Definition loadEntities_body_inplace (actual : XMLElement) (counter : nat)
  : inplace nat :=
  name ← reads (child_text actual "name");
  inv ← makeInventory_inplace (FirstChildElement actual "inventory");
  newEnt ← allocates_entity (Entity_ctor name);
  _ ← writes (fun s =>
                (with_population (fst s) (population (fst s) ++ [newEnt]), snd s));
  (* population.back()->addItems(inv); *)
  back ← reads_state (fun s => vector_back (population (fst s)));
  e ← reads_state (fun s => deref_entity (snd s) back);
  _ ← writes (fun s => (fst s, store_entity (snd s) back (fst (Entity_addItems e inv))));
  (* the end of the scope of inv: every handle deletes what it holds *)
  _ ← iterates (fun i _ => updates (fun m => delete_object m i))
        (snd (Entity_addItems e inv)) tt;
  mret (S counter).

Definition loadEntities_inplace (firstEle : option XMLElement) : inplace nat :=
  iterates loadEntities_body_inplace (sibling_chain "entity" firstEle) 0%nat.

(** The body of the inventory loop of [loadRooms]. *)
Definition loadRooms_item_inplace (actualInv : XMLElement) : inplace unit :=
  o ← reads (read_object QueryIntText actualInv);
  tmpItem ← allocates_object (DynObject o);
  (* worldRooms.back()->addItem(tmpItem); *)
  back ← reads_state (fun s => vector_back (worldRooms (fst s)));
  r ← reads_state (fun s => deref_room (snd s) back);
  _ ← writes (fun s => (fst s, store_room (snd s) back (fst (Room_addItem r tmpItem))));
  (* the end of the scope of tmpItem *)
  updates (fun m => delete_object m (snd (Room_addItem r tmpItem))).

(** The loop that adds the entities just loaded to the room at the back
    of the registry, with [n] iterations left and [i] the loop
    variable. *)
Fixpoint loadRooms_attach_inplace (n : nat) (i : Z) : inplace unit :=
  match n with
  | O => mret tt
  | S n' =>
      e ← reads_state (fun s => vector_at (population (fst s)) i);
      back ← reads_state (fun s => vector_back (worldRooms (fst s)));
      r ← reads_state (fun s => deref_room (snd s) back);
      _ ← writes (fun s => (fst s, store_room (snd s) back (Room_addEntity r e)));
      loadRooms_attach_inplace n' (i + 1)
  end.

(** The body of the loop of [loadRooms]. *)
Definition loadRooms_body_inplace (actual : XMLElement) : inplace unit :=
  roomName ← reads (child_text actual "name");
  roomDescription ← reads (child_text actual "description");
  roomID ← reads (child_int QueryIntText actual "id");
  _ ← writes (RoomFactory roomName roomID roomDescription);
  invEle ← reads (arrow (FirstChildElement actual "inventory"));
  _ ← iterates (fun actualInv _ => loadRooms_item_inplace actualInv)
        (sibling_chain "object" (FirstChildElement invEle "object")) tt;
  connections ← reads (trackConnections QueryIntText
                         (FirstChildElement actual "connections"));
  _ ← writes (fun s =>
                (with_roomConnectionMap (fst s)
                   (map_insert roomID connections (roomConnectionMap (fst s))),
                 snd s));
  entCount ← loadEntities_inplace (FirstChildElement actual "entity");
  size ← reads_state (fun s => Ok (Z.of_nat (length (population (fst s)))));
  loadRooms_attach_inplace (Z.to_nat (size - (size - Z.of_nat entCount)))
    (size - Z.of_nat entCount).

(** [void loadRooms(tinyxml2::XMLElement* firstRoom)] *)
Definition loadRooms_inplace (firstRoom : option XMLElement) : inplace unit :=
  iterates (fun actual _ => loadRooms_body_inplace actual)
    (sibling_chain "room" firstRoom) tt.

End LoaderInPlace.

(** [void destroyWorld()]: every pointer of the registry and of the
    population is reset, the vectors keep their sizes and the connection
    map is left as it is.  The cells stay in the stores: whether a room is
    reclaimed depends on the pointers that other rooms still hold to it,
    and no pointer of the world leads to a cell any more.  The count that
    is printed for each room (that of a pointer just reset) is left
    out. *)
Definition destroyWorld (s : World * Memory) : World * Memory :=
  let '(w, m) := s in
  (with_population
     (with_worldRooms w (map (fun _ => None) (worldRooms w)))
     (map (fun _ => None) (population w)),
   m).

(** ** Operations on one room, as a caller can sequence them *)

Inductive RoomOp : Type :=
| OpAddNeighbour (nn : node)
| OpAddNeighbours (ns : nodes)
| OpAddItem (i : item)
| OpAddItems (inv : items)
| OpAddEntity (e : ent)
| OpAddEntities (ents : entities)
| OpSetLock (stat : LockStatus).

Definition Room_apply (r : Room) (op : RoomOp) : Room :=
  match op with
  | OpAddNeighbour nn => Room_addNeighbour r nn
  | OpAddNeighbours ns => Room_addNeighbours r ns
  | OpAddItem i => fst (Room_addItem r i)
  | OpAddItems inv => fst (Room_addItems r inv)
  | OpAddEntity e => Room_addEntity r e
  | OpAddEntities ents => Room_addEntities r ents
  | OpSetLock stat => Room_setLock r stat
  end.

Definition Room_run (r : Room) (ops : list RoomOp) : Room :=
  fold_left Room_apply ops r.

Definition is_relock (op : RoomOp) : bool :=
  match op with OpSetLock locked => true | _ => false end.

(** ** A reader to run the loaders on examples

    The conversion of a text to an integer takes optional white space, an
    optional sign, then at least one digit; what follows the digits is
    ignored, as by [sscanf] with ["%d"].  The number goes into an [int]:
    one that does not fit is kept by its low 32 bits in two's
    complement, as a conversion through a wider integer gives it (the C
    standard leaves the result for such a text open).  The theorems
    about the loaders hold for every [QueryIntText]; this one only
    serves the concrete stories below. *)

(** A number reduced to the range of a 32-bit [int]. *)
Definition to_int (z : Z) : Z :=
  (z + 2147483648) mod 4294967296 - 2147483648.

Definition digit_value (c : Ascii.ascii) : option Z :=
  let n := Z.of_N (Ascii.N_of_ascii c) in
  if (48 <=? n) && (n <=? 57) then Some (n - 48) else None.

Fixpoint read_digits (s : string) (acc : option Z) : option Z :=
  match s with
  | EmptyString => acc
  | String c rest =>
      match digit_value c with
      | Some d => read_digits rest (Some (10 * default 0 acc + d))
      | None => acc
      end
  end.

Definition is_space (c : Ascii.ascii) : bool :=
  let n := Ascii.N_of_ascii c in
  (n =? 32)%N || ((9 <=? n)%N && (n <=? 13)%N).

Fixpoint skip_spaces (s : string) : string :=
  match s with
  | String c rest => if is_space c then skip_spaces rest else s
  | EmptyString => s
  end.

Definition decimal_ToInt (s : string) : option Z :=
  to_int <$>
    match skip_spaces s with
    | String "-"%char rest => Z.opp <$> read_digits rest None
    | String "+"%char rest => read_digits rest None
    | s' => read_digits s' None
    end.

(** [QueryIntText] with that conversion: the text of the first child is
    converted when that child is a text node; the variable is written
    only on success, and a failure is reported by the error code
    alone. *)
Definition decimal_QueryIntText (e : XMLElement) (ival : Z) : XMLError * Z :=
  match Children e with
  | XMLText t :: _ =>
      match decimal_ToInt t with
      | Some v => (XML_SUCCESS, v)
      | None => (XML_CAN_NOT_CONVERT_TEXT, ival)
      end
  | _ => (XML_NO_TEXT_NODE, ival)
  end.

(** A leaf element [<tag>text</tag>]. *)
Definition leaf (tag text : string) : XMLNode := XMLElem tag [XMLText text].

(** * Vocabulary of the properties *)

(** ** The registry and the edges of [connectRooms] *)

(** Every pointer of the registry can be followed.  [RoomFactory], the
    only code that fills the registry, pushes the pointer it has just
    obtained from [std::make_shared]. *)
Definition registry_valid (w : World) (m : Memory) : Prop :=
  Forall (fun r => returns (deref_room m r) = true) (worldRooms w).

(** The test of the two lambdas of [connectRooms], with no fault. *)
Definition has_id (m : Memory) (id : Z) (r : node) : bool :=
  match deref_room m r with
  | Ok ro => Room_getID ro =? id
  | Fault _ => false
  end.

(** [r] is the first room of the registry, in registry order, whose id is
    [id]. *)
Definition first_with_id (w : World) (m : Memory) (id : Z) (r : node) : Prop :=
  exists i : nat,
    worldRooms w !! i = Some r
    /\ has_id m id r = true
    /\ forall (j : nat) (r' : node),
         (j < i)%nat -> worldRooms w !! j = Some r' -> has_id m id r' = false.

Definition resolve (m : Memory) (w : World) (id : Z) : option node :=
  List.find (has_id m id) (worldRooms w).

(** The edges one entry of the connection map gives to the room at
    address [l], and the edges the whole map gives to it. *)
Definition edges_of_entry (m : Memory) (w : World) (it : Z * list Z) (l : nat)
  : nodes :=
  match resolve m w (fst it) with
  | Some parent =>
      if decide (parent = Some l) then omap (resolve m w) (snd it) else []
  | None => []
  end.

Definition edges_added (m : Memory) (w : World) (l : nat) : nodes :=
  flat_map (fun it => edges_of_entry m w it l) (roomConnectionMap w).

(** [m'] is [m] where the room at each address [l] has received the
    neighbours [added l], and nothing else has changed. *)
Definition grows_neighbours (m m' : Memory) (added : nat -> nodes) : Prop :=
  objectStore m' = objectStore m
  /\ entityStore m' = entityStore m
  /\ length (roomStore m') = length (roomStore m)
  /\ forall (l : nat) (ro : Room),
       roomStore m !! l = Some ro ->
       roomStore m' !! l
       = Some (Room_with_neighbours ro (neighbours ro ++ added l)).

(** ** Records and runs of the loaders *)

(** A loader run described by a flag and a postcondition: the run returns
    exactly when the flag holds, and what it returns satisfies the
    postcondition. *)
Definition run_spec {A : Type} (c : outcome A) (ok : bool) (post : A -> Prop)
  : Prop :=
  match c with
  | Ok a => ok = true /\ post a
  | Fault _ => ok = false
  end.

(** What a record gives, read without a fault. *)
Definition child_text_of (e : XMLElement) (name : string) : option string :=
  match FirstChildElement e name with
  | Some c => GetText c
  | None => None
  end.

Definition has_child (e : XMLElement) (name : string) : bool :=
  match FirstChildElement e name with Some _ => true | None => false end.

Definition has_text (e : XMLElement) (name : string) : bool :=
  match child_text_of e name with Some _ => true | None => false end.

(** The structural demands of the loaders on object, entity and room
    records: the child elements that are dereferenced are there, and the
    names and descriptions have a text.  Whether the text of an id is a
    number plays no part. *)
Definition object_record_ok (o : XMLElement) : bool :=
  has_text o "name" && has_text o "description" && has_child o "id".

Definition inventory_ok (invEle : option XMLElement) : bool :=
  match invEle with
  | Some inv =>
      forallb object_record_ok
        (sibling_chain "object" (FirstChildElement inv "object"))
  | None => false
  end.

Definition entity_record_ok (e : XMLElement) : bool :=
  has_text e "name" && inventory_ok (FirstChildElement e "inventory").

Definition entity_records (r : XMLElement) : list XMLElement :=
  sibling_chain "entity" (FirstChildElement r "entity").

Definition room_record_ok (r : XMLElement) : bool :=
  has_text r "name" && has_text r "description" && has_child r "id"
  && inventory_ok (FirstChildElement r "inventory")
  && has_child r "connections"
  && forallb entity_record_ok (entity_records r).

Section LoaderRecords.

Variable QueryIntText : XMLElement -> Z -> XMLError * Z.

(** The id of a record and the neighbour ids of a room record, as
    [QueryIntText] leaves them in a variable initialised to 0. *)
Definition record_id (r : XMLElement) : Z :=
  match FirstChildElement r "id" with
  | Some c => snd (QueryIntText c 0)
  | None => 0
  end.

Definition record_connections (r : XMLElement) : list Z :=
  match FirstChildElement r "connections" with
  | Some c =>
      map (fun e => snd (QueryIntText e 0))
        (sibling_chain "id" (FirstChildElement c "id"))
  | None => []
  end.

(** What one room record adds to the world: one room at the end of the
    registry and of the room store, its entities at the end of the
    population and of the entity store, and its connections in the map
    unless its id is already a key. *)
Definition room_built (r : XMLElement) (s s' : World * Memory) : Prop :=
  exists (room : Room) (es : list Entity),
    worldRooms (fst s') = worldRooms (fst s) ++ [Some (length (roomStore (snd s)))]
    /\ roomStore (snd s') = roomStore (snd s) ++ [room]
    /\ population (fst s') = population (fst s) ++ roomPopulation room
    /\ roomPopulation room
       = map Some (seq (length (entityStore (snd s))) (length es))
    /\ entityStore (snd s') = entityStore (snd s) ++ es
    /\ map (fun e => Some (Entity_name e)) es
       = map (fun a => child_text_of a "name") (entity_records r)
    /\ Room_getID room = record_id r
    /\ Some (Room_getName room) = child_text_of r "name"
    /\ lock room = locked
    /\ neighbours room = []
    /\ roomConnectionMap (fst s')
       = map_insert (record_id r) (record_connections r)
           (roomConnectionMap (fst s)).

(** The rooms of a run of records, built one after the other. *)
Inductive rooms_built : list XMLElement -> World * Memory -> World * Memory -> Prop :=
| rooms_built_nil (s : World * Memory) : rooms_built [] s s
| rooms_built_cons (r : XMLElement) (rs : list XMLElement)
    (s s1 s2 : World * Memory) :
    room_built r s s1 -> rooms_built rs s1 s2 -> rooms_built (r :: rs) s s2.

End LoaderRecords.

(** Only the object store differs. *)
Definition same_rooms_and_entities (m m' : Memory) : Prop :=
  entityStore m' = entityStore m /\ roomStore m' = roomStore m.


(** What a run of entity records adds to the world. *)
Definition entities_added (recs : list XMLElement) (c0 : nat)
  (s0 : World * Memory) (s' : nat * (World * Memory)) : Prop :=
  fst s' = (c0 + length recs)%nat
  /\ worldRooms (fst (snd s')) = worldRooms (fst s0)
  /\ roomConnectionMap (fst (snd s')) = roomConnectionMap (fst s0)
  /\ roomStore (snd (snd s')) = roomStore (snd s0)
  /\ exists es : list Entity,
       entityStore (snd (snd s')) = entityStore (snd s0) ++ es
       /\ population (fst (snd s'))
          = population (fst s0)
            ++ map Some (seq (length (entityStore (snd s0))) (length es))
       /\ map (fun e => Some (Entity_name e)) es
          = map (fun a => child_text_of a "name") recs.

(** The registry and the rooms of a state. *)
Definition rooms_are (wr : nodes) (rs : list Room) (s : World * Memory) : Prop :=
  worldRooms (fst s) = wr /\ roomStore (snd s) = rs.

(** The state of a load while it works on a room record that it found
    in the state [s0]: the room of the record is at the back of the
    registry and of the room store, and what was there is as it was. *)
Definition room_in_progress (s0 s : World * Memory) : Prop :=
  exists r : Room,
    rooms_are (worldRooms (fst s0) ++ [Some (length (roomStore (snd s0)))])
      (roomStore (snd s0) ++ [r]) s.

(** * Worlds and stories of the examples *)

(** The memory of the lock scenarios: a key whose unlock id and object id
    are both 2 at address 0, a plain rock at address 1, and two locked
    rooms, the Entrance (id 1) at address 0 and the Vault (id 2) at
    address 1. *)
Definition lock_scenario : Memory :=
  {| objectStore := [Some (DynKey (Key_ctor 2 "vault key" 2 "opens the vault"));
                     Some (DynObject (Object_ctor "rock" 5 "a rock"))];
     entityStore := [];
     roomStore := [Room_ctor "Entrance" 1 "the entrance";
                   Room_ctor "Vault" 2 "the vault"] |}.

(** The Entrance (id 1) and the Vault (id 2); the Entrance lists the
    Vault and a room 99 that does not exist. *)
Definition two_rooms_world : World :=
  {| title := ""; worldRooms := [Some 0%nat; Some 1%nat]; population := [];
     roomConnectionMap := [(1, [99; 2]); (2, [])] |}.

Definition two_rooms_memory : Memory :=
  {| objectStore := []; entityStore := [];
     roomStore := [Room_ctor "Entrance" 1 "the entrance";
                   Room_ctor "Vault" 2 "the vault"] |}.

(** Two rooms share the id 1; the Vault (id 2) lists that id and is
    listed under it. *)
Definition twin_rooms_world : World :=
  {| title := ""; worldRooms := [Some 0%nat; Some 1%nat; Some 2%nat];
     population := [];
     roomConnectionMap := [(1, [2]); (2, [1])] |}.

Definition twin_rooms_memory : Memory :=
  {| objectStore := []; entityStore := [];
     roomStore := [Room_ctor "First" 1 "the first room 1";
                   Room_ctor "Second" 1 "the second room 1";
                   Room_ctor "Vault" 2 "the vault"] |}.

(** A story: the Entrance (id 1) holds a rock and bob, who carries a hat,
    and leads to the Vault (id 2) and to a room 99 that is nowhere; the
    Vault is empty. *)
Definition two_rooms_story : list XMLNode :=
  [XMLElem "world"
     [XMLElem "room"
        [leaf "name" "Entrance"; leaf "description" "the entrance"; leaf "id" "1";
         XMLElem "inventory"
           [XMLElem "object"
              [leaf "name" "rock"; leaf "description" "a rock"; leaf "id" "5"]];
         XMLElem "connections" [leaf "id" "2"; leaf "id" "99"];
         XMLElem "entity"
           [leaf "name" "bob";
            XMLElem "inventory"
              [XMLElem "object"
                 [leaf "name" "hat"; leaf "description" "a hat"; leaf "id" "6"]]]];
      XMLElem "room"
        [leaf "name" "Vault"; leaf "description" "the vault"; leaf "id" "2";
         XMLElem "inventory" []; XMLElem "connections" []]]].

(** The room elements of a story, as [initWorld] reaches them. *)
Definition first_room (story : list XMLNode) : option XMLElement :=
  match first_element "world" story with
  | Some worldElement => FirstChildElement worldElement "room"
  | None => None
  end.

(** Two room records carry the id 1; the first one leads to room 2, the
    second one to room 3. *)
Definition twin_ids_story : list XMLNode :=
  [XMLElem "world"
     [XMLElem "room"
        [leaf "name" "First"; leaf "description" "d"; leaf "id" "1";
         XMLElem "inventory" []; XMLElem "connections" [leaf "id" "2"]];
      XMLElem "room"
        [leaf "name" "Second"; leaf "description" "d"; leaf "id" "1";
         XMLElem "inventory" []; XMLElem "connections" [leaf "id" "3"]]]].

(** The object of the second room has no description. *)
Definition incomplete_story : list XMLNode :=
  [XMLElem "world"
     [XMLElem "room"
        [leaf "name" "Hall"; leaf "description" "d"; leaf "id" "1";
         XMLElem "inventory" []; XMLElem "connections" []];
      XMLElem "room"
        [leaf "name" "Attic"; leaf "description" "d"; leaf "id" "2";
         XMLElem "inventory"
           [XMLElem "object" [leaf "name" "box"; leaf "id" "7"]];
         XMLElem "connections" []]]].

(** The id of the only room is not a number. *)
Definition bad_id_story : list XMLNode :=
  [XMLElem "world"
     [XMLElem "room"
        [leaf "name" "Cellar"; leaf "description" "d"; leaf "id" "abc";
         XMLElem "inventory" []; XMLElem "connections" []]]].

(** * Vocabulary of the further properties *)

(** What a run satisfies when it returns. *)
Definition ok_spec {A : Type} (c : outcome A) (post : A -> Prop) : Prop :=
  forall a : A, c = Ok a -> post a.

(** Every pointer of the population can be followed. *)
Definition population_valid (w : World) (m : Memory) : Prop :=
  Forall (fun e => returns (deref_entity m e) = true) (population w).

(** The item handles that the rooms and the entities of a memory hold,
    inventory after inventory. *)
Definition all_items (m : Memory) : list (option nat) :=
  concat (map Room_inventory (roomStore m))
  ++ concat (map Entity_inventory (entityStore m)).

(** Exclusive ownership of the items: every handle of an inventory leads
    to a live object, and no two handles are the same address. *)
Definition items_owned_once (m : Memory) : Prop :=
  NoDup (all_items m)
  /\ Forall (fun i => returns (deref_object m i) = true) (all_items m).

(** A cell holding a plain [Object]. *)
Definition plain_cell (o : Object) : option Dyn := Some (DynObject o).

(** [m'] is [m] with new cells for the plain objects [objs] at the end of
    the object store, each of them held by one inventory. *)
Definition objects_added (m m' : Memory) (objs : list Object) : Prop :=
  objectStore m' = objectStore m ++ map plain_cell objs
  /\ all_items m'
     ≡ₚ all_items m ++ map Some (seq (length (objectStore m)) (length objs)).

(** The [Object] that an object record describes: its name, its
    description and the id that [QueryIntText] leaves in a variable
    initialised to 0. *)
Definition record_object (QueryIntText : XMLElement -> Z -> XMLError * Z)
  (o : XMLElement) : Object :=
  Object_ctor (default "" (child_text_of o "name"))
    (record_id QueryIntText o)
    (default "" (child_text_of o "description")).

(** The object records of an inventory element. *)
Definition object_records (inv : XMLElement) : list XMLElement :=
  sibling_chain "object" (FirstChildElement inv "object").

(** The cells and the handles that a run of object records gives. *)
Definition inventory_made (QueryIntText : XMLElement -> Z -> XMLError * Z)
  (m0 : Memory) (recs : list XMLElement)
  (s : list (option nat) * Memory) : Prop :=
  fst s = map Some (seq (length (objectStore m0)) (length recs))
  /\ snd s
     = with_objects m0
         (objectStore m0
          ++ map (fun a => plain_cell (record_object QueryIntText a)) recs).

(** The object cells of [m] are still there, unchanged, in [m']. *)
Definition objects_kept (m m' : Memory) : Prop :=
  forall (l : nat) (c : option Dyn),
    objectStore m !! l = Some c -> objectStore m' !! l = Some c.

(** The handles of an inventory lead, one by one and in order, to the
    plain objects that the object records of an inventory element
    describe. *)
Definition inventory_holds (QueryIntText : XMLElement -> Z -> XMLError * Z)
  (m : Memory) (inv : list (option nat)) (invEle : option XMLElement) : Prop :=
  exists e : XMLElement,
    invEle = Some e
    /\ Forall2
         (fun h rec =>
            deref_object m h = Ok (DynObject (record_object QueryIntText rec)))
         inv (object_records e).

(** The room records of a story, in document order. *)
Definition story_rooms (story : list XMLNode) : list XMLElement :=
  sibling_chain "room" (first_room story).

(** A registry whose second pointer has been reset. *)
Definition reset_world : World :=
  {| title := ""; worldRooms := [Some 0%nat; None; Some 1%nat]; population := [];
     roomConnectionMap := [(2, [1])] |}.

(** * Properties *)

(** ** Constructors and mutators *)

Lemma Room_addItems_spec (r : Room) (inv : items) :
  Room_addItems r inv
  = (Room_with_inventory r (Room_inventory r ++ inv), map (fun _ => None) inv).
Proof.
  revert r; induction inv as [|i inv IH]; intros r; simpl.
  - rewrite app_nil_r. destruct r; reflexivity.
  - rewrite IH. simpl. rewrite <- app_assoc. reflexivity.
Qed.

Lemma Entity_addItems_spec (e : Entity) (i : items) :
  Entity_addItems e i
  = ({| Entity_name := Entity_name e;
        Entity_inventory := Entity_inventory e ++ i |}, map (fun _ => None) i).
Proof.
  revert e; induction i as [|it i IH]; intros e; simpl.
  - rewrite app_nil_r. destruct e; reflexivity.
  - rewrite IH. simpl. rewrite <- app_assoc. reflexivity.
Qed.

Lemma Room_addNeighbours_spec (r : Room) (ns : nodes) :
  Room_addNeighbours r ns = Room_with_neighbours r (neighbours r ++ ns).
Proof.
  unfold Room_addNeighbours.
  revert r; induction ns as [|n ns IH]; intros r; simpl.
  - rewrite app_nil_r. destruct r; reflexivity.
  - rewrite IH. unfold Room_addNeighbour, Room_with_neighbours. simpl.
    rewrite <- app_assoc. reflexivity.
Qed.

Lemma Room_addEntities_spec (r : Room) (es : entities) :
  Room_addEntities r es = Room_with_population r (roomPopulation r ++ es).
Proof.
  unfold Room_addEntities.
  revert r; induction es as [|e es IH]; intros r; simpl.
  - rewrite app_nil_r. destruct r; reflexivity.
  - rewrite IH. unfold Room_addEntity, Room_with_population. simpl.
    rewrite <- app_assoc. reflexivity.
Qed.

Lemma Room_apply_lock (r : Room) (op : RoomOp) :
  lock (Room_apply r op)
  = match op with OpSetLock stat => stat | _ => lock r end.
Proof.
  destruct op; simpl; try reflexivity.
  - rewrite Room_addNeighbours_spec. reflexivity.
  - rewrite Room_addItems_spec. reflexivity.
  - rewrite Room_addEntities_spec. reflexivity.
Qed.

(** C9, as amended.  The constructors of [Object], [Key], [Entity] and
    [Room] check nothing: whatever name, id and description they are
    given, the empty name included, they produce an instance that stores
    the arguments unchanged. *)
Theorem constructors_accept_any_identity (n d : string) (id kid : Z) :
  Object_getName (Object_ctor n id d) = n
  /\ Object_getID (Object_ctor n id d) = id
  /\ Object_getDescription (Object_ctor n id d) = d
  /\ Key_base (Key_ctor kid n id d) = Object_ctor n id d
  /\ Entity_getName (Entity_ctor n) = n
  /\ Room_getName (Room_ctor n id d) = n
  /\ Room_getID (Room_ctor n id d) = id
  /\ Room_getDescription (Room_ctor n id d) = d.
Proof. repeat split. Qed.

(** C9, refuted as stated: constructing an [Object], an [Entity] and a
    [Room] with the empty name is not rejected; each construction yields
    an instance whose name is empty. *)
Lemma empty_name_is_constructed :
  (exists o : Object, Object_ctor "" 0 "" = o /\ Object_getName o = "")
  /\ (exists e : Entity, Entity_ctor "" = e /\ Entity_getName e = "")
  /\ (exists r : Room, Room_ctor "" 0 "" = r /\ Room_getName r = "").
Proof. repeat split; eexists; split; reflexivity. Qed.

(** C7.  [addItem] of a [Room] and of an [Entity] moves the item out of
    the caller's handle: afterwards the handle is null, the item sits at
    the end of the inventory, and when the inventory did not hold it
    before it holds it exactly once.  [addItems] does the same to every
    slot of the source vector: the slots are all null afterwards and the
    inventory has received the items in order. *)
Theorem addItem_transfers_ownership
  (r : Room) (e : Entity) (l : nat) (src : items)
  (Hr : Some l ∉ Room_inventory r) (He : Some l ∉ Entity_inventory e) :
  (snd (Room_addItem r (Some l)) = None
   /\ Room_inventory (fst (Room_addItem r (Some l))) = Room_inventory r ++ [Some l]
   /\ length (filter (fun i => i = Some l)
                (Room_inventory (fst (Room_addItem r (Some l))))) = 1%nat)
  /\ (snd (Entity_addItem e (Some l)) = None
      /\ Entity_inventory (fst (Entity_addItem e (Some l)))
         = Entity_inventory e ++ [Some l]
      /\ length (filter (fun i => i = Some l)
                   (Entity_inventory (fst (Entity_addItem e (Some l))))) = 1%nat)
  /\ (Forall (fun slot => slot = None) (snd (Room_addItems r src))
      /\ length (snd (Room_addItems r src)) = length src
      /\ Room_inventory (fst (Room_addItems r src)) = Room_inventory r ++ src)
  /\ (Forall (fun slot => slot = None) (snd (Entity_addItems e src))
      /\ length (snd (Entity_addItems e src)) = length src
      /\ Entity_inventory (fst (Entity_addItems e src)) = Entity_inventory e ++ src).
Proof.
  assert (Hcount : forall inv : items, Some l ∉ inv ->
            length (filter (fun i => i = Some l) (inv ++ [Some l])) = 1%nat).
  { intros inv Hnot. rewrite filter_app, length_app.
    assert (Hnil : filter (fun i : item => i = Some l) inv = []).
    { induction inv as [|x inv IH]; [reflexivity|].
      destruct (decide (x = Some l)) as [->|Hne].
      - exfalso. apply Hnot. left.
      - rewrite filter_cons_False by exact Hne.
        apply IH. intros Hin. apply Hnot. right. exact Hin. }
    rewrite Hnil, filter_cons_True by reflexivity. reflexivity. }
  assert (Hnull : forall inv : items,
            Forall (fun slot : item => slot = None) (map (fun _ => None) inv)).
  { intros inv. apply Forall_forall. intros x Hin.
    apply list_elem_of_fmap in Hin. destruct Hin as [y [-> _]]. reflexivity. }
  repeat split; simpl; auto.
  - rewrite Room_addItems_spec. apply Hnull.
  - rewrite Room_addItems_spec. simpl. apply length_map.
  - rewrite Room_addItems_spec. reflexivity.
  - rewrite Entity_addItems_spec. apply Hnull.
  - rewrite Entity_addItems_spec. simpl. apply length_map.
  - rewrite Entity_addItems_spec. reflexivity.
Qed.

Lemma addItem_transfers_ownership_witness :
  snd (Room_addItem (Room_ctor "Vault" 2 "d") (Some 0%nat)) = None
  /\ Room_inventory (fst (Room_addItem (Room_ctor "Vault" 2 "d") (Some 0%nat)))
     = [Some 0%nat].
Proof.
  assert (Hr : Some 0%nat ∉ Room_inventory (Room_ctor "Vault" 2 "d")).
  { simpl. apply not_elem_of_nil. }
  assert (He : Some 0%nat ∉ Entity_inventory (Entity_ctor "bob")).
  { simpl. apply not_elem_of_nil. }
  destruct (addItem_transfers_ownership
              (Room_ctor "Vault" 2 "d") (Entity_ctor "bob") 0%nat [] Hr He)
    as [[H1 [H2 _]] _].
  split; [exact H1 | exact H2].
Defined.

(** ** Room::unlock *)

(** [unlock] starts by releasing the caller's handle and then reads
    through that handle (when the object is a [Key]) or through the null
    result of the cast (when it is not): no call returns. *)
Lemma Room_unlock_never_returns (k : item) (r : node) (m : Memory) :
  returns (Room_unlock k r m) = false.
Proof.
  unfold Room_unlock.
  destruct (dynamic_cast_Key m k) as [[k2r|]|f]; reflexivity.
Qed.

(** C1, on the code.  A key whose unlock id (and object id) is the id of
    the locked Vault is presented to [unlock]: the call does not return
    [true] with the Vault unlocked and the key destroyed; it dereferences
    the handle it has just released. *)
Theorem unlock_matching_key_faults :
  deref_object lock_scenario (Some 0%nat)
    = Ok (DynKey (Key_ctor 2 "vault key" 2 "opens the vault"))
  /\ Room_getID <$> deref_room lock_scenario (Some 1%nat) = Ok 2
  /\ Room_unlock (Some 0%nat) (Some 1%nat) lock_scenario = Fault NullDereference.
Proof. repeat split. Qed.

(** C3, on the code.  Neither a plain item nor a key for another room
    makes [unlock] report failure and hand an item back: the plain item
    is released and lost to the null result of the cast, which is then
    dereferenced; the key is read through the released handle. *)
Theorem unlock_mismatch_faults :
  Room_unlock (Some 1%nat) (Some 1%nat) lock_scenario = Fault NullDereference
  /\ Room_unlock (Some 0%nat) (Some 0%nat) lock_scenario = Fault NullDereference.
Proof. split; reflexivity. Qed.

(** ** World::connectRooms *)

Lemma Room_with_neighbours_same (ro : Room) :
  Room_with_neighbours ro (neighbours ro ++ []) = ro.
Proof. rewrite app_nil_r. destruct ro; reflexivity. Qed.

Lemma grows_neighbours_refl (m : Memory) :
  grows_neighbours m m (fun _ => []).
Proof.
  repeat split. intros l ro H. rewrite Room_with_neighbours_same. exact H.
Qed.

Lemma grows_neighbours_trans (m1 m2 m3 : Memory) (f g : nat -> nodes) :
  grows_neighbours m1 m2 f -> grows_neighbours m2 m3 g ->
  grows_neighbours m1 m3 (fun l => f l ++ g l).
Proof.
  intros (Ho1 & He1 & Hl1 & H1) (Ho2 & He2 & Hl2 & H2).
  repeat split; try congruence.
  intros l ro H. apply H1 in H. apply H2 in H. rewrite H.
  unfold Room_with_neighbours; simpl. rewrite app_assoc. reflexivity.
Qed.

Lemma grows_neighbours_ext (m m' : Memory) (f g : nat -> nodes) :
  (forall l, f l = g l) -> grows_neighbours m m' f -> grows_neighbours m m' g.
Proof.
  intros Hfg (Ho & He & Hl & H). repeat split; try assumption.
  intros l ro Hro. rewrite <- Hfg. apply H. exact Hro.
Qed.

Lemma grows_neighbours_deref (m m' : Memory) (f : nat -> nodes) (r : node) :
  grows_neighbours m m' f ->
  deref_room m' r
  = (fun ro => Room_with_neighbours ro
                 (neighbours ro ++ match r with Some l => f l | None => [] end))
      <$> deref_room m r.
Proof.
  intros (_ & _ & Hl & H). unfold deref_room, deref.
  destruct r as [l|]; [|reflexivity].
  destruct (roomStore m !! l) as [ro|] eqn:Hro.
  - rewrite (H l ro Hro). reflexivity.
  - apply lookup_ge_None in Hro. rewrite <- Hl in Hro.
    apply lookup_ge_None in Hro. rewrite Hro. reflexivity.
Qed.

Lemma grows_neighbours_has_id (m m' : Memory) (f : nat -> nodes) (id : Z) (r : node) :
  grows_neighbours m m' f -> has_id m' id r = has_id m id r.
Proof.
  intros H. unfold has_id. rewrite (grows_neighbours_deref _ _ _ _ H).
  destruct (deref_room m r); reflexivity.
Qed.

Lemma find_ext {A : Type} (f g : A -> bool) (l : list A) :
  (forall a, f a = g a) -> List.find f l = List.find g l.
Proof.
  intros Hfg. induction l as [|a l IH]; simpl; [reflexivity|].
  rewrite Hfg, IH. reflexivity.
Qed.

Lemma grows_neighbours_resolve (m m' : Memory) (f : nat -> nodes) (w : World) (id : Z) :
  grows_neighbours m m' f -> resolve m' w id = resolve m w id.
Proof.
  intros H. apply find_ext. intros r. exact (grows_neighbours_has_id _ _ _ _ _ H).
Qed.

Lemma grows_neighbours_valid (m m' : Memory) (f : nat -> nodes) (w : World) :
  grows_neighbours m m' f -> registry_valid w m -> registry_valid w m'.
Proof.
  intros H Hv. unfold registry_valid in *.
  eapply Forall_impl; [exact Hv|]. simpl. intros r Hr.
  rewrite (grows_neighbours_deref _ _ _ _ H).
  destruct (deref_room m r); [reflexivity | discriminate Hr].
Qed.

(** On a valid registry the search never faults and finds what [resolve]
    says. *)
Lemma find_if_id_valid (m : Memory) (id : Z) (v : nodes) :
  Forall (fun r => returns (deref_room m r) = true) v ->
  find_if_id m id v = Ok (List.find (has_id m id) v).
Proof.
  induction 1 as [|r v Hr _ IH]; simpl; [reflexivity|].
  unfold has_id. destruct (deref_room m r) as [ro|f]; [|discriminate Hr].
  simpl. destruct (Room_getID ro =? id); [reflexivity | exact IH].
Qed.

Lemma find_first {A : Type} (f : A -> bool) (v : list A) (a : A) :
  List.find f v = Some a <->
  exists i : nat, v !! i = Some a /\ f a = true
    /\ forall (j : nat) (a' : A), (j < i)%nat -> v !! j = Some a' -> f a' = false.
Proof.
  revert a; induction v as [|x v IH]; intros a; simpl.
  - split; [discriminate|]. intros (i & Hi & _). rewrite lookup_nil in Hi.
    discriminate Hi.
  - destruct (f x) eqn:Hfx.
    + split.
      * intros [= <-]. exists 0%nat. repeat split; [exact Hfx|]. intros; lia.
      * intros (i & Hi & Hfa & Hmin). destruct i as [|i].
        -- simpl in Hi. exact Hi.
        -- specialize (Hmin 0%nat x (Nat.lt_0_succ i) eq_refl). congruence.
    + rewrite IH. split.
      * intros (i & Hi & Hfa & Hmin). exists (S i). repeat split; try assumption.
        intros [|j] a' Hlt Hj; simpl in Hj.
        -- congruence.
        -- apply (Hmin j); [lia | exact Hj].
      * intros (i & Hi & Hfa & Hmin). destruct i as [|i].
        -- simpl in Hi. congruence.
        -- exists i. repeat split; try assumption.
           intros j a' Hlt Hj. apply (Hmin (S j)); [lia | exact Hj].
Qed.

Lemma resolve_first_with_id (m : Memory) (w : World) (id : Z) (r : node) :
  resolve m w id = Some r <-> first_with_id w m id r.
Proof. apply find_first. Qed.

Lemma resolve_valid (m : Memory) (w : World) (id : Z) (r : node) :
  registry_valid w m -> resolve m w id = Some r ->
  returns (deref_room m r) = true.
Proof.
  intros Hv Hr. apply find_some in Hr as [Hin _].
  unfold registry_valid in Hv. rewrite Forall_forall in Hv.
  apply Hv. apply list_elem_of_In. exact Hin.
Qed.

Lemma omap_pointwise {A B : Type} (f g : A -> option B) (l : list A) :
  (forall a, f a = g a) -> omap f l = omap g l.
Proof.
  intros Hfg. induction l as [|a l IH]; [reflexivity|].
  cbn. rewrite Hfg. destruct (g a); [f_equal|]; exact IH.
Qed.

Lemma deref_room_grows_returns (m m' : Memory) (f : nat -> nodes) (r : node) :
  grows_neighbours m m' f ->
  returns (deref_room m r) = true -> returns (deref_room m' r) = true.
Proof.
  intros H Hr. rewrite (grows_neighbours_deref _ _ _ _ H).
  destruct (deref_room m r); [reflexivity | discriminate Hr].
Qed.

(** [parentRoom->get()->addNeighbour( *childRoom )] *)
Lemma addNeighbour_grows (m : Memory) (p c : node) (pr : Room) :
  deref_room m p = Ok pr ->
  grows_neighbours m (store_room m p (Room_addNeighbour pr c))
    (fun l => if decide (p = Some l) then [c] else []).
Proof.
  intros Hp. destruct p as [l0|]; [|discriminate Hp].
  unfold deref_room, deref in Hp.
  destruct (roomStore m !! l0) as [pr0|] eqn:Hl0; [|discriminate Hp].
  injection Hp as ->.
  repeat split; simpl.
  - apply length_insert.
  - intros l ro Hro. destruct (decide (Some l0 = Some l)) as [[= ->]|Hne].
    + rewrite list_lookup_insert_eq by (eapply lookup_lt_Some; exact Hl0).
      rewrite Hl0 in Hro. injection Hro as ->. reflexivity.
    + rewrite list_lookup_insert_ne by congruence.
      rewrite Room_with_neighbours_same. exact Hro.
Qed.

Lemma connectRooms_child_grows (w : World) (m : Memory) (parent : node) (id : Z) :
  registry_valid w m -> returns (deref_room m parent) = true ->
  exists m', connectRooms_child w parent id m = Ok m'
    /\ grows_neighbours m m'
         (fun l => if decide (parent = Some l)
                   then omap (resolve m w) [id] else []).
Proof.
  intros Hv Hp. unfold connectRooms_child.
  rewrite (find_if_id_valid _ _ _ Hv). simpl.
  fold (resolve m w id). destruct (resolve m w id) as [child|].
  - destruct (deref_room m parent) as [pr|] eqn:Hpr; [|discriminate Hp].
    simpl. eexists. split; [reflexivity|].
    apply addNeighbour_grows. exact Hpr.
  - eexists. split; [reflexivity|].
    eapply grows_neighbours_ext; [|apply grows_neighbours_refl].
    intros l. destruct (decide (parent = Some l)); reflexivity.
Qed.

Lemma connectRooms_children_grows (w : World) (parent : node) (ids : list Z) :
  forall m : Memory,
  registry_valid w m -> returns (deref_room m parent) = true ->
  exists m', foldM (connectRooms_child w parent) ids m = Ok m'
    /\ grows_neighbours m m'
         (fun l => if decide (parent = Some l)
                   then omap (resolve m w) ids else []).
Proof.
  induction ids as [|id ids IH]; intros m Hv Hp; simpl.
  - exists m. split; [reflexivity|].
    eapply grows_neighbours_ext; [|apply grows_neighbours_refl].
    intros l. destruct (decide (parent = Some l)); reflexivity.
  - destruct (connectRooms_child_grows w m parent id Hv Hp) as (m1 & E1 & G1).
    rewrite E1. simpl.
    destruct (IH m1 (grows_neighbours_valid _ _ _ _ G1 Hv)
                 (deref_room_grows_returns _ _ _ _ G1 Hp)) as (m' & E' & G').
    exists m'. split; [exact E'|].
    eapply grows_neighbours_ext; [|exact (grows_neighbours_trans _ _ _ _ _ G1 G')].
    intros l. simpl. destruct (decide (parent = Some l)); [|reflexivity].
    rewrite (omap_pointwise (resolve m1 w) (resolve m w))
      by (intros a; apply (grows_neighbours_resolve _ _ _ _ _ G1)).
    destruct (resolve m w id); reflexivity.
Qed.

Lemma connectRooms_entry_grows (w : World) (m : Memory) (it : Z * list Z) :
  registry_valid w m ->
  exists m', connectRooms_entry w it m = Ok m'
    /\ grows_neighbours m m' (edges_of_entry m w it).
Proof.
  intros Hv. unfold connectRooms_entry, edges_of_entry.
  rewrite (find_if_id_valid _ _ _ Hv). simpl.
  fold (resolve m w (fst it)).
  destruct (resolve m w (fst it)) as [parent|] eqn:Hres.
  - apply connectRooms_children_grows; [exact Hv|].
    eapply resolve_valid; eassumption.
  - exists m. split; [reflexivity | apply grows_neighbours_refl].
Qed.

Lemma connectRooms_entries_grows (w : World) (cm : list (Z * list Z)) :
  forall m : Memory,
  registry_valid w m ->
  exists m', foldM (connectRooms_entry w) cm m = Ok m'
    /\ grows_neighbours m m'
         (fun l => flat_map (fun it => edges_of_entry m w it l) cm).
Proof.
  induction cm as [|it cm IH]; intros m Hv; simpl.
  - exists m. split; [reflexivity | apply grows_neighbours_refl].
  - destruct (connectRooms_entry_grows w m it Hv) as (m1 & E1 & G1).
    rewrite E1. simpl.
    destruct (IH m1 (grows_neighbours_valid _ _ _ _ G1 Hv)) as (m' & E' & G').
    exists m'. split; [exact E'|].
    eapply grows_neighbours_ext; [|exact (grows_neighbours_trans _ _ _ _ _ G1 G')].
    intros l. simpl. f_equal.
    apply flat_map_ext. intros it' . unfold edges_of_entry.
    rewrite (grows_neighbours_resolve _ _ _ _ _ G1).
    destruct (resolve m w (fst it')); [|reflexivity].
    destruct (decide (o = Some l)); [|reflexivity].
    apply omap_pointwise. intros a. apply (grows_neighbours_resolve _ _ _ _ _ G1).
Qed.

(** What [connectRooms] does on a valid registry: it returns, and every
    room has received exactly the edges of [edges_added]. *)
Lemma connectRooms_grows (w : World) (m : Memory) :
  registry_valid w m ->
  exists m', connectRooms (w, m) = Ok (w, m')
    /\ grows_neighbours m m' (edges_added m w).
Proof.
  intros Hv. unfold connectRooms.
  destruct (connectRooms_entries_grows w (roomConnectionMap w) m Hv)
    as (m' & E & G).
  rewrite E. simpl. exists m'. split; [reflexivity | exact G].
Qed.

(** Where the edges of [edges_added] come from. *)
Lemma edges_added_elem (m : Memory) (w : World) (l : nat) (child : node) :
  child ∈ edges_added m w l <->
  exists (parentID : Z) (ids : list Z) (id2find : Z),
    (parentID, ids) ∈ roomConnectionMap w /\ id2find ∈ ids
    /\ resolve m w parentID = Some (Some l)
    /\ resolve m w id2find = Some child.
Proof.
  unfold edges_added. rewrite list_elem_of_In, in_flat_map. split.
  - intros ([parentID ids] & Hin & Hc). unfold edges_of_entry in Hc. simpl in Hc.
    destruct (resolve m w parentID) as [parent|] eqn:Hp; [|destruct Hc].
    destruct (decide (parent = Some l)) as [->|]; [|destruct Hc].
    apply list_elem_of_In, list_elem_of_omap in Hc as (id2find & Hid & Hres).
    exists parentID, ids, id2find. repeat split; try assumption.
    apply list_elem_of_In. exact Hin.
  - intros (parentID & ids & id2find & Hin & Hid & Hp & Hc).
    exists (parentID, ids). split; [apply list_elem_of_In; exact Hin|].
    unfold edges_of_entry. simpl. rewrite Hp.
    destruct (decide (Some l = Some l)); [|congruence].
    apply list_elem_of_In, list_elem_of_omap. exists id2find. split; assumption.
Qed.

(** An id that some room of the registry carries has a first room. *)
Lemma first_with_id_present (w : World) (m : Memory) (id : Z) :
  (exists r : option nat, r ∈ worldRooms w /\ has_id m id r = true) ->
  exists r : option nat, first_with_id w m id r.
Proof.
  intros (r & Hin & Hid).
  destruct (resolve m w id) as [r0|] eqn:Hres.
  - exists r0. apply resolve_first_with_id. exact Hres.
  - unfold resolve in Hres. apply list_elem_of_In in Hin.
    pose proof (find_none _ _ Hres r Hin) as Hno. congruence.
Qed.

Lemma first_with_id_deref (w : World) (m : Memory) (id : Z) (r : node) :
  first_with_id w m id r ->
  exists (l : nat) (ro : Room),
    r = Some l /\ roomStore m !! l = Some ro /\ roomID ro = id.
Proof.
  intros (i & _ & Hid & _). unfold has_id, deref_room, deref in Hid.
  destruct r as [l|]; [|discriminate Hid].
  destruct (roomStore m !! l) as [ro|] eqn:Hro; [|discriminate Hid].
  exists l, ro. split; [reflexivity|]. split; [exact Hro|].
  apply Z.eqb_eq. exact Hid.
Qed.

(** C2.  On a registry whose pointers are all valid, [connectRooms]
    returns without a fault.  For every pair (parent id, neighbour id) of
    the connection map whose two ids are carried by rooms of the
    registry, the parent room (the first room with the parent id) then
    has the neighbour room (the first room with the neighbour id) among
    its neighbours, whatever the other ids of the entry are.  Conversely
    each room only gains edges, and every edge it gains comes from such a
    pair with both ids found: a pair with an id that no room carries adds
    nothing.  Nothing but the neighbour lists changes. *)
Theorem connectRooms_adds_resolved_edges
  (w : World) (m : Memory) (Hvalid : registry_valid w m) :
  exists m' : Memory,
    connectRooms (w, m) = Ok (w, m')
    /\ (forall (parentID : Z) (ids : list Z) (id2find : Z),
          (parentID, ids) ∈ roomConnectionMap w -> id2find ∈ ids ->
          (exists r : node, r ∈ worldRooms w /\ has_id m parentID r = true) ->
          (exists r : node, r ∈ worldRooms w /\ has_id m id2find r = true) ->
          exists (parent child : node) (pr' : Room),
            first_with_id w m parentID parent
            /\ first_with_id w m id2find child
            /\ deref_room m' parent = Ok pr'
            /\ child ∈ neighbours pr')
    /\ (forall (l : nat) (ro : Room),
          roomStore m !! l = Some ro ->
          exists added : nodes,
            roomStore m' !! l
            = Some (Room_with_neighbours ro (neighbours ro ++ added))
            /\ forall child : node, child ∈ added ->
                 exists (parentID : Z) (ids : list Z) (id2find : Z),
                   (parentID, ids) ∈ roomConnectionMap w /\ id2find ∈ ids
                   /\ first_with_id w m parentID (Some l)
                   /\ first_with_id w m id2find child)
    /\ length (roomStore m') = length (roomStore m)
    /\ objectStore m' = objectStore m
    /\ entityStore m' = entityStore m.
Proof.
  destruct (connectRooms_grows w m Hvalid) as (m' & E & Ho & He & Hl & G).
  exists m'. split; [exact E|]. split; [|split; [|auto]].
  - intros parentID ids id2find Hin Hid Hpp Hcp.
    destruct (first_with_id_present _ _ _ Hpp) as (parent & Hp).
    destruct (first_with_id_present _ _ _ Hcp) as (child & Hc).
    destruct (first_with_id_deref _ _ _ _ Hp) as (l & ro & -> & Hro & _).
    exists (Some l), child,
      (Room_with_neighbours ro (neighbours ro ++ edges_added m w l)).
    split; [exact Hp|]. split; [exact Hc|]. split.
    + unfold deref_room, deref. rewrite (G l ro Hro). reflexivity.
    + simpl. apply elem_of_app. right. apply edges_added_elem.
      exists parentID, ids, id2find. repeat split; try assumption;
        apply resolve_first_with_id; assumption.
  - intros l ro Hro. exists (edges_added m w l). split; [exact (G l ro Hro)|].
    intros child Hc. apply edges_added_elem in Hc
      as (parentID & ids & id2find & Hin & Hid & Hp & Hcr).
    exists parentID, ids, id2find. repeat split; try assumption;
      apply resolve_first_with_id; assumption.
Qed.

Lemma connectRooms_adds_resolved_edges_witness :
  exists m' : Memory,
    connectRooms (two_rooms_world, two_rooms_memory) = Ok (two_rooms_world, m')
    /\ length (roomStore m') = 2%nat.
Proof.
  assert (Hvalid : registry_valid two_rooms_world two_rooms_memory).
  { repeat constructor. }
  destruct (connectRooms_adds_resolved_edges two_rooms_world two_rooms_memory Hvalid)
    as (m' & E & _ & _ & Hl & _).
  exists m'. split; [exact E | exact Hl].
Defined.

(** C10.  On a valid registry with no pointer listed twice, a search of
    [connectRooms] for an id ends at a room exactly when that room is the
    first one, in registry order, that carries the id.  So for every
    pair (parent id, neighbour id) of the connection map, the room that
    receives the edge is the first room with the parent id and the room
    that the edge points to is the first room with the neighbour id, and
    a room gains no other edge.  When a room comes after another room of
    the same id, [connectRooms] therefore leaves it as it was (it
    receives no edge) and no edge given to any room points to it. *)
Theorem connectRooms_first_match_wins
  (w : World) (m : Memory)
  (Hvalid : registry_valid w m) (Hnodup : NoDup (worldRooms w)) :
  exists m' : Memory,
    connectRooms (w, m) = Ok (w, m')
    /\ (forall (id : Z) (r : node),
          find_if_id m id (worldRooms w) = Ok (Some r) <-> first_with_id w m id r)
    /\ (forall (parentID : Z) (ids : list Z) (id2find : Z) (parent child : node),
          (parentID, ids) ∈ roomConnectionMap w -> id2find ∈ ids ->
          first_with_id w m parentID parent ->
          first_with_id w m id2find child ->
          exists pr' : Room,
            deref_room m' parent = Ok pr' /\ child ∈ neighbours pr')
    /\ (forall (l : nat) (ro : Room),
          roomStore m !! l = Some ro ->
          exists added : nodes,
            roomStore m' !! l
            = Some (Room_with_neighbours ro (neighbours ro ++ added))
            /\ forall child : node, child ∈ added ->
                 exists (parentID : Z) (ids : list Z) (id2find : Z),
                   (parentID, ids) ∈ roomConnectionMap w /\ id2find ∈ ids
                   /\ first_with_id w m parentID (Some l)
                   /\ first_with_id w m id2find child)
    /\ (forall (i j p q : nat) (rp rq : Room),
          (i < j)%nat ->
          worldRooms w !! i = Some (Some p) -> worldRooms w !! j = Some (Some q) ->
          roomStore m !! p = Some rp -> roomStore m !! q = Some rq ->
          roomID rp = roomID rq ->
          roomStore m' !! q = Some rq
          /\ forall (l : nat) (ro : Room),
               roomStore m !! l = Some ro ->
               exists added : nodes,
                 roomStore m' !! l
                 = Some (Room_with_neighbours ro (neighbours ro ++ added))
                 /\ Some q ∉ added).
Proof.
  destruct (connectRooms_grows w m Hvalid) as (m' & E & Ho & He & Hl & G).
  exists m'. split; [exact E|]. split; [|split; [|split]].
  - intros id r. rewrite (find_if_id_valid _ _ _ Hvalid).
    rewrite <- resolve_first_with_id. unfold resolve. split.
    + intros Hfind. injection Hfind as Hfind. exact Hfind.
    + intros ->. reflexivity.
  - intros parentID ids id2find parent child Hin Hid Hp Hc.
    destruct (first_with_id_deref _ _ _ _ Hp) as (l & ro & -> & Hro & _).
    exists (Room_with_neighbours ro (neighbours ro ++ edges_added m w l)).
    split.
    + unfold deref_room, deref. rewrite (G l ro Hro). reflexivity.
    + simpl. apply elem_of_app. right. apply edges_added_elem.
      exists parentID, ids, id2find. repeat split; try assumption;
        apply resolve_first_with_id; assumption.
  - intros l ro Hro. exists (edges_added m w l). split; [exact (G l ro Hro)|].
    intros child Hc. apply edges_added_elem in Hc
      as (parentID & ids & id2find & Hin & Hid & Hp & Hcr).
    exists parentID, ids, id2find. repeat split; try assumption;
      apply resolve_first_with_id; assumption.
  - intros i j p q rp rq Hij Hi Hj Hp Hq Hsame.
    assert (Hnever : forall id : Z, resolve m w id <> Some (Some q)).
    { intros id Hres. apply resolve_first_with_id in Hres
        as (j' & Hj' & Hhas & Hmin).
      assert (j' = j) by (eapply NoDup_lookup; eassumption). subst j'.
      specialize (Hmin i (Some p) Hij Hi).
      unfold has_id, deref_room, deref in Hhas, Hmin.
      rewrite Hq in Hhas. rewrite Hp in Hmin.
      unfold Room_getID in *. congruence. }
    split.
    + rewrite (G q rq Hq). f_equal.
      destruct (edges_added m w q) as [|c cs] eqn:Hedges.
      * apply Room_with_neighbours_same.
      * exfalso. assert (Hc : c ∈ edges_added m w q) by (rewrite Hedges; left).
        apply edges_added_elem in Hc as (parentID & _ & _ & _ & _ & Hres & _).
        exact (Hnever parentID Hres).
    + intros l ro Hro. exists (edges_added m w l). split; [exact (G l ro Hro)|].
      intros Hc.
      apply edges_added_elem in Hc as (_ & _ & id2find & _ & _ & _ & Hres).
      exact (Hnever id2find Hres).
Qed.

Lemma connectRooms_first_match_wins_witness :
  exists (m' : Memory) (vault : Room),
    connectRooms (twin_rooms_world, twin_rooms_memory) = Ok (twin_rooms_world, m')
    /\ find_if_id twin_rooms_memory 1 (worldRooms twin_rooms_world)
       = Ok (Some (Some 0%nat))
    /\ deref_room m' (Some 2%nat) = Ok vault
    /\ Some 0%nat ∈ neighbours vault
    /\ roomStore m' !! 1%nat = Some (Room_ctor "Second" 1 "the second room 1").
Proof.
  assert (Hvalid : registry_valid twin_rooms_world twin_rooms_memory).
  { repeat constructor. }
  assert (Hnodup : NoDup (worldRooms twin_rooms_world)).
  { simpl. repeat constructor; rewrite ?list_elem_of_In; simpl; intuition congruence. }
  assert (Hfirst : first_with_id twin_rooms_world twin_rooms_memory 1 (Some 0%nat)).
  { apply resolve_first_with_id. reflexivity. }
  assert (Hvault : first_with_id twin_rooms_world twin_rooms_memory 2 (Some 2%nat)).
  { apply resolve_first_with_id. reflexivity. }
  destruct (connectRooms_first_match_wins twin_rooms_world twin_rooms_memory
              Hvalid Hnodup) as (m' & E & Hsearch & Hedge & _ & Hlate).
  destruct (Hedge 2 [1] 1 (Some 2%nat) (Some 0%nat)) as (vault & Hd & Hin);
    [right; left | left | exact Hvault | exact Hfirst |].
  exists m', vault. split; [exact E|].
  split; [apply Hsearch; exact Hfirst|].
  split; [exact Hd|]. split; [exact Hin|].
  apply (Hlate 0%nat 1%nat 0%nat 1%nat (Room_ctor "First" 1 "the first room 1")
           (Room_ctor "Second" 1 "the second room 1"));
    first [reflexivity | lia].
Defined.

(** ** The loaders *)

Lemma run_spec_ret {A : Type} (a : A) (post : A -> Prop) :
  post a -> run_spec (Ok a) true post.
Proof. intros H. split; [reflexivity | exact H]. Qed.

Lemma run_spec_bind {A B : Type} (c : outcome A) (k : A -> outcome B)
  (ok1 ok2 : bool) (P : A -> Prop) (Q : B -> Prop) :
  run_spec c ok1 P -> (forall a, P a -> run_spec (k a) ok2 Q) ->
  run_spec (c ≫= k) (ok1 && ok2) Q.
Proof.
  intros Hc Hk. destruct c as [a|f]; simpl in *.
  - destruct Hc as [-> Ha]. exact (Hk a Ha).
  - rewrite Hc. reflexivity.
Qed.

Lemma run_spec_flag {A : Type} (c : outcome A) (ok ok' : bool) (P : A -> Prop) :
  run_spec c ok P -> ok = ok' -> run_spec c ok' P.
Proof. intros H <-. exact H. Qed.

Lemma run_spec_weaken {A : Type} (c : outcome A) (ok : bool) (P Q : A -> Prop) :
  run_spec c ok P -> (forall a, P a -> Q a) -> run_spec c ok Q.
Proof.
  intros H HPQ. destruct c as [a|f]; simpl in *; [|exact H].
  destruct H as [Hok Ha]. split; [exact Hok | exact (HPQ a Ha)].
Qed.

Lemma run_spec_returns {A : Type} (c : outcome A) (ok : bool) (P : A -> Prop) :
  run_spec c ok P -> returns c = ok.
Proof. destruct c; simpl; [intros [-> _]|intros ->]; reflexivity. Qed.

Lemma run_spec_Ok {A : Type} (c : outcome A) (ok : bool) (P : A -> Prop) (a : A) :
  run_spec c ok P -> c = Ok a -> P a.
Proof. intros H ->. exact (proj2 H). Qed.

(** The rule of a loop: an invariant indexed by the elements already
    processed. *)
Lemma run_spec_foldM {A S : Type} (body : A -> S -> outcome S)
  (okf : A -> bool) (I : list A -> S -> Prop) (l : list A) :
  (forall pre a s, I pre s -> run_spec (body a s) (okf a) (I (pre ++ [a]))) ->
  forall pre s, I pre s ->
  run_spec (foldM body l s) (forallb okf l) (I (pre ++ l)).
Proof.
  intros Hbody. induction l as [|a l IH]; intros pre s Hs; simpl.
  - rewrite app_nil_r. split; [reflexivity | exact Hs].
  - apply run_spec_bind with (P := I (pre ++ [a])); [exact (Hbody pre a s Hs)|].
    intros s' Hs'. specialize (IH (pre ++ [a]) s' Hs').
    rewrite <- app_assoc in IH. exact IH.
Qed.

(** Following the sibling pointers visits the elements of the chain. *)
Lemma first_element_head (name : string) (l : list XMLNode) :
  first_element name l = head (elements_named name l).
Proof.
  induction l as [|[v|t ch|v] l IH]; simpl; try exact IH; [reflexivity|].
  destruct (String.eqb t name); [reflexivity | exact IH].
Qed.

Lemma sibling_chain_next (name : string) (e : XMLElement) :
  sibling_chain name (Some e)
  = e :: sibling_chain name (NextSiblingElement e name).
Proof.
  unfold NextSiblingElement. simpl. f_equal.
  induction (Following e) as [|[v|t ch|v] l IH]; simpl; try exact IH;
    [reflexivity|].
  destruct (String.eqb t name); [reflexivity | exact IH].
Qed.

Lemma destroy_items_null (inv : list (option nat)) (m : Memory) :
  destroy_items (map (fun _ => None) inv) m = Ok m.
Proof. induction inv as [|i inv IH]; simpl; [reflexivity | exact IH]. Qed.

Lemma fold_left_snoc_map {A B : Type} (g : A -> B) (l : list A) (acc : list B) :
  fold_left (fun acc a => acc ++ [g a]) l acc = acc ++ map g l.
Proof.
  revert acc; induction l as [|a l IH]; intros acc; simpl.
  - rewrite app_nil_r. reflexivity.
  - rewrite IH, <- app_assoc. reflexivity.
Qed.

Lemma lookup_snoc_last {A : Type} (l : list A) (x : A) :
  (l ++ [x]) !! length l = Some x.
Proof. rewrite lookup_app_r by lia. rewrite Nat.sub_diag. reflexivity. Qed.

Lemma insert_snoc_last {A : Type} (l : list A) (x y : A) :
  <[length l := y]> (l ++ [x]) = l ++ [y].
Proof.
  rewrite insert_app_r_alt by lia. rewrite Nat.sub_diag. reflexivity.
Qed.

Lemma vector_back_snoc {A : Type} (l : list A) (x : A) :
  vector_back (l ++ [x]) = Ok x.
Proof. unfold vector_back. rewrite last_snoc. reflexivity. Qed.

Section LoaderProperties.

Variable QueryIntText : XMLElement -> Z -> XMLError * Z.

Lemma child_text_spec (e : XMLElement) (name : string) :
  run_spec (child_text e name) (has_text e name)
    (fun s => child_text_of e name = Some s).
Proof.
  unfold child_text, has_text, child_text_of.
  destruct (FirstChildElement e name) as [c|]; simpl; [|reflexivity].
  destruct (GetText c); simpl; [split|]; reflexivity.
Qed.

Lemma child_int_spec (e : XMLElement) :
  run_spec (child_int QueryIntText e "id") (has_child e "id")
    (fun z => z = record_id QueryIntText e).
Proof.
  unfold child_int, has_child, record_id.
  destruct (FirstChildElement e "id") as [c|]; simpl; [split|]; reflexivity.
Qed.

Lemma arrow_spec (e : XMLElement) (name : string) :
  run_spec (arrow (FirstChildElement e name)) (has_child e name)
    (fun c => FirstChildElement e name = Some c).
Proof.
  unfold has_child. destruct (FirstChildElement e name); simpl;
    [split|]; reflexivity.
Qed.

Lemma read_object_spec (o : XMLElement) :
  run_spec (read_object QueryIntText o) (object_record_ok o) (fun _ => True).
Proof.
  unfold read_object, object_record_ok.
  eapply run_spec_flag.
  - eapply run_spec_bind; [apply child_text_spec|]. intros objName _.
    eapply run_spec_bind; [apply child_text_spec|]. intros desc _.
    eapply run_spec_bind; [apply child_int_spec|]. intros id _.
    apply run_spec_ret. exact I.
  - rewrite andb_true_r, andb_assoc. reflexivity.
Qed.

Lemma makeInventory_body_spec (m0 : Memory) (actual : XMLElement)
  (s : list (option nat) * Memory) :
  same_rooms_and_entities m0 (snd s) ->
  run_spec (makeInventory_body QueryIntText actual s) (object_record_ok actual)
    (fun s' => same_rooms_and_entities m0 (snd s')).
Proof.
  destruct s as [retItems m]. simpl. intros Hm. unfold makeInventory_body.
  eapply run_spec_flag.
  - eapply run_spec_bind; [apply read_object_spec|]. intros o _.
    unfold new_object. apply run_spec_ret. simpl. exact Hm.
  - apply andb_true_r.
Qed.

Lemma makeInventory_spec (invEle : option XMLElement) (m : Memory) :
  run_spec (makeInventory QueryIntText invEle m) (inventory_ok invEle)
    (fun s' => same_rooms_and_entities m (snd s')).
Proof.
  unfold makeInventory, inventory_ok.
  destruct invEle as [inv|]; simpl; [|reflexivity].
  apply (run_spec_foldM (makeInventory_body QueryIntText) object_record_ok
           (fun _ s' => same_rooms_and_entities m (snd s'))
           _ (fun pre a s => makeInventory_body_spec m a s) [] ([], m)).
  split; reflexivity.
Qed.

Lemma trackConnections_spec (r : XMLElement) :
  run_spec (trackConnections QueryIntText (FirstChildElement r "connections"))
    (has_child r "connections")
    (fun ns => ns = record_connections QueryIntText r).
Proof.
  unfold trackConnections, has_child, record_connections.
  destruct (FirstChildElement r "connections") as [c|]; simpl; [|reflexivity].
  split; [reflexivity|]. apply (fold_left_snoc_map _ _ []).
Qed.

Lemma loadEntities_body_spec (pre : list XMLElement) (c0 : nat)
  (s0 : World * Memory) (actual : XMLElement) (s : nat * (World * Memory)) :
  entities_added pre c0 s0 s ->
  run_spec (loadEntities_body QueryIntText actual s) (entity_record_ok actual)
    (entities_added (pre ++ [actual]) c0 s0).
Proof.
  destruct s as [counter [w m]], s0 as [w0 m0]. unfold entities_added. simpl.
  intros (Hc & Hwr & Hcm & Hrs & es & Hes & Hpop & Hnames).
  unfold loadEntities_body, entity_record_ok.
  eapply run_spec_flag.
  - eapply run_spec_bind; [apply child_text_spec|]. intros name Hname.
    eapply run_spec_bind; [apply makeInventory_spec|].
    intros [inv m1] [He1 Hr1]. simpl in He1, Hr1.
    unfold new_entity, with_population. simpl.
    rewrite vector_back_snoc. simpl.
    unfold deref_entity, deref. simpl.
    rewrite lookup_snoc_last. simpl.
    rewrite Entity_addItems_spec. simpl.
    rewrite destroy_items_null. simpl.
    apply run_spec_ret. simpl.
    rewrite insert_snoc_last, He1, Hr1.
    split; [rewrite length_app; simpl; lia|].
    split; [exact Hwr|]. split; [exact Hcm|]. split; [exact Hrs|].
    exists (es ++ [{| Entity_name := name; Entity_inventory := inv |}]).
    rewrite Hes, Hpop, <- !app_assoc, !length_app, !map_app, seq_app, map_app.
    simpl. rewrite Hnames, Hname. repeat split.
  - rewrite andb_true_r. reflexivity.
Qed.

Lemma loadEntities_spec (firstEle : option XMLElement) (s0 : World * Memory) :
  run_spec (loadEntities QueryIntText firstEle s0)
    (forallb entity_record_ok (sibling_chain "entity" firstEle))
    (entities_added (sibling_chain "entity" firstEle) 0 s0).
Proof.
  unfold loadEntities.
  apply (run_spec_foldM (loadEntities_body QueryIntText) entity_record_ok
           (fun pre s' => entities_added pre 0 s0 s')
           _ (fun pre a s => loadEntities_body_spec pre 0 s0 a s) [] (0%nat, s0)).
  unfold entities_added. simpl. repeat split.
  exists []. simpl. rewrite !app_nil_r. repeat split.
Qed.

Lemma loadRooms_item_spec (w1 : World) (wr : list (option nat))
  (pre : list Room) (room0 : Room) (es0 : list Entity)
  (actualInv : XMLElement) (m : Memory) :
  worldRooms w1 = wr ++ [Some (length pre)] ->
  (entityStore m = es0
   /\ exists inv, roomStore m = pre ++ [Room_with_inventory room0 inv]) ->
  run_spec (loadRooms_item QueryIntText w1 actualInv m) (object_record_ok actualInv)
    (fun m' => entityStore m' = es0
               /\ exists inv, roomStore m' = pre ++ [Room_with_inventory room0 inv]).
Proof.
  intros Hw1 (Hes & inv & Hrs). unfold loadRooms_item.
  eapply run_spec_flag.
  - eapply run_spec_bind; [apply read_object_spec|]. intros o _.
    unfold new_object. rewrite Hw1, vector_back_snoc. simpl.
    unfold deref_room, deref. simpl. rewrite Hrs, lookup_snoc_last. simpl.
    apply run_spec_ret. simpl. split; [exact Hes|].
    rewrite insert_snoc_last.
    exists (inv ++ [Some (length (objectStore m))]). reflexivity.
  - apply andb_true_r.
Qed.

Lemma loadRooms_attach_spec (w3 : World) (wr : list (option nat))
  (pre : list Room) :
  worldRooms w3 = wr ++ [Some (length pre)] ->
  forall (n : nat) (i : Z) (m : Memory) (room : Room),
    0 <= i -> (Z.to_nat i + n <= length (population w3))%nat ->
    roomStore m = pre ++ [room] ->
    exists m' : Memory,
      loadRooms_attach w3 n i m = Ok m'
      /\ objectStore m' = objectStore m
      /\ entityStore m' = entityStore m
      /\ roomStore m'
         = pre ++ [Room_with_population room
                     (roomPopulation room
                      ++ take n (drop (Z.to_nat i) (population w3)))].
Proof.
  intros Hw3. induction n as [|n IH]; intros i m room Hi Hlen Hrs; simpl.
  - exists m. repeat split. rewrite Hrs, app_nil_r. destruct room; reflexivity.
  - unfold vector_at. destruct (Z.ltb_spec i 0) as [Hneg|_]; [lia|].
    destruct (population w3 !! Z.to_nat i) as [e|] eqn:He;
      [|apply lookup_ge_None in He; lia].
    simpl. rewrite Hw3, vector_back_snoc. simpl.
    unfold deref_room, deref. simpl. rewrite Hrs, lookup_snoc_last. simpl.
    destruct (IH (i + 1) (with_rooms m (<[length pre := Room_addEntity room e]>
                                          (pre ++ [room])))
                 (Room_addEntity room e)) as (m' & E & Ho & Hen & Hr').
    + lia.
    + replace (Z.to_nat (i + 1)) with (S (Z.to_nat i)) by lia. lia.
    + simpl. apply insert_snoc_last.
    + exists m'. split; [exact E|]. split; [exact Ho|]. split; [exact Hen|].
      rewrite Hr'. replace (Z.to_nat (i + 1)) with (S (Z.to_nat i)) by lia.
      rewrite (drop_S _ _ _ He). simpl.
      unfold Room_with_population. simpl. rewrite <- app_assoc. reflexivity.
Qed.

Lemma loadRooms_body_spec (actual : XMLElement) (s : World * Memory) :
  run_spec (loadRooms_body QueryIntText actual s) (room_record_ok actual)
    (room_built QueryIntText actual s).
Proof.
  destruct s as [w m]. unfold loadRooms_body, room_record_ok, inventory_ok.
  destruct (FirstChildElement actual "inventory") as [invEle|] eqn:Hinv.
  2:{ eapply run_spec_flag.
      - eapply run_spec_bind; [apply child_text_spec|]. intros roomName _.
        eapply run_spec_bind; [apply child_text_spec|]. intros roomDescription _.
        eapply run_spec_bind; [apply child_int_spec|]. intros roomID _.
        simpl. exact (eq_refl false).
      - rewrite !andb_false_r. reflexivity. }
  eapply run_spec_flag.
  - eapply run_spec_bind; [apply child_text_spec|]. intros roomName Hname.
    eapply run_spec_bind; [apply child_text_spec|]. intros roomDescription _.
    eapply run_spec_bind; [apply child_int_spec|]. intros roomID ->.
    unfold RoomFactory, new_room. simpl.
    eapply run_spec_bind.
    { apply (run_spec_foldM _ object_record_ok
               (fun _ m' =>
                  entityStore m' = entityStore m
                  /\ exists inv,
                       roomStore m'
                       = roomStore m
                         ++ [Room_with_inventory
                               (Room_ctor roomName (record_id QueryIntText actual)
                                  roomDescription) inv])
               _ (fun pre a m' =>
                    loadRooms_item_spec
                      (with_worldRooms w
                         (worldRooms w ++ [Some (length (roomStore m))]))
                      (worldRooms w) (roomStore m) _ _ a m' eq_refl) []).
      simpl. split; [reflexivity|]. exists []. reflexivity. }
    intros m2 (Hes2 & inv & Hrs2). simpl in Hes2, Hrs2.
    eapply run_spec_bind; [apply trackConnections_spec|]. intros connections ->.
    eapply run_spec_bind; [apply loadEntities_spec|].
    intros [entCount [w3 m3]] (Hc & Hwr & Hcm & Hrs3 & es & Hes3 & Hpop & Hnames).
    simpl in Hc, Hwr, Hcm, Hrs3, Hes3, Hpop, Hnames.
    assert (Hlen : length es = length (entity_records actual)).
    { apply (f_equal length) in Hnames. rewrite !length_map in Hnames.
      exact Hnames. }
    assert (Hplen : length (population w3)
                    = (length (population w) + length es)%nat).
    { rewrite Hpop, length_app, length_map, length_seq. reflexivity. }
    assert (Hc' : entCount = length es).
    { unfold entity_records in Hlen. rewrite Hlen. exact Hc. }
    destruct (loadRooms_attach_spec w3 (worldRooms w) (roomStore m) Hwr
                (Z.to_nat (Z.of_nat (length (population w3))
                           - (Z.of_nat (length (population w3))
                              - Z.of_nat entCount)))
                (Z.of_nat (length (population w3)) - Z.of_nat entCount)
                m3
                (Room_with_inventory
                   (Room_ctor roomName (record_id QueryIntText actual) roomDescription)
                   inv))
      as (m4 & E4 & _ & He4 & Hr4); [lia | lia | rewrite Hrs3; exact Hrs2 | ].
    rewrite E4. simpl. apply run_spec_ret.
    unfold room_built. simpl.
    eexists. exists es. split; [exact Hwr|]. split; [exact Hr4|].
    replace (Z.to_nat (Z.of_nat (length (population w3))
                       - (Z.of_nat (length (population w3)) - Z.of_nat entCount)))
      with (length es) by lia.
    replace (Z.to_nat (Z.of_nat (length (population w3)) - Z.of_nat entCount))
      with (length (population w)) by lia.
    rewrite Hpop, drop_app_length. simpl.
    rewrite take_ge by (rewrite length_map, length_seq; lia).
    rewrite He4, Hes3, Hes2, Hcm.
    repeat split; try reflexivity; try assumption. symmetry. exact Hname.
  - rewrite andb_true_r, !andb_assoc. reflexivity.
Qed.

Lemma rooms_built_snoc (pre : list XMLElement) (a : XMLElement)
  (s s1 s2 : World * Memory) :
  rooms_built QueryIntText pre s s1 -> room_built QueryIntText a s1 s2 ->
  rooms_built QueryIntText (pre ++ [a]) s s2.
Proof.
  intros H Ha. induction H as [s|r rs s s1 s1' Hr Hrs IH]; simpl.
  - eapply rooms_built_cons; [exact Ha | apply rooms_built_nil].
  - eapply rooms_built_cons; [exact Hr | exact (IH Ha)].
Qed.

(** [loadRooms] returns exactly when every room record of the chain is
    complete, and then it has built the rooms one after the other. *)
Lemma loadRooms_spec (firstRoom : option XMLElement) (s : World * Memory) :
  run_spec (loadRooms QueryIntText firstRoom s)
    (forallb room_record_ok (sibling_chain "room" firstRoom))
    (rooms_built QueryIntText (sibling_chain "room" firstRoom) s).
Proof.
  unfold loadRooms.
  apply (run_spec_foldM (loadRooms_body QueryIntText) room_record_ok
           (fun pre s' => rooms_built QueryIntText pre s s') _
           (fun pre a s1 H =>
              run_spec_weaken _ _ _ _ (loadRooms_body_spec a s1)
                (fun s2 => rooms_built_snoc pre a s s1 s2 H))
           [] s).
  apply rooms_built_nil.
Qed.

End LoaderProperties.

(** ** The connection map under [insert] *)

Lemma map_find_place_same (k : Z) (v : list Z) (cm : list (Z * list Z)) :
  map_find k cm = None -> map_find k (map_place k v cm) = Some v.
Proof.
  induction cm as [|[k' v'] cm IH]; simpl.
  - rewrite Z.eqb_refl. reflexivity.
  - destruct (k =? k') eqn:Hk; [discriminate|]. intros Hnone.
    destruct (k <? k'); simpl.
    + rewrite Z.eqb_refl. reflexivity.
    + rewrite Hk. exact (IH Hnone).
Qed.

Lemma map_find_place_other (k k' : Z) (v : list Z) (cm : list (Z * list Z)) :
  k <> k' -> map_find k (map_place k' v cm) = map_find k cm.
Proof.
  intros Hne. apply Z.eqb_neq in Hne.
  induction cm as [|[k0 v0] cm IH]; simpl.
  - rewrite Hne. reflexivity.
  - destruct (k' <? k0); simpl.
    + rewrite Hne. reflexivity.
    + rewrite IH. reflexivity.
Qed.

Lemma map_find_insert_same (k : Z) (v : list Z) (cm : list (Z * list Z)) :
  map_find k (map_insert k v cm) = Some (default v (map_find k cm)).
Proof.
  unfold map_insert. destruct (map_find k cm) as [v'|] eqn:Hk; simpl.
  - exact Hk.
  - apply map_find_place_same. exact Hk.
Qed.

Lemma map_find_insert_other (k k' : Z) (v : list Z) (cm : list (Z * list Z)) :
  k <> k' -> map_find k (map_insert k' v cm) = map_find k cm.
Proof.
  intros Hne. unfold map_insert. destruct (map_find k' cm); [reflexivity|].
  apply map_find_place_other. exact Hne.
Qed.

Lemma map_find_insert_kept (k k' : Z) (v v' : list Z) (cm : list (Z * list Z)) :
  map_find k cm = Some v -> map_find k (map_insert k' v' cm) = Some v.
Proof.
  intros Hk. destruct (Z.eq_dec k k') as [<-|Hne].
  - rewrite map_find_insert_same, Hk. reflexivity.
  - rewrite map_find_insert_other by exact Hne. exact Hk.
Qed.

(** ** Runs of room records *)

Section RoomsBuilt.

Variable QueryIntText : XMLElement -> Z -> XMLError * Z.

(** A run of records can be cut at any of its records. *)
Lemma rooms_built_split (recs : list XMLElement) (s s' : World * Memory) :
  rooms_built QueryIntText recs s s' ->
  forall (k : nat) (r : XMLElement),
    recs !! k = Some r ->
    exists s1 s2 : World * Memory,
      rooms_built QueryIntText (take k recs) s s1
      /\ room_built QueryIntText r s1 s2
      /\ rooms_built QueryIntText (drop (S k) recs) s2 s'.
Proof.
  induction 1 as [s|r0 rs s s1 s2 Hr0 Hrs IH]; intros k r Hk.
  - rewrite lookup_nil in Hk. discriminate Hk.
  - destruct k as [|k]; simpl in Hk.
    + injection Hk as ->. exists s, s1. simpl.
      split; [apply rooms_built_nil|]. split; assumption.
    + destruct (IH k r Hk) as (t1 & t2 & H1 & H2 & H3).
      exists t1, t2. simpl. split; [|split; assumption].
      eapply rooms_built_cons; eassumption.
Qed.

(** The registries and the stores only grow, at their end. *)
Lemma rooms_built_grows (recs : list XMLElement) (s s' : World * Memory) :
  rooms_built QueryIntText recs s s' ->
  (exists wr, worldRooms (fst s') = worldRooms (fst s) ++ wr
              /\ length wr = length recs)
  /\ (exists rs, roomStore (snd s') = roomStore (snd s) ++ rs)
  /\ (exists pp, population (fst s') = population (fst s) ++ pp)
  /\ (exists es, entityStore (snd s') = entityStore (snd s) ++ es).
Proof.
  induction 1 as [s|r rs s s1 s2 Hr Hrs IH].
  - repeat split; exists []; rewrite ?app_nil_r; auto.
  - destruct Hr as (room & es & Hw & Hrm & Hp & _ & He & _).
    destruct IH as ((wr & Hw' & Hlen) & (rs' & Hrm') & (pp & Hp') & (es' & He')).
    repeat split.
    + exists ([Some (length (roomStore (snd s)))] ++ wr).
      rewrite Hw', Hw, <- app_assoc. split; [reflexivity|].
      simpl. rewrite Hlen. reflexivity.
    + exists ([room] ++ rs'). rewrite Hrm', Hrm, <- app_assoc. reflexivity.
    + exists (roomPopulation room ++ pp). rewrite Hp', Hp, <- app_assoc.
      reflexivity.
    + exists (es ++ es'). rewrite He', He, <- app_assoc. reflexivity.
Qed.

Lemma rooms_built_key_kept (recs : list XMLElement) (s s' : World * Memory)
  (k : Z) (v : list Z) :
  rooms_built QueryIntText recs s s' ->
  map_find k (roomConnectionMap (fst s)) = Some v ->
  map_find k (roomConnectionMap (fst s')) = Some v.
Proof.
  induction 1 as [s|r rs s s1 s2 Hr Hrs IH]; intros Hk; [exact Hk|].
  apply IH. destruct Hr as (room & es & Hr). decompose [and] Hr.
  match goal with H : roomConnectionMap (fst s1) = _ |- _ => rewrite H end.
  apply map_find_insert_kept. exact Hk.
Qed.

Lemma rooms_built_key_absent (recs : list XMLElement) (s s' : World * Memory)
  (k : Z) :
  rooms_built QueryIntText recs s s' ->
  map_find k (roomConnectionMap (fst s)) = None ->
  (forall (j : nat) (r' : XMLElement),
     recs !! j = Some r' -> record_id QueryIntText r' <> k) ->
  map_find k (roomConnectionMap (fst s')) = None.
Proof.
  induction 1 as [s|r rs s s1 s2 Hr Hrs IH]; intros Hk Hids; [exact Hk|].
  apply IH.
  - destruct Hr as (room & es & Hr). decompose [and] Hr.
    match goal with H : roomConnectionMap (fst s1) = _ |- _ => rewrite H end.
    rewrite map_find_insert_other; [exact Hk|].
    intros Heq. exact (Hids 0%nat r eq_refl (eq_sym Heq)).
  - intros j r' Hj. exact (Hids (S j) r' Hj).
Qed.

(** The room of the [k]-th record of a run: where it is, and what the run
    has made of it and of the connection map. *)
Lemma rooms_built_room (recs : list XMLElement) (s s' : World * Memory)
  (k : nat) (r : XMLElement) :
  rooms_built QueryIntText recs s s' ->
  recs !! k = Some r ->
  exists (s1 : World * Memory) (room : Room) (es : list Entity),
    rooms_built QueryIntText (take k recs) s s1
    /\ worldRooms (fst s') !! (length (worldRooms (fst s)) + k)%nat
       = Some (Some (length (roomStore (snd s1))))
    /\ roomStore (snd s') !! length (roomStore (snd s1)) = Some room
    /\ Room_getID room = record_id QueryIntText r
    /\ roomPopulation room
       = map Some (seq (length (entityStore (snd s1))) (length es))
    /\ (forall j : nat, (j < length es)%nat ->
          entityStore (snd s') !! (length (entityStore (snd s1)) + j)%nat
          = es !! j)
    /\ (forall e : option nat, e ∈ roomPopulation room -> e ∈ population (fst s'))
    /\ map (fun e => Some (Entity_name e)) es
       = map (fun a => child_text_of a "name") (entity_records r)
    /\ map_find (record_id QueryIntText r) (roomConnectionMap (fst s'))
       = Some (default (record_connections QueryIntText r)
                 (map_find (record_id QueryIntText r) (roomConnectionMap (fst s1))))
    /\ lock room = locked.
Proof.
  intros Hb Hk.
  destruct (rooms_built_split _ _ _ Hb k r Hk) as (s1 & s2 & H1 & Hr & H2).
  destruct (rooms_built_grows _ _ _ H1) as ((wr1 & Hw1 & Hl1) & _).
  destruct (rooms_built_grows _ _ _ H2)
    as ((wr2 & Hw2 & _) & (rs2 & Hrs2) & (pp2 & Hp2) & (es2 & He2)).
  pose proof (rooms_built_key_kept _ _ _ (record_id QueryIntText r)
                (default (record_connections QueryIntText r)
                   (map_find (record_id QueryIntText r) (roomConnectionMap (fst s1))))
                H2) as Hkept.
  destruct Hr as (room & es & Hw & Hrm & Hp & Hpop & He & Hnames & Hid & _
                  & Hlock & _ & Hcm).
  exists s1, room, es. split; [exact H1|].
  assert (Hk' : length wr1 = k).
  { rewrite Hl1, length_take. apply lookup_lt_Some in Hk. lia. }
  split.
  { rewrite Hw2, Hw, Hw1, <- !app_assoc.
    rewrite lookup_app_r by lia.
    replace (length (worldRooms (fst s)) + k - length (worldRooms (fst s)))%nat
      with (length wr1) by lia.
    rewrite lookup_app_r by lia. rewrite Nat.sub_diag. reflexivity. }
  split.
  { rewrite Hrs2, Hrm, <- app_assoc. rewrite lookup_app_r by lia.
    rewrite Nat.sub_diag. reflexivity. }
  split; [exact Hid|]. split; [exact Hpop|].
  split.
  { intros j Hj. rewrite He2, He, <- app_assoc.
    rewrite lookup_app_r by lia.
    replace (length (entityStore (snd s1)) + j - length (entityStore (snd s1)))%nat
      with j by lia.
    apply lookup_app_l. exact Hj. }
  split.
  { intros e Hin. rewrite Hp2, Hp. apply elem_of_app. left.
    apply elem_of_app. right. exact Hin. }
  split; [exact Hnames|].
  split; [|exact Hlock].
  apply Hkept. rewrite Hcm. apply map_find_insert_same.
Qed.

Lemma deref_room_returns (m : Memory) (r : option nat) :
  returns (deref_room m r) = true <->
  exists l : nat, r = Some l /\ (l < length (roomStore m))%nat.
Proof.
  unfold deref_room, deref. destruct r as [l|]; simpl.
  - destruct (roomStore m !! l) as [ro|] eqn:Hl; simpl.
    + split; [|reflexivity]. intros _. exists l. split; [reflexivity|].
      eapply lookup_lt_Some. exact Hl.
    + split; [discriminate|]. intros (l' & [= <-] & Hlt).
      apply lookup_ge_None in Hl. lia.
  - split; [discriminate|]. intros (l & Hl & _). discriminate Hl.
Qed.

(** The registry that the loader fills stays valid and free of
    repetitions: each room record adds the address of a fresh cell. *)
Lemma rooms_built_registry (recs : list XMLElement) (s s' : World * Memory) :
  rooms_built QueryIntText recs s s' ->
  registry_valid (fst s) (snd s) /\ NoDup (worldRooms (fst s)) ->
  registry_valid (fst s') (snd s') /\ NoDup (worldRooms (fst s')).
Proof.
  induction 1 as [s|r rs s s1 s2 Hr Hrs IH]; intros [Hv Hnd]; [split; assumption|].
  apply IH. destruct Hr as (room & es & Hw & Hrm & _).
  unfold registry_valid in *. rewrite Hw. split.
  - apply Forall_app. split.
    + eapply Forall_impl; [exact Hv|]. simpl. intros p Hp.
      apply deref_room_returns in Hp as (l & -> & Hl).
      apply deref_room_returns. exists l. split; [reflexivity|].
      rewrite Hrm, length_app. simpl. lia.
    + apply Forall_singleton. apply deref_room_returns.
      exists (length (roomStore (snd s))). split; [reflexivity|].
      rewrite Hrm, length_app. simpl. lia.
  - apply NoDup_app. split; [exact Hnd|]. split; [|apply NoDup_singleton].
    intros p Hp Hp'. apply list_elem_of_singleton in Hp'. subst p.
    rewrite Forall_forall in Hv. specialize (Hv _ Hp).
    apply deref_room_returns in Hv as (l & [= <-] & Hl). lia.
Qed.

(** [initWorld] on a fresh world returns exactly when the story has a
    [world] element whose room records are all complete: the connect
    phase never faults. *)
Lemma initWorld_returns (story : list XMLNode) :
  returns (initWorld QueryIntText story (World_ctor, empty_memory))
  = match first_element "world" story with
    | Some worldElement =>
        forallb room_record_ok
          (sibling_chain "room" (FirstChildElement worldElement "room"))
    | None => false
    end.
Proof.
  unfold initWorld. destruct (first_element "world" story) as [we|]; simpl;
    [|reflexivity].
  pose proof (loadRooms_spec QueryIntText (FirstChildElement we "room")
                (World_ctor, empty_memory)) as Hspec.
  destruct (loadRooms QueryIntText (FirstChildElement we "room")
              (World_ctor, empty_memory)) as [[w m]|f];
    [|symmetry; exact Hspec].
  destruct Hspec as [-> Hb].
  destruct (rooms_built_registry _ _ _ Hb) as [Hv _].
  { split; [constructor | apply NoDup_nil_2]. }
  destruct (connectRooms_grows w m Hv) as (m' & E & _).
  change (returns (connectRooms (w, m)) = true).
  rewrite E. reflexivity.
Qed.

End RoomsBuilt.

(** The first scenario of the story format: after the build and the
    connect phase the Entrance has the Vault as its only neighbour, the
    id 99 that no room carries has left no trace, and the Vault has no
    neighbour. *)
Example initWorld_two_rooms :
  exists (w : World) (m : Memory),
    initWorld decimal_QueryIntText two_rooms_story (World_ctor, empty_memory) = Ok (w, m)
    /\ worldRooms w = [Some 0%nat; Some 1%nat]
    /\ Room_getNeighbours <$> deref_room m (Some 0%nat) = Ok [Some 1%nat]
    /\ Room_getNeighbours <$> deref_room m (Some 1%nat) = Ok [].
Proof. do 2 eexists. split; [vm_compute; reflexivity|]. repeat split. Qed.

(** ** World::loadRooms *)

(** C4, as amended.  When [loadRooms] returns, the room built for the
    [k]-th room record stands at the [k]-th new place of the registry and
    its id is the id extracted from the record; that id is a key of the
    connection map; and when the id was not a key before the load and no
    earlier record of the load carries it, the value under the key is the
    list of neighbour ids of the record, in the order of the record. *)
Theorem loadRooms_ids_and_connections
  (QueryIntText : XMLElement -> Z -> XMLError * Z) (firstRoom : option XMLElement)
  (s s' : World * Memory) (k : nat) (r : XMLElement)
  (Hload : loadRooms QueryIntText firstRoom s = Ok s')
  (Hr : sibling_chain "room" firstRoom !! k = Some r) :
  exists (l : nat) (room : Room),
    worldRooms (fst s') !! (length (worldRooms (fst s)) + k)%nat = Some (Some l)
    /\ roomStore (snd s') !! l = Some room
    /\ Room_getID room = record_id QueryIntText r
    /\ is_Some (map_find (record_id QueryIntText r) (roomConnectionMap (fst s')))
    /\ (map_find (record_id QueryIntText r) (roomConnectionMap (fst s)) = None ->
        (forall (j : nat) (r' : XMLElement),
           (j < k)%nat -> sibling_chain "room" firstRoom !! j = Some r' ->
           record_id QueryIntText r' <> record_id QueryIntText r) ->
        map_find (record_id QueryIntText r) (roomConnectionMap (fst s'))
        = Some (record_connections QueryIntText r)).
Proof.
  pose proof (run_spec_Ok _ _ _ _ (loadRooms_spec QueryIntText firstRoom s) Hload) as Hb.
  destruct (rooms_built_room QueryIntText _ _ _ k r Hb Hr)
    as (s1 & room & es & H1 & Hw & Hrm & Hid & _ & _ & _ & _ & Hcm & _).
  exists (length (roomStore (snd s1))), room.
  split; [exact Hw|]. split; [exact Hrm|]. split; [exact Hid|].
  split; [rewrite Hcm; eexists; reflexivity|].
  intros Hnone Hfirst. rewrite Hcm.
  rewrite (rooms_built_key_absent QueryIntText _ _ _ _ H1 Hnone); [reflexivity|].
  intros j r' Hj. apply lookup_take_Some in Hj as [Hj Hlt].
  exact (Hfirst j r' Hlt Hj).
Qed.

Lemma loadRooms_ids_and_connections_witness :
  exists s' : World * Memory,
    loadRooms decimal_QueryIntText (first_room two_rooms_story) (World_ctor, empty_memory)
    = Ok s'
    /\ map_find 1 (roomConnectionMap (fst s')) = Some [2; 99].
Proof.
  destruct (loadRooms decimal_QueryIntText (first_room two_rooms_story)
              (World_ctor, empty_memory)) as [s'|f] eqn:Hload;
    [|vm_compute in Hload; discriminate Hload].
  exists s'. split; [reflexivity|].
  destruct (sibling_chain "room" (first_room two_rooms_story) !! 0%nat)
    as [r|] eqn:Hr; [|vm_compute in Hr; discriminate Hr].
  destruct (loadRooms_ids_and_connections decimal_QueryIntText
              (first_room two_rooms_story) (World_ctor, empty_memory) s'
              0%nat r Hload Hr) as (l & room & _ & _ & _ & _ & Hcm).
  injection Hr as <-.
  apply Hcm; [reflexivity|]. intros j r' Hj. lia.
Defined.

(** C4, refuted as stated: the second record of [twin_ids_story] is
    built, with id 1, but the value under the key 1 is the list of the
    first record, which came first, not its own list. *)
Lemma second_room_of_an_id_loses_its_connections :
  ~ (forall (firstRoom : option XMLElement) (s' : World * Memory)
       (k : nat) (r : XMLElement),
       loadRooms decimal_QueryIntText firstRoom (World_ctor, empty_memory) = Ok s' ->
       sibling_chain "room" firstRoom !! k = Some r ->
       map_find (record_id decimal_QueryIntText r) (roomConnectionMap (fst s'))
       = Some (record_connections decimal_QueryIntText r)).
Proof.
  intros H.
  destruct (loadRooms decimal_QueryIntText (first_room twin_ids_story)
              (World_ctor, empty_memory)) as [s'|f] eqn:Hload;
    [|vm_compute in Hload; discriminate Hload].
  destruct (sibling_chain "room" (first_room twin_ids_story) !! 1%nat)
    as [r|] eqn:Hr; [|vm_compute in Hr; discriminate Hr].
  specialize (H _ s' 1%nat r Hload Hr).
  injection Hr as <-. vm_compute in Hload. injection Hload as <-.
  vm_compute in H. discriminate H.
Qed.

(** C6.  When [loadRooms] returns, the room built for the [k]-th room
    record has one population entry per entity record nested in that
    record, in order; each entry is a pointer that is also in the
    population of the world, the two being one address and so one shared
    entity, and the entity there bears the name of the entity record. *)
Theorem loadRooms_entities_shared
  (QueryIntText : XMLElement -> Z -> XMLError * Z) (firstRoom : option XMLElement)
  (s s' : World * Memory) (k : nat) (r : XMLElement)
  (Hload : loadRooms QueryIntText firstRoom s = Ok s')
  (Hr : sibling_chain "room" firstRoom !! k = Some r) :
  exists (l : nat) (room : Room),
    worldRooms (fst s') !! (length (worldRooms (fst s)) + k)%nat = Some (Some l)
    /\ roomStore (snd s') !! l = Some room
    /\ length (roomPopulation room) = length (entity_records r)
    /\ forall (j : nat) (erec : XMLElement),
         entity_records r !! j = Some erec ->
         exists (e : nat) (entity : Entity),
           roomPopulation room !! j = Some (Some e)
           /\ Some e ∈ population (fst s')
           /\ entityStore (snd s') !! e = Some entity
           /\ Some (Entity_getName entity) = child_text_of erec "name".
Proof.
  pose proof (run_spec_Ok _ _ _ _ (loadRooms_spec QueryIntText firstRoom s) Hload) as Hb.
  destruct (rooms_built_room QueryIntText _ _ _ k r Hb Hr)
    as (s1 & room & es & _ & Hw & Hrm & _ & Hpop & Hes & Hin & Hnames & _).
  assert (Hlen : length es = length (entity_records r)).
  { apply (f_equal length) in Hnames. rewrite !length_map in Hnames.
    exact Hnames. }
  exists (length (roomStore (snd s1))), room.
  split; [exact Hw|]. split; [exact Hrm|].
  split; [rewrite Hpop, length_map, length_seq; exact Hlen|].
  intros j erec Hj.
  assert (Hjlt : (j < length es)%nat).
  { rewrite Hlen. eapply lookup_lt_Some. exact Hj. }
  destruct (lookup_lt_is_Some_2 es j Hjlt) as [entity Hent].
  assert (Hptr : roomPopulation room !! j
                 = Some (Some (length (entityStore (snd s1)) + j)%nat)).
  { rewrite Hpop, list_lookup_fmap, lookup_seq_lt by exact Hjlt. reflexivity. }
  exists (length (entityStore (snd s1)) + j)%nat, entity.
  split; [exact Hptr|].
  split; [apply Hin; eapply list_elem_of_lookup_2; exact Hptr|].
  split; [rewrite (Hes j Hjlt); exact Hent|].
  apply (f_equal (fun l => l !! j)) in Hnames.
  rewrite !list_lookup_fmap, Hent, Hj in Hnames. simpl in Hnames.
  injection Hnames as Hnames. exact Hnames.
Qed.

Lemma loadRooms_entities_shared_witness :
  exists (s' : World * Memory) (e : nat) (entity : Entity) (room : Room),
    loadRooms decimal_QueryIntText (first_room two_rooms_story) (World_ctor, empty_memory)
    = Ok s'
    /\ roomStore (snd s') !! 0%nat = Some room
    /\ roomPopulation room !! 0%nat = Some (Some e)
    /\ Some e ∈ population (fst s')
    /\ entityStore (snd s') !! e = Some entity
    /\ Entity_getName entity = "bob".
Proof.
  destruct (loadRooms decimal_QueryIntText (first_room two_rooms_story)
              (World_ctor, empty_memory)) as [s'|f] eqn:Hload;
    [|vm_compute in Hload; discriminate Hload].
  destruct (sibling_chain "room" (first_room two_rooms_story) !! 0%nat)
    as [r|] eqn:Hr; [|vm_compute in Hr; discriminate Hr].
  destruct (loadRooms_entities_shared decimal_QueryIntText
              (first_room two_rooms_story) (World_ctor, empty_memory) s'
              0%nat r Hload Hr) as (l & room & Hw & Hrm & _ & Hents).
  injection Hr as <-.
  destruct (Hents 0%nat _ eq_refl) as (e & entity & Hp & Hin & He & Hname).
  exists s', e, entity, room.
  assert (Hl : l = 0%nat).
  { vm_compute in Hload. injection Hload as <-. vm_compute in Hw. congruence. }
  subst l. repeat split; try assumption.
  simpl in Hname. injection Hname as Hname. exact Hname.
Defined.

(** ** The loaders in place *)

(** A loop in place returns what the loop on states returns. *)
Lemma iterates_result {A B St : Type} (body : A -> B -> inplace B)
  (old : A -> St -> outcome St) (unpack : St -> B * (World * Memory)) :
  (forall (a : A) (st : St),
     result (body a (fst (unpack st)) (snd (unpack st))) = unpack <$> old a st) ->
  forall (l : list A) (st : St),
    result (iterates body l (fst (unpack st)) (snd (unpack st)))
    = unpack <$> foldM old l st.
Proof.
  intros Hbody. induction l as [|a l IH]; intros st; simpl.
  - destruct (unpack st); reflexivity.
  - specialize (Hbody a st). unfold mbind, inplace_bind.
    destruct (body a (fst (unpack st)) (snd (unpack st))) as [s1 [b1|f]];
      destruct (old a st) as [st1|f']; simpl in Hbody; try discriminate Hbody.
    + injection Hbody as Hb. simpl. rewrite <- (IH st1), <- Hb. reflexivity.
    + exact Hbody.
Qed.

(** A loop in place over two runs of values is the loop over the first,
    then, unless it has stopped, the loop over the second. *)
Lemma iterates_app {A B : Type} (body : A -> B -> inplace B) (l1 l2 : list A)
  (b : B) (s : World * Memory) :
  iterates body (l1 ++ l2) b s
  = match iterates body l1 b s with
    | (s1, Ok b1) => iterates body l2 b1 s1
    | (s1, Fault f) => (s1, Fault f)
    end.
Proof.
  revert b s; induction l1 as [|a l1 IH]; intros b s; simpl; [reflexivity|].
  unfold mbind, inplace_bind. destruct (body a b s) as [s1 [b1|f]];
    [apply IH | reflexivity].
Qed.

(** What holds of the state before a loop in place and is kept by its
    body, whether the body returns or not, holds of the state the loop
    reaches. *)
Lemma iterates_keeps {A B : Type} (I : World * Memory -> Prop)
  (body : A -> B -> inplace B) :
  (forall (a : A) (b : B) (s : World * Memory), I s -> I (fst (body a b s))) ->
  forall (l : list A) (b : B) (s : World * Memory),
    I s -> I (fst (iterates body l b s)).
Proof.
  intros Hbody. induction l as [|a l IH]; intros b s Hs; simpl; [exact Hs|].
  unfold mbind, inplace_bind. specialize (Hbody a b s Hs).
  destruct (body a b s) as [s1 [b1|f]]; simpl in Hbody;
    [apply IH; exact Hbody | exact Hbody].
Qed.

Lemma destroy_items_inplace_result (inv : list (option nat))
  (w : World) (m : Memory) :
  result (iterates (fun i (_ : unit) => updates (fun m => delete_object m i))
            inv tt (w, m))
  = (fun m' : Memory => (tt, (w, m'))) <$> destroy_items inv m.
Proof.
  unfold destroy_items.
  refine (iterates_result _ (fun i m => delete_object m i)
            (fun m' : Memory => (tt, (w, m'))) _ inv m).
  intros i m0. unfold updates. simpl.
  destruct (delete_object m0 i) as [m1|f]; reflexivity.
Qed.

Lemma destroy_items_inplace_rooms (inv : list (option nat))
  (wr : nodes) (rs : list Room) (s : World * Memory) :
  rooms_are wr rs s ->
  rooms_are wr rs
    (fst (iterates (fun i (_ : unit) => updates (fun m => delete_object m i))
            inv tt s)).
Proof.
  apply iterates_keeps. clear s. intros i _ [w m] Hs. unfold updates. simpl.
  destruct (delete_object m i) as [m1|f] eqn:Hdel; [|exact Hs]. simpl.
  destruct Hs as [Hw Hr]. split; [exact Hw|]. simpl in *. rewrite <- Hr.
  unfold delete_object in Hdel. destruct i as [l|].
  - destruct (objectStore m !! l) as [[d|]|]; try discriminate Hdel.
    injection Hdel as <-. reflexivity.
  - injection Hdel as <-. reflexivity.
Qed.

Section LoaderInPlaceProperties.

Variable QueryIntText : XMLElement -> Z -> XMLError * Z.

Lemma makeInventory_inplace_result (invEle : option XMLElement)
  (w : World) (m : Memory) :
  result (makeInventory_inplace QueryIntText invEle (w, m))
  = (fun s : items * Memory => (fst s, (w, snd s)))
      <$> makeInventory QueryIntText invEle m.
Proof.
  unfold makeInventory_inplace, makeInventory.
  destruct invEle as [inv|]; [|reflexivity].
  refine (iterates_result _ (makeInventory_body QueryIntText)
            (fun s : items * Memory => (fst s, (w, snd s))) _
            (sibling_chain "object" (FirstChildElement inv "object")) ([], m)).
  intros a [retItems m0]. simpl. unfold mbind, inplace_bind, reads.
  destruct (read_object QueryIntText a) as [o|f]; reflexivity.
Qed.

Lemma loadEntities_body_inplace_result (actual : XMLElement) (counter : nat)
  (s : World * Memory) :
  result (loadEntities_body_inplace QueryIntText actual counter s)
  = loadEntities_body QueryIntText actual (counter, s).
Proof.
  destruct s as [w m]. unfold loadEntities_body_inplace, loadEntities_body.
  unfold mbind at 1. unfold inplace_bind at 1. unfold reads at 1.
  destruct (child_text actual "name") as [name|f]; [|reflexivity]. simpl.
  unfold mbind at 1. unfold inplace_bind at 1.
  pose proof (makeInventory_inplace_result
                (FirstChildElement actual "inventory") w m) as Hinv.
  destruct (makeInventory_inplace QueryIntText
              (FirstChildElement actual "inventory") (w, m)) as [s1 [inv|f]];
    destruct (makeInventory QueryIntText (FirstChildElement actual "inventory") m)
      as [[inv' m1]|f']; simpl in Hinv; try discriminate Hinv;
    [|injection Hinv as ->; reflexivity].
  injection Hinv as -> ->. simpl.
  unfold mbind, inplace_bind, allocates_entity, writes, reads_state,
    mret, inplace_ret. simpl.
  destruct (vector_back (population w ++ [Some (length (entityStore m1))]))
    as [back|f]; [|reflexivity]. simpl.
  destruct (deref_entity
              (with_entities m1 (entityStore m1 ++ [Entity_ctor name])) back)
    as [e|f]; [|reflexivity]. simpl.
  destruct (Entity_addItems e inv') as [e' inv'']. simpl.
  pose proof (destroy_items_inplace_result inv''
                (with_population w
                   (population w ++ [Some (length (entityStore m1))]))
                (store_entity
                   (with_entities m1 (entityStore m1 ++ [Entity_ctor name]))
                   back e')) as Hd.
  destruct (iterates _ inv'' tt _) as [s4 [[]|f]];
    destruct (destroy_items inv'' _) as [m4|f']; simpl in Hd;
    try discriminate Hd; [|injection Hd as ->; reflexivity].
  injection Hd as ->. reflexivity.
Qed.

Lemma fmap_same {A : Type} (c : outcome A) : (fun a : A => a) <$> c = c.
Proof. destruct c; reflexivity. Qed.

Lemma loadEntities_inplace_result (firstEle : option XMLElement)
  (s : World * Memory) :
  result (loadEntities_inplace QueryIntText firstEle s)
  = loadEntities QueryIntText firstEle s.
Proof.
  unfold loadEntities_inplace, loadEntities.
  rewrite <- (fmap_same (foldM _ _ _)).
  refine (iterates_result (loadEntities_body_inplace QueryIntText)
            (loadEntities_body QueryIntText)
            (fun st : nat * (World * Memory) => st) _
            (sibling_chain "entity" firstEle) (0%nat, s)).
  intros a [counter s0]. simpl. rewrite fmap_same.
  apply loadEntities_body_inplace_result.
Qed.

Lemma loadRooms_item_inplace_result (actualInv : XMLElement)
  (w : World) (m : Memory) :
  result (loadRooms_item_inplace QueryIntText actualInv (w, m))
  = (fun m' : Memory => (tt, (w, m')))
      <$> loadRooms_item QueryIntText w actualInv m.
Proof.
  unfold loadRooms_item_inplace, loadRooms_item.
  unfold mbind at 1. unfold inplace_bind at 1. unfold reads at 1.
  destruct (read_object QueryIntText actualInv) as [o|f]; [|reflexivity]. simpl.
  unfold mbind, inplace_bind, allocates_object, writes, reads_state, updates.
  simpl.
  destruct (vector_back (worldRooms w)) as [back|f]; [|reflexivity]. simpl.
  destruct (deref_room
              (with_objects m (objectStore m ++ [Some (DynObject o)])) back)
    as [r|f]; [|reflexivity]. simpl.
  reflexivity.
Qed.

Lemma loadRooms_attach_inplace_result (w : World) (n : nat) :
  forall (i : Z) (m : Memory),
    result (loadRooms_attach_inplace n i (w, m))
    = (fun m' : Memory => (tt, (w, m'))) <$> loadRooms_attach w n i m.
Proof.
  induction n as [|n IH]; intros i m; [reflexivity|]. simpl.
  unfold mbind at 1 2 3 4. unfold inplace_bind, reads_state, writes. simpl.
  destruct (vector_at (population w) i) as [e|f]; [|reflexivity]. simpl.
  destruct (vector_back (worldRooms w)) as [back|f]; [|reflexivity]. simpl.
  destruct (deref_room m back) as [r|f]; [|reflexivity]. simpl.
  apply IH.
Qed.

Lemma loadRooms_body_inplace_result (actual : XMLElement) (s : World * Memory) :
  result (loadRooms_body_inplace QueryIntText actual s)
  = (fun s' : World * Memory => (tt, s')) <$> loadRooms_body QueryIntText actual s.
Proof.
  unfold loadRooms_body_inplace, loadRooms_body.
  unfold mbind at 1. unfold inplace_bind at 1. unfold reads at 1.
  destruct (child_text actual "name") as [roomName|f]; [|reflexivity]. simpl.
  unfold mbind at 1. unfold inplace_bind at 1. unfold reads at 1.
  destruct (child_text actual "description") as [roomDescription|f];
    [|reflexivity]. simpl.
  unfold mbind at 1. unfold inplace_bind at 1. unfold reads at 1.
  destruct (child_int QueryIntText actual "id") as [roomID|f]; [|reflexivity].
  simpl.
  unfold mbind at 1. unfold inplace_bind at 1. unfold writes at 1.
  destruct (RoomFactory roomName roomID roomDescription s) as [w1 m1] eqn:Hrf.
  unfold mbind at 1. unfold inplace_bind at 1. unfold reads at 1.
  destruct (FirstChildElement actual "inventory") as [invEle|]; [|reflexivity].
  simpl.
  unfold mbind at 1. unfold inplace_bind at 1.
  pose proof (iterates_result
                (fun actualInv (_ : unit) => loadRooms_item_inplace QueryIntText actualInv)
                (loadRooms_item QueryIntText w1)
                (fun m' : Memory => (tt, (w1, m')))
                (fun a st => loadRooms_item_inplace_result a w1 st)
                (sibling_chain "object" (FirstChildElement invEle "object")) m1)
    as Hitems. simpl in Hitems.
  destruct (iterates _ (sibling_chain "object" (FirstChildElement invEle "object"))
              tt (w1, m1)) as [s2 [[]|f]];
    destruct (foldM (loadRooms_item QueryIntText w1)
                (sibling_chain "object" (FirstChildElement invEle "object")) m1)
      as [m2|f']; simpl in Hitems; try discriminate Hitems;
    [|injection Hitems as ->; reflexivity].
  injection Hitems as ->. simpl.
  unfold mbind at 1. unfold inplace_bind at 1. unfold reads at 1.
  destruct (trackConnections QueryIntText (FirstChildElement actual "connections"))
    as [connections|f]; [|reflexivity]. simpl.
  unfold mbind at 1. unfold inplace_bind at 1. unfold writes at 1. simpl.
  unfold mbind at 1. unfold inplace_bind at 1.
  pose proof (loadEntities_inplace_result (FirstChildElement actual "entity")
                (with_roomConnectionMap w1
                   (map_insert roomID connections (roomConnectionMap w1)), m2))
    as Hents.
  destruct (loadEntities_inplace QueryIntText (FirstChildElement actual "entity") _)
    as [s3 [entCount|f]];
    destruct (loadEntities QueryIntText (FirstChildElement actual "entity") _)
      as [[entCount' [w3 m3]]|f']; simpl in Hents; try discriminate Hents;
    [|injection Hents as ->; reflexivity].
  injection Hents as -> ->. simpl.
  unfold mbind at 1. unfold inplace_bind at 1. unfold reads_state at 1. simpl.
  pose proof (loadRooms_attach_inplace_result w3
                (Z.to_nat
                   (Z.of_nat (length (population w3))
                    - (Z.of_nat (length (population w3)) - Z.of_nat entCount')))
                (Z.of_nat (length (population w3)) - Z.of_nat entCount') m3)
    as Hatt.
  destruct (loadRooms_attach_inplace _ _ (w3, m3)) as [s4 [[]|f]];
    destruct (loadRooms_attach w3 _ _ m3) as [m4|f']; simpl in Hatt;
    try discriminate Hatt; [|injection Hatt as ->; reflexivity].
  injection Hatt as ->. reflexivity.
Qed.

Lemma loadRooms_inplace_result (firstRoom : option XMLElement)
  (s : World * Memory) :
  result (loadRooms_inplace QueryIntText firstRoom s)
  = (fun s' : World * Memory => (tt, s')) <$> loadRooms QueryIntText firstRoom s.
Proof.
  unfold loadRooms_inplace, loadRooms.
  exact (iterates_result
           (fun actual (_ : unit) => loadRooms_body_inplace QueryIntText actual)
           (loadRooms_body QueryIntText)
           (fun s' : World * Memory => (tt, s'))
           (fun a st => loadRooms_body_inplace_result a st)
           (sibling_chain "room" firstRoom) s).
Qed.

Lemma store_entity_rooms (m : Memory) (p : option nat) (e : Entity) :
  roomStore (store_entity m p e) = roomStore m.
Proof. destruct p; reflexivity. Qed.

Lemma makeInventory_inplace_rooms (invEle : option XMLElement)
  (wr : nodes) (rs : list Room) (s : World * Memory) :
  rooms_are wr rs s ->
  rooms_are wr rs (fst (makeInventory_inplace QueryIntText invEle s)).
Proof.
  intros Hs. unfold makeInventory_inplace.
  unfold mbind at 1. unfold inplace_bind at 1. unfold reads at 1.
  destruct invEle as [inv|]; [|exact Hs]. simpl.
  apply iterates_keeps; [|exact Hs]. clear s Hs.
  intros a b [w m] Hs. unfold mbind, inplace_bind, reads, allocates_object.
  destruct (read_object QueryIntText a) as [o|f]; exact Hs.
Qed.

Lemma loadEntities_inplace_rooms (firstEle : option XMLElement)
  (wr : nodes) (rs : list Room) (s : World * Memory) :
  rooms_are wr rs s ->
  rooms_are wr rs (fst (loadEntities_inplace QueryIntText firstEle s)).
Proof.
  unfold loadEntities_inplace. apply iterates_keeps. clear s.
  intros actual counter s Hs. unfold loadEntities_body_inplace.
  unfold mbind at 1. unfold inplace_bind at 1. unfold reads at 1.
  destruct (child_text actual "name") as [name|f]; [|exact Hs]. simpl.
  unfold mbind at 1. unfold inplace_bind at 1.
  pose proof (makeInventory_inplace_rooms
                (FirstChildElement actual "inventory") wr rs s Hs) as H1.
  destruct (makeInventory_inplace QueryIntText
              (FirstChildElement actual "inventory") s) as [[w1 m1] [inv|f]];
    simpl in H1; [|exact H1].
  unfold mbind, inplace_bind, allocates_entity, writes, reads_state,
    mret, inplace_ret. simpl.
  destruct (vector_back (population w1 ++ [Some (length (entityStore m1))]))
    as [back|f]; [|exact H1]. simpl.
  destruct (deref_entity
              (with_entities m1 (entityStore m1 ++ [Entity_ctor name])) back)
    as [e|f]; [|exact H1]. simpl.
  pose proof (destroy_items_inplace_rooms (Entity_addItems e inv).2 wr rs
                (with_population w1
                   (population w1 ++ [Some (length (entityStore m1))]),
                 store_entity
                   (with_entities m1 (entityStore m1 ++ [Entity_ctor name]))
                   back (Entity_addItems e inv).1)) as H2.
  destruct (iterates _ (Entity_addItems e inv).2 tt _) as [s4 [[]|f]];
    simpl in H2 |- *; apply H2; destruct H1 as [Hw Hr];
    (split; [exact Hw|]); simpl in *; rewrite store_entity_rooms; exact Hr.
Qed.

Lemma loadRooms_item_inplace_progress (actualInv : XMLElement)
  (s0 s : World * Memory) :
  room_in_progress s0 s ->
  room_in_progress s0 (fst (loadRooms_item_inplace QueryIntText actualInv s)).
Proof.
  intros Hs. unfold loadRooms_item_inplace.
  unfold mbind at 1. unfold inplace_bind at 1. unfold reads at 1.
  destruct (read_object QueryIntText actualInv) as [o|f]; [|exact Hs]. simpl.
  destruct s as [w m]. destruct Hs as (r & Hw & Hr). simpl in Hw, Hr.
  unfold mbind, inplace_bind, allocates_object, writes, reads_state, updates.
  simpl. rewrite Hw, vector_back_snoc. simpl.
  unfold deref_room, deref. simpl. rewrite Hr, lookup_snoc_last. simpl.
  exists (Room_with_inventory r (Room_inventory r ++ [Some (length (objectStore m))])).
  split; [exact Hw|]. simpl. apply insert_snoc_last.
Qed.

Lemma loadRooms_attach_inplace_progress (s0 : World * Memory) (n : nat) :
  forall (i : Z) (s : World * Memory),
    room_in_progress s0 s ->
    room_in_progress s0 (fst (loadRooms_attach_inplace n i s)).
Proof.
  induction n as [|n IH]; intros i s Hs; [exact Hs|]. simpl.
  unfold mbind at 1 2 3 4. unfold inplace_bind, reads_state, writes. simpl.
  destruct (vector_at (population (fst s)) i) as [e|f]; [|exact Hs]. simpl.
  destruct (vector_back (worldRooms (fst s))) as [back|f] eqn:Hback;
    [|exact Hs]. simpl.
  destruct (deref_room (snd s) back) as [r|f] eqn:Hd; [|exact Hs]. simpl.
  apply IH. destruct Hs as (r0 & Hw & Hr).
  rewrite Hw, vector_back_snoc in Hback. injection Hback as <-.
  exists (Room_addEntity r e). split; [exact Hw|]. simpl. rewrite Hr.
  apply insert_snoc_last.
Qed.

(** The state that the body of the loop of [loadRooms] reaches, whether
    it returns or not, is the state it was entered in, when it stops
    before [RoomFactory], and else a state with one more room, the one of
    the record: what holds of all these holds of the state reached. *)
Lemma loadRooms_body_inplace_reaches (actual : XMLElement) (s : World * Memory)
  (P : World * Memory -> Prop) :
  P s ->
  (forall s' : World * Memory, room_in_progress s s' -> P s') ->
  P (fst (loadRooms_body_inplace QueryIntText actual s)).
Proof.
  intros Hs Hprogress. unfold loadRooms_body_inplace.
  unfold mbind at 1. unfold inplace_bind at 1. unfold reads at 1.
  destruct (child_text actual "name") as [roomName|f]; [|exact Hs].
  simpl.
  unfold mbind at 1. unfold inplace_bind at 1. unfold reads at 1.
  destruct (child_text actual "description") as [roomDescription|f];
    [|exact Hs]. simpl.
  unfold mbind at 1. unfold inplace_bind at 1. unfold reads at 1.
  destruct (child_int QueryIntText actual "id") as [roomID|f];
    [|exact Hs]. simpl.
  apply Hprogress. clear P Hs Hprogress.
  unfold mbind at 1. unfold inplace_bind at 1. unfold writes at 1.
  assert (H1 : room_in_progress s (RoomFactory roomName roomID roomDescription s)).
  { destruct s as [w m]. exists (Room_ctor roomName roomID roomDescription).
    split; reflexivity. }
  revert H1. generalize (RoomFactory roomName roomID roomDescription s).
  intros s1 H1.
  unfold mbind at 1. unfold inplace_bind at 1. unfold reads at 1.
  destruct (FirstChildElement actual "inventory") as [invEle|]; [|exact H1].
  simpl.
  unfold mbind at 1. unfold inplace_bind at 1.
  pose proof (iterates_keeps (room_in_progress s)
                (fun actualInv (_ : unit) =>
                   loadRooms_item_inplace QueryIntText actualInv)
                (fun a _ s' => loadRooms_item_inplace_progress a s s')
                (sibling_chain "object" (FirstChildElement invEle "object"))
                tt s1 H1) as H2.
  destruct (iterates _ (sibling_chain "object" (FirstChildElement invEle "object"))
              tt s1) as [s2 [[]|f]]; simpl in H2; [|exact H2].
  unfold mbind at 1. unfold inplace_bind at 1. unfold reads at 1.
  destruct (trackConnections QueryIntText (FirstChildElement actual "connections"))
    as [connections|f]; [|exact H2]. simpl.
  unfold mbind at 1. unfold inplace_bind at 1. unfold writes at 1.
  unfold mbind at 1. unfold inplace_bind at 1.
  assert (H3 : room_in_progress s
                 (with_roomConnectionMap (fst s2)
                    (map_insert roomID connections (roomConnectionMap (fst s2))),
                  snd s2)).
  { destruct H2 as (r & Hw & Hr). exists r. split; [exact Hw | exact Hr]. }
  revert H3. generalize (with_roomConnectionMap (fst s2)
                           (map_insert roomID connections (roomConnectionMap (fst s2))),
                         snd s2).
  intros s3 H3.
  assert (H4 : room_in_progress s
                 (fst (loadEntities_inplace QueryIntText
                         (FirstChildElement actual "entity") s3))).
  { destruct H3 as (r & H3). exists r.
    apply loadEntities_inplace_rooms. exact H3. }
  destruct (loadEntities_inplace QueryIntText (FirstChildElement actual "entity") s3)
    as [s4 [entCount|f]]; simpl in H4; [|exact H4].
  unfold mbind at 1. unfold inplace_bind at 1. unfold reads_state at 1.
  apply loadRooms_attach_inplace_progress. exact H4.
Qed.

End LoaderInPlaceProperties.

(** The loop of [loadRooms] over any run of room records. *)
Lemma loadRooms_loop_spec (QueryIntText : XMLElement -> Z -> XMLError * Z)
  (recs : list XMLElement) (s : World * Memory) :
  run_spec (foldM (loadRooms_body QueryIntText) recs s)
    (forallb room_record_ok recs) (rooms_built QueryIntText recs s).
Proof.
  apply (run_spec_foldM (loadRooms_body QueryIntText) room_record_ok
           (fun pre s' => rooms_built QueryIntText pre s s') _
           (fun pre a s1 H =>
              run_spec_weaken _ _ _ _ (loadRooms_body_spec QueryIntText a s1)
                (fun s2 => rooms_built_snoc QueryIntText pre a s s1 s2 H))
           [] s).
  apply rooms_built_nil.
Qed.

(** Where a load in place stops: at the first incomplete room record,
    with the rooms of the records before it built, and with at most the
    room of that record begun. *)
Lemma loadRooms_inplace_stops (QueryIntText : XMLElement -> Z -> XMLError * Z)
  (firstRoom : option XMLElement) (s : World * Memory)
  (pre post : list XMLElement) (bad : XMLElement) :
  sibling_chain "room" firstRoom = pre ++ bad :: post ->
  forallb room_record_ok pre = true ->
  room_record_ok bad = false ->
  exists (s1 sf : World * Memory) (f : fault),
    rooms_built QueryIntText pre s s1
    /\ loadRooms_inplace QueryIntText firstRoom s = (sf, Fault f)
    /\ (sf = s1 \/ room_in_progress s1 sf).
Proof.
  intros Hchain Hpre Hbad. unfold loadRooms_inplace.
  rewrite Hchain, iterates_app.
  pose proof (loadRooms_loop_spec QueryIntText pre s) as Hspec.
  rewrite Hpre in Hspec.
  pose proof (iterates_result
                (fun actual (_ : unit) => loadRooms_body_inplace QueryIntText actual)
                (loadRooms_body QueryIntText)
                (fun s' : World * Memory => (tt, s'))
                (fun a st => loadRooms_body_inplace_result QueryIntText a st)
                pre s) as Hres. simpl in Hres.
  destruct (foldM (loadRooms_body QueryIntText) pre s) as [s1|f0];
    [|discriminate Hspec].
  destruct Hspec as [_ Hbuilt].
  destruct (iterates _ pre tt s) as [s1' [[]|f0]]; simpl in Hres;
    [|discriminate Hres].
  injection Hres as ->. simpl. unfold mbind, inplace_bind.
  pose proof (loadRooms_body_inplace_result QueryIntText bad s1) as Hres.
  pose proof (run_spec_returns _ _ _ (loadRooms_body_spec QueryIntText bad s1))
    as Hretb.
  rewrite Hbad in Hretb.
  pose proof (loadRooms_body_inplace_reaches QueryIntText bad s1
                (fun x => x = s1 \/ room_in_progress s1 x)
                (or_introl eq_refl) (fun s' H => or_intror H)) as Hreach.
  destruct (loadRooms_body_inplace QueryIntText bad s1) as [sf [[]|f]];
    destruct (loadRooms_body QueryIntText bad s1) as [s2|f'];
    simpl in Hres, Hretb, Hreach; try discriminate.
  exists s1, sf, f. split; [exact Hbuilt|]. split; [reflexivity | exact Hreach].
Qed.




(** ** The lock of a room *)

(** The rooms a load adds are locked, and the rooms that were there are
    left as they were. *)
Lemma rooms_built_locked (QueryIntText : XMLElement -> Z -> XMLError * Z)
  (recs : list XMLElement) (s s' : World * Memory) :
  rooms_built QueryIntText recs s s' ->
  exists rs : list Room,
    roomStore (snd s') = roomStore (snd s) ++ rs
    /\ Forall (fun room => lock room = locked) rs.
Proof.
  induction 1 as [s|r rs s s1 s2 Hr Hrs IH].
  - exists []. rewrite app_nil_r. split; [reflexivity | constructor].
  - destruct Hr as (room & es & _ & Hrm & _ & _ & _ & _ & _ & _ & Hlock & _).
    destruct IH as (rs' & Hrm' & Hall).
    exists (room :: rs'). rewrite Hrm', Hrm, <- app_assoc.
    split; [reflexivity|]. constructor; assumption.
Qed.

(** C8, as amended.  A room is created [locked], by the constructor and
    so by [loadRooms], which leaves the rooms already there untouched;
    [connectRooms] changes no lock.  Of the mutators of [Room] only
    [setLock] writes the lock, and it writes the state it is given,
    whichever it is; so a sequence of mutators that holds no
    [setLock(locked)] leaves an unlocked room unlocked. *)
Theorem lock_changes_only_by_setLock
  (n d : string) (id : Z) (r : Room) (ops : list RoomOp)
  (Hops : forallb (fun op => negb (is_relock op)) ops = true)
  (Hr : lock r = unlocked) :
  lock (Room_ctor n id d) = locked
  /\ (forall (r0 : Room) (op : RoomOp),
        lock (Room_apply r0 op) <> lock r0 ->
        exists stat, op = OpSetLock stat /\ lock (Room_apply r0 op) = stat)
  /\ (forall (r0 : Room) (stat : LockStatus), lock (Room_setLock r0 stat) = stat)
  /\ lock (Room_run r ops) = unlocked
  /\ (forall (QueryIntText : XMLElement -> Z -> XMLError * Z)
        (firstRoom : option XMLElement) (s s' : World * Memory),
        loadRooms QueryIntText firstRoom s = Ok s' ->
        (forall (l : nat) (ro : Room),
           roomStore (snd s) !! l = Some ro -> roomStore (snd s') !! l = Some ro)
        /\ (forall (l : nat) (room : Room),
              roomStore (snd s') !! l = Some room ->
              (length (roomStore (snd s)) <= l)%nat -> lock room = locked))
  /\ (forall (w : World) (m m' : Memory),
        registry_valid w m -> connectRooms (w, m) = Ok (w, m') ->
        forall (l : nat) (ro ro' : Room),
          roomStore m !! l = Some ro -> roomStore m' !! l = Some ro' ->
          lock ro' = lock ro).
Proof.
  split; [reflexivity|]. split; [|split; [reflexivity|split; [|split]]].
  - intros r0 op Hne. rewrite Room_apply_lock in *.
    destruct op; try congruence. eauto.
  - unfold Room_run. revert r Hr Hops.
    induction ops as [|op ops IH]; intros r Hr Hops; simpl in *; [exact Hr|].
    apply andb_prop in Hops as [Hop Hrest].
    apply IH; [|exact Hrest].
    rewrite Room_apply_lock. destruct op; try exact Hr.
    destruct stat; [discriminate Hop | reflexivity].
  - intros QueryIntText firstRoom s s' Hload.
    pose proof (run_spec_Ok _ _ _ _ (loadRooms_spec QueryIntText firstRoom s) Hload)
      as Hb.
    destruct (rooms_built_locked _ _ _ _ Hb) as (rs & Hrm & Hall).
    rewrite Hrm. split.
    + intros l ro Hl. apply lookup_app_l_Some. exact Hl.
    + intros l room Hl Hge. rewrite lookup_app_r in Hl by exact Hge.
      rewrite Forall_forall in Hall. apply Hall.
      eapply list_elem_of_lookup_2. exact Hl.
  - intros w m m' Hv Hc l ro ro' Hl Hl'.
    destruct (connectRooms_grows w m Hv) as (m1 & E & _ & _ & _ & G).
    rewrite E in Hc. injection Hc as <-.
    rewrite (G l ro Hl) in Hl'. injection Hl' as <-. reflexivity.
Qed.

Lemma lock_changes_only_by_setLock_witness :
  lock (Room_run (Room_setLock (Room_ctor "Vault" 2 "d") unlocked)
          [OpAddItem (Some 0%nat); OpSetLock unlocked; OpAddNeighbour (Some 1%nat)])
  = unlocked.
Proof.
  apply (lock_changes_only_by_setLock "Vault" "d" 2
           (Room_setLock (Room_ctor "Vault" 2 "d") unlocked)
           [OpAddItem (Some 0%nat); OpSetLock unlocked; OpAddNeighbour (Some 1%nat)]);
    reflexivity.
Defined.

(** C8, refuted as stated: it is not the case that every sequence of
    operations keeps an unlocked room unlocked, since [setLock] is public
    and takes either state: [setLock(locked)] re-locks the room. *)
Lemma setLock_relocks :
  ~ (forall (r : Room) (ops : list RoomOp),
       lock r = unlocked -> lock (Room_run r ops) = unlocked).
Proof.
  intros H.
  specialize (H (Room_setLock (Room_ctor "Vault" 2 "d") unlocked)
                [OpSetLock locked] eq_refl).
  discriminate H.
Qed.

(** * Further properties *)

(** ** Room::unlock, on every input *)

(** X1.  [unlock] returns on no input at all.  Whatever the handle, the
    room pointer and the memory, the call ends in a fault; and when the
    handle is null or holds a live object, the fault is the dereference
    of a null pointer.  In particular no call ever changes a lock. *)
Theorem Room_unlock_faults_on_every_input (k : item) (r : node) (m : Memory) :
  (exists f : fault, Room_unlock k r m = Fault f)
  /\ (k = None \/ returns (deref_object m k) = true ->
      Room_unlock k r m = Fault NullDereference).
Proof.
  unfold Room_unlock. split.
  - destruct (dynamic_cast_Key m k) as [[k2r|]|f]; simpl; eauto.
  - intros [->|Hlive]; [reflexivity|].
    unfold dynamic_cast_Key. destruct k as [l|]; [|reflexivity].
    destruct (deref_object m (Some l)) as [d|f]; [|discriminate Hlive].
    simpl. destruct (is_Key d); reflexivity.
Qed.

Lemma Room_unlock_faults_on_every_input_witness :
  Room_unlock (Some 1%nat) (Some 0%nat) lock_scenario = Fault NullDereference.
Proof.
  apply (Room_unlock_faults_on_every_input (Some 1%nat) (Some 0%nat) lock_scenario).
  right. reflexivity.
Defined.

(** ** Room::addNeighbours, Room::addEntities *)

(** X2.  [addNeighbours] and [addEntities] append the whole vector they
    are given, in its order and with its repetitions, and touch nothing
    else of the room; adding two vectors one after the other is adding
    their concatenation. *)
Theorem Room_add_vectors_append (r : Room) (ns1 ns2 es1 es2 : list (option nat)) :
  Room_addNeighbours r ns1
  = Room_with_neighbours r (neighbours r ++ ns1)
  /\ Room_addNeighbours (Room_addNeighbours r ns1) ns2
     = Room_addNeighbours r (ns1 ++ ns2)
  /\ Room_addEntities r es1
     = Room_with_population r (roomPopulation r ++ es1)
  /\ Room_addEntities (Room_addEntities r es1) es2
     = Room_addEntities r (es1 ++ es2)
  /\ length (filter (fun n => n ∈ ns1) (neighbours (Room_addNeighbours r ns1)))
     = (length (filter (fun n => n ∈ ns1) (neighbours r)) + length ns1)%nat.
Proof.
  split; [apply Room_addNeighbours_spec|].
  split; [unfold Room_addNeighbours; rewrite fold_left_app; reflexivity|].
  split; [apply Room_addEntities_spec|].
  split; [unfold Room_addEntities; rewrite fold_left_app; reflexivity|].
  rewrite Room_addNeighbours_spec. simpl. rewrite filter_app, length_app.
  f_equal. f_equal. clear r.
  assert (H : forall l : list (option nat),
            (forall n, n ∈ l -> n ∈ ns1) -> filter (fun n => n ∈ ns1) l = l).
  { induction l as [|x l IH]; intros Hsub; [reflexivity|].
    rewrite filter_cons_True by (apply Hsub; left).
    f_equal. apply IH. intros n Hn. apply Hsub. right. exact Hn. }
  apply H. auto.
Qed.

(** ** World::connectRooms, at its edges *)

Lemma edges_added_grows (m m' : Memory) (f : nat -> list (option nat))
  (w : World) (l : nat) :
  grows_neighbours m m' f -> edges_added m' w l = edges_added m w l.
Proof.
  intros G. unfold edges_added. apply flat_map_ext. intros it.
  unfold edges_of_entry. rewrite (grows_neighbours_resolve _ _ _ _ _ G).
  destruct (resolve m w (fst it)) as [parent|]; [|reflexivity].
  destruct (decide (parent = Some l)); [|reflexivity].
  apply omap_pointwise. intros a. apply (grows_neighbours_resolve _ _ _ _ _ G).
Qed.



(** X4.  An entry of the connection map whose parent id no room carries
    is skipped as a whole, however many of its neighbour ids exist: when
    no parent id of the map is carried by a room of the registry (an
    empty map, an empty registry), [connectRooms] returns the memory
    exactly as it was. *)
Theorem connectRooms_unknown_parents_change_nothing
  (w : World) (m : Memory)
  (Hvalid : registry_valid w m)
  (Hnone : forall (parentID : Z) (ids : list Z) (r : node),
             (parentID, ids) ∈ roomConnectionMap w ->
             r ∈ worldRooms w -> has_id m parentID r = false) :
  connectRooms (w, m) = Ok (w, m).
Proof.
  unfold connectRooms.
  assert (Hentry : forall it : Z * list Z,
            (forall r, r ∈ worldRooms w -> has_id m (fst it) r = false) ->
            connectRooms_entry w it m = Ok m).
  { intros it Hit. unfold connectRooms_entry.
    rewrite (find_if_id_valid _ _ _ Hvalid).
    destruct (List.find (has_id m (fst it)) (worldRooms w)) as [r|] eqn:Hfind;
      [|reflexivity].
    apply find_some in Hfind as [Hin Hid].
    rewrite Hit in Hid; [discriminate Hid|]. apply list_elem_of_In. exact Hin. }
  assert (H : foldM (connectRooms_entry w) (roomConnectionMap w) m = Ok m).
  { revert Hnone. generalize (roomConnectionMap w) as cm.
    induction cm as [|[parentID ids] cm IH]; intros Hnone; [reflexivity|].
    cbn [foldM]. rewrite Hentry.
    - apply IH. intros p i r Hp Hr. apply (Hnone p i r); [right|]; assumption.
    - intros r Hr. apply (Hnone parentID ids r); [left | exact Hr]. }
  rewrite H. reflexivity.
Qed.

Lemma connectRooms_unknown_parents_change_nothing_witness :
  connectRooms (with_roomConnectionMap two_rooms_world [(7, [1; 2])],
                two_rooms_memory)
  = Ok (with_roomConnectionMap two_rooms_world [(7, [1; 2])], two_rooms_memory).
Proof.
  apply connectRooms_unknown_parents_change_nothing.
  - repeat constructor.
  - intros parentID ids r Hin Hr. simpl in Hin, Hr.
    apply list_elem_of_singleton in Hin. injection Hin as -> ->.
    apply list_elem_of_In in Hr. simpl in Hr.
    destruct Hr as [<-|[<-|[]]]; reflexivity.
Defined.

Lemma find_if_id_reaches_null (m : Memory) (id : Z) (pre post : list (option nat)) :
  Forall (fun r => returns (deref_room m r) = true /\ has_id m id r = false) pre ->
  find_if_id m id (pre ++ None :: post) = Fault NullDereference.
Proof.
  induction 1 as [|r pre [Hr Hid] _ IH]; simpl; [reflexivity|].
  unfold has_id in Hid. destruct (deref_room m r) as [ro|f]; [|discriminate Hr].
  simpl. rewrite Hid. exact IH.
Qed.

(** X5.  The searches of [connectRooms] dereference every registry
    pointer they pass: when the registry holds a null pointer (as after
    [reset]) and no room before it carries the parent id of the first
    entry of the map, [connectRooms] faults on that null pointer instead
    of skipping it. *)
Theorem connectRooms_faults_on_reset_pointer
  (w : World) (m : Memory) (parentID : Z) (ids : list Z)
  (rest : list (Z * list Z)) (pre post : list (option nat))
  (Hmap : roomConnectionMap w = (parentID, ids) :: rest)
  (Hreg : worldRooms w = pre ++ None :: post)
  (Hpre : Forall (fun r => returns (deref_room m r) = true
                           /\ has_id m parentID r = false) pre) :
  connectRooms (w, m) = Fault NullDereference.
Proof.
  unfold connectRooms. rewrite Hmap. simpl. unfold connectRooms_entry. simpl.
  rewrite Hreg, (find_if_id_reaches_null _ _ _ _ Hpre). reflexivity.
Qed.

Lemma connectRooms_faults_on_reset_pointer_witness :
  connectRooms (reset_world, two_rooms_memory) = Fault NullDereference.
Proof.
  apply (connectRooms_faults_on_reset_pointer reset_world two_rooms_memory
           2 [1] [] [Some 0%nat] [Some 1%nat]); try reflexivity.
  repeat constructor.
Defined.

(** ** The loaders, object by object *)

Lemma ok_spec_ret {A : Type} (a : A) (post : A -> Prop) :
  post a -> ok_spec (Ok a) post.
Proof. intros H a' [= <-]. exact H. Qed.

Lemma ok_spec_bind {A B : Type} (c : outcome A) (k : A -> outcome B)
  (P : A -> Prop) (Q : B -> Prop) :
  ok_spec c P -> (forall a, P a -> ok_spec (k a) Q) -> ok_spec (c ≫= k) Q.
Proof.
  intros Hc Hk b. destruct c as [a|f]; simpl; [|discriminate].
  apply Hk. apply Hc. reflexivity.
Qed.

Lemma ok_spec_of_run_spec {A : Type} (c : outcome A) (ok : bool) (P : A -> Prop) :
  run_spec c ok P -> ok_spec c P.
Proof. intros H a Ha. exact (run_spec_Ok _ _ _ _ H Ha). Qed.

Lemma ok_spec_foldM {A S : Type} (body : A -> S -> outcome S)
  (I : list A -> S -> Prop) (l : list A) :
  (forall pre a s, I pre s -> ok_spec (body a s) (I (pre ++ [a]))) ->
  forall pre s, I pre s -> ok_spec (foldM body l s) (I (pre ++ l)).
Proof.
  intros Hbody. induction l as [|a l IH]; intros pre s Hs; simpl.
  - rewrite app_nil_r. apply ok_spec_ret. exact Hs.
  - apply ok_spec_bind with (P := I (pre ++ [a])); [exact (Hbody pre a s Hs)|].
    intros s' Hs'. specialize (IH (pre ++ [a]) s' Hs').
    rewrite <- app_assoc in IH. exact IH.
Qed.

Section LoaderObjects.

Variable QueryIntText : XMLElement -> Z -> XMLError * Z.

Lemma read_object_exact (o : XMLElement) :
  ok_spec (read_object QueryIntText o)
    (fun obj => obj = record_object QueryIntText o).
Proof.
  unfold read_object.
  eapply ok_spec_bind; [exact (ok_spec_of_run_spec _ _ _ (child_text_spec o "name"))|].
  intros objName Hn.
  eapply ok_spec_bind;
    [exact (ok_spec_of_run_spec _ _ _ (child_text_spec o "description"))|].
  intros desc Hd.
  eapply ok_spec_bind;
    [exact (ok_spec_of_run_spec _ _ _ (child_int_spec QueryIntText o))|].
  intros id ->. apply ok_spec_ret.
  unfold record_object. rewrite Hn, Hd. reflexivity.
Qed.

Lemma makeInventory_body_exact (m0 : Memory) (pre : list XMLElement)
  (actual : XMLElement) (s : list (option nat) * Memory) :
  inventory_made QueryIntText m0 pre s ->
  ok_spec (makeInventory_body QueryIntText actual s)
    (inventory_made QueryIntText m0 (pre ++ [actual])).
Proof.
  destruct s as [retItems m]. unfold inventory_made. simpl. intros [-> ->].
  unfold makeInventory_body.
  eapply ok_spec_bind; [apply read_object_exact|]. intros o ->.
  unfold new_object. apply ok_spec_ret. simpl.
  rewrite !length_app, !length_map, seq_app, !map_app, <- app_assoc. simpl.
  split; reflexivity.
Qed.

Lemma makeInventory_exact (inv : XMLElement) (m : Memory) :
  ok_spec (makeInventory QueryIntText (Some inv) m)
    (inventory_made QueryIntText m (object_records inv)).
Proof.
  unfold makeInventory. simpl.
  apply (ok_spec_foldM (makeInventory_body QueryIntText)
           (fun pre s => inventory_made QueryIntText m pre s) _
           (fun pre a s => makeInventory_body_exact m pre a s) [] ([], m)).
  split; simpl; [reflexivity|]. rewrite app_nil_r. destruct m; reflexivity.
Qed.

End LoaderObjects.

(** X6.  [makeInventory] returns exactly when it is given an inventory
    element whose object records are complete.  It then hands back one
    handle per object record, in document order; the handles are
    pairwise distinct addresses of fresh cells, each holding the plain
    [Object] that its record describes (never a [Key]); the cells that
    existed, the rooms and the entities are untouched. *)
Theorem makeInventory_gives_fresh_plain_items
  (QueryIntText : XMLElement -> Z -> XMLError * Z)
  (invEle : option XMLElement) (m : Memory) :
  returns (makeInventory QueryIntText invEle m) = inventory_ok invEle
  /\ forall (its : list (option nat)) (m' : Memory),
       makeInventory QueryIntText invEle m = Ok (its, m') ->
       exists inv : XMLElement,
         invEle = Some inv
         /\ length its = length (object_records inv)
         /\ NoDup its
         /\ entityStore m' = entityStore m
         /\ roomStore m' = roomStore m
         /\ (forall (l : nat) (c : option Dyn),
               objectStore m !! l = Some c -> objectStore m' !! l = Some c)
         /\ forall (j : nat) (rec : XMLElement),
              object_records inv !! j = Some rec ->
              exists l : nat,
                its !! j = Some (Some l)
                /\ (length (objectStore m) <= l)%nat
                /\ deref_object m' (Some l)
                   = Ok (DynObject (record_object QueryIntText rec)).
Proof.
  split; [eapply run_spec_returns; apply makeInventory_spec|].
  intros its m' Hrun. destruct invEle as [inv|]; [|discriminate Hrun].
  exists inv. split; [reflexivity|].
  destruct (makeInventory_exact QueryIntText inv m _ Hrun) as [Hits Hm].
  simpl in Hits, Hm. subst its m'. simpl.
  split; [rewrite length_map, length_seq; reflexivity|].
  split; [apply NoDup_fmap; [intros x y [= ->]; reflexivity | apply NoDup_seq]|].
  split; [reflexivity|]. split; [reflexivity|].
  split; [intros l c Hl; apply lookup_app_l_Some; exact Hl|].
  intros j rec Hj. exists (length (objectStore m) + j)%nat.
  pose proof (lookup_lt_Some _ _ _ Hj) as Hlt.
  split; [rewrite list_lookup_fmap, lookup_seq_lt by exact Hlt; reflexivity|].
  split; [lia|].
  unfold deref_object, deref. simpl.
  rewrite lookup_app_r by lia.
  replace (length (objectStore m) + j - length (objectStore m))%nat with j by lia.
  rewrite list_lookup_fmap, Hj. reflexivity.
Qed.

(** X7.  [loadEntities] returns exactly when every entity record of the
    chain is complete, and the count it returns is the number of entity
    elements of the chain (0 for a null pointer).  The entities of the
    call are then the last [count] entries of the population, each the
    address of a fresh cell; the rooms, the room registry and the
    connection map are untouched. *)
Theorem loadEntities_count_is_population_suffix
  (QueryIntText : XMLElement -> Z -> XMLError * Z)
  (firstEle : option XMLElement) (s : World * Memory) :
  returns (loadEntities QueryIntText firstEle s)
  = forallb entity_record_ok (sibling_chain "entity" firstEle)
  /\ loadEntities QueryIntText None s = Ok (0%nat, s)
  /\ forall (count : nat) (s' : World * Memory),
       loadEntities QueryIntText firstEle s = Ok (count, s') ->
       count = length (sibling_chain "entity" firstEle)
       /\ population (fst s')
          = population (fst s)
            ++ map Some (seq (length (entityStore (snd s))) count)
       /\ length (entityStore (snd s'))
          = (length (entityStore (snd s)) + count)%nat
       /\ worldRooms (fst s') = worldRooms (fst s)
       /\ roomConnectionMap (fst s') = roomConnectionMap (fst s)
       /\ roomStore (snd s') = roomStore (snd s).
Proof.
  pose proof (loadEntities_spec QueryIntText firstEle s) as Hspec.
  split; [eapply run_spec_returns; exact Hspec|]. split; [reflexivity|].
  intros count s' Hrun.
  destruct (run_spec_Ok _ _ _ _ Hspec Hrun)
    as (Hc & Hwr & Hcm & Hrs & es & Hes & Hpop & Hnames).
  simpl in *.
  assert (Hlen : length es = length (sibling_chain "entity" firstEle)).
  { apply (f_equal length) in Hnames. rewrite !length_map in Hnames.
    exact Hnames. }
  split; [exact Hc|]. rewrite Hc, <- Hlen.
  split; [exact Hpop|]. split; [rewrite Hes, length_app; reflexivity|].
  repeat split; assumption.
Qed.

(** ** Ownership of the items through a load *)

Lemma objects_added_refl (m m' : Memory) :
  objectStore m' = objectStore m -> all_items m' ≡ₚ all_items m ->
  objects_added m m' [].
Proof.
  intros Ho Hi. split; simpl; rewrite ?app_nil_r; assumption.
Qed.

Lemma objects_added_trans (m m1 m2 : Memory) (a b : list Object) :
  objects_added m m1 a -> objects_added m1 m2 b ->
  objects_added m m2 (a ++ b).
Proof.
  intros [Ho1 Hi1] [Ho2 Hi2]. split.
  - rewrite Ho2, Ho1, map_app, app_assoc. reflexivity.
  - rewrite Hi2, Hi1, Ho1, !length_app, length_map, seq_app, map_app.
    rewrite app_assoc. reflexivity.
Qed.

Lemma deref_object_returns (m : Memory) (p : option nat) :
  returns (deref_object m p) = true <->
  exists (l : nat) (d : Dyn), p = Some l /\ objectStore m !! l = Some (Some d).
Proof.
  unfold deref_object, deref. destruct p as [l|]; simpl.
  - destruct (objectStore m !! l) as [[d|]|] eqn:Hl; simpl.
    + split; [|reflexivity]. intros _. exists l, d. split; [reflexivity | exact Hl].
    + split; [discriminate|]. intros (l' & d & [= <-] & H). congruence.
    + split; [discriminate|]. intros (l' & d & [= <-] & H). congruence.
  - split; [discriminate|]. intros (l & d & H & _). discriminate H.
Qed.

Lemma items_owned_once_kept (m m' : Memory) (objs : list Object) :
  items_owned_once m -> objects_added m m' objs -> items_owned_once m'.
Proof.
  intros [Hnd Hlive] [Ho Hi]. rewrite Forall_forall in Hlive.
  assert (Hold : forall x, x ∈ all_items m ->
            exists l d, x = Some l /\ objectStore m !! l = Some (Some d)).
  { intros x Hx. apply deref_object_returns. apply Hlive. exact Hx. }
  split.
  - rewrite Hi. apply NoDup_app. split; [exact Hnd|]. split.
    + intros x Hx Hnew. destruct (Hold x Hx) as (l & d & -> & Hl).
      apply list_elem_of_fmap in Hnew as (l' & [= <-] & Hl').
      apply elem_of_seq in Hl'. apply lookup_lt_Some in Hl. lia.
    + apply NoDup_fmap; [intros x y [= ->]; reflexivity | apply NoDup_seq].
  - rewrite Hi. apply Forall_app. split; apply Forall_forall; intros x Hx.
    + destruct (Hold x Hx) as (l & d & -> & Hl).
      apply deref_object_returns. exists l, d. split; [reflexivity|].
      rewrite Ho. apply lookup_app_l_Some. exact Hl.
    + apply list_elem_of_fmap in Hx as (l & -> & Hl). apply elem_of_seq in Hl.
      destruct (lookup_lt_is_Some_2 objs (l - length (objectStore m))) as [o Hobj];
        [lia|].
      apply deref_object_returns. exists l, (DynObject o). split; [reflexivity|].
      rewrite Ho, lookup_app_r by lia.
      rewrite list_lookup_fmap, Hobj. reflexivity.
Qed.

Lemma inventories_insert_item (rs : list Room) (l : nat) (r : Room) (x : option nat) :
  rs !! l = Some r ->
  concat (map Room_inventory
            (<[l := Room_with_inventory r (Room_inventory r ++ [x])]> rs))
  ≡ₚ concat (map Room_inventory rs) ++ [x].
Proof.
  revert l; induction rs as [|a rs IH]; intros l Hl; [discriminate Hl|].
  destruct l as [|l]; simpl in *.
  - injection Hl as ->. rewrite <- !app_assoc. apply Permutation_app_head.
    apply Permutation_app_comm.
  - rewrite (IH l Hl), app_assoc. reflexivity.
Qed.

Lemma inventories_insert_entity (rs : list Room) (l : nat) (r : Room) (e : option nat) :
  rs !! l = Some r ->
  map Room_inventory (<[l := Room_addEntity r e]> rs) = map Room_inventory rs.
Proof.
  revert l; induction rs as [|a rs IH]; intros l Hl; [discriminate Hl|].
  destruct l as [|l]; simpl in *.
  - injection Hl as ->. reflexivity.
  - rewrite (IH l Hl). reflexivity.
Qed.

Section LoaderOwnership.

Variable QueryIntText : XMLElement -> Z -> XMLError * Z.

Lemma makeInventory_exact_opt (invEle : option XMLElement) (m : Memory) :
  ok_spec (makeInventory QueryIntText invEle m)
    (fun s => exists inv, invEle = Some inv
                /\ inventory_made QueryIntText m (object_records inv) s).
Proof.
  destruct invEle as [inv|]; [|intros a Ha; discriminate Ha].
  intros a Ha. exists inv. split; [reflexivity|].
  exact (makeInventory_exact QueryIntText inv m a Ha).
Qed.

Lemma loadEntities_body_objects (m0 : Memory) (actual : XMLElement)
  (s : nat * (World * Memory)) :
  (exists objs, objects_added m0 (snd (snd s)) objs) ->
  ok_spec (loadEntities_body QueryIntText actual s)
    (fun s' => exists objs, objects_added m0 (snd (snd s')) objs).
Proof.
  destruct s as [counter [w m]]. simpl. intros (objs & Hadd).
  unfold loadEntities_body.
  eapply ok_spec_bind;
    [exact (ok_spec_of_run_spec _ _ _ (child_text_spec actual "name"))|].
  intros name _.
  eapply ok_spec_bind; [apply makeInventory_exact_opt|].
  intros [inv m1] (invE & _ & Hits & Hm). simpl in Hits, Hm. subst inv m1.
  unfold new_entity, with_population. simpl.
  rewrite vector_back_snoc. simpl.
  unfold deref_entity, deref. simpl.
  rewrite lookup_snoc_last. simpl.
  rewrite Entity_addItems_spec. simpl.
  rewrite destroy_items_null. simpl.
  apply ok_spec_ret. simpl. rewrite insert_snoc_last.
  exists (objs ++ map (record_object QueryIntText) (object_records invE)).
  apply (objects_added_trans _ m _ _ _ Hadd).
  split; simpl.
  - rewrite <- list_fmap_compose. reflexivity.
  - unfold all_items. simpl.
    rewrite map_app, concat_app, length_map. simpl.
    rewrite app_nil_r, app_assoc. reflexivity.
Qed.

Lemma loadEntities_objects (firstEle : option XMLElement) (s : World * Memory) :
  ok_spec (loadEntities QueryIntText firstEle s)
    (fun s' => exists objs, objects_added (snd s) (snd (snd s')) objs).
Proof.
  unfold loadEntities.
  apply (ok_spec_foldM (loadEntities_body QueryIntText)
           (fun _ s' => exists objs, objects_added (snd s) (snd (snd s')) objs) _
           (fun pre a s1 => loadEntities_body_objects (snd s) a s1) [] (0%nat, s)).
  exists []. apply objects_added_refl; reflexivity.
Qed.

Lemma loadRooms_item_objects (w1 : World) (m0 : Memory)
  (actualInv : XMLElement) (m : Memory) :
  (exists objs, objects_added m0 m objs) ->
  ok_spec (loadRooms_item QueryIntText w1 actualInv m)
    (fun m' => exists objs, objects_added m0 m' objs).
Proof.
  intros (objs & Hadd). unfold loadRooms_item.
  eapply ok_spec_bind; [apply read_object_exact|]. intros o _.
  unfold new_object.
  eapply ok_spec_bind with (P := fun _ => True); [intros a _; exact I|].
  intros back _.
  destruct back as [l|]; [|intros a Ha; discriminate Ha].
  unfold deref_room, deref. simpl.
  destruct (roomStore m !! l) as [r|] eqn:Hl; [|intros a Ha; discriminate Ha].
  simpl. apply ok_spec_ret.
  exists (objs ++ [o]). apply (objects_added_trans _ m _ _ _ Hadd).
  split; simpl; [reflexivity|].
  unfold all_items. simpl.
  rewrite (inventories_insert_item _ _ _ _ Hl), <- !app_assoc.
  apply Permutation_app_head. apply Permutation_app_comm.
Qed.

Lemma loadRooms_attach_objects (w : World) (n : nat) :
  forall (i : Z) (m : Memory),
  ok_spec (loadRooms_attach w n i m) (fun m' => objects_added m m' []).
Proof.
  induction n as [|n IH]; intros i m; simpl.
  - apply ok_spec_ret. apply objects_added_refl; reflexivity.
  - eapply ok_spec_bind with (P := fun _ => True); [intros a _; exact I|].
    intros e _.
    eapply ok_spec_bind with (P := fun _ => True); [intros a _; exact I|].
    intros back _.
    destruct back as [l|]; [|intros a Ha; discriminate Ha].
    unfold deref_room, deref. simpl.
    destruct (roomStore m !! l) as [r|] eqn:Hl; [|intros a Ha; discriminate Ha].
    simpl. intros m' Hm'. specialize (IH _ _ m' Hm').
    change [] with (@nil Object ++ []).
    refine (objects_added_trans _ _ _ _ _ _ IH).
    apply objects_added_refl; [reflexivity|].
    unfold all_items. simpl.
    rewrite (inventories_insert_entity _ _ _ _ Hl). reflexivity.
Qed.

Lemma loadRooms_body_objects (actual : XMLElement) (s : World * Memory) :
  ok_spec (loadRooms_body QueryIntText actual s)
    (fun s' => exists objs, objects_added (snd s) (snd s') objs).
Proof.
  destruct s as [w m]. unfold loadRooms_body. simpl.
  eapply ok_spec_bind with (P := fun _ => True); [intros a _; exact I|].
  intros roomName _.
  eapply ok_spec_bind with (P := fun _ => True); [intros a _; exact I|].
  intros roomDescription _.
  eapply ok_spec_bind with (P := fun _ => True); [intros a _; exact I|].
  intros roomID _.
  eapply ok_spec_bind with (P := fun _ => True); [intros a _; exact I|].
  intros invEle _.
  eapply ok_spec_bind.
  { apply (ok_spec_foldM _
             (fun _ m' => exists objs, objects_added m m' objs) _
             (fun pre a m' => loadRooms_item_objects _ m a m') []).
    exists []. apply objects_added_refl; [reflexivity|].
    unfold all_items. simpl. rewrite map_app, concat_app. simpl.
    rewrite !app_nil_r. reflexivity. }
  intros m2 (objs2 & H2).
  eapply ok_spec_bind with (P := fun _ => True); [intros a _; exact I|].
  intros connections _.
  eapply ok_spec_bind; [apply loadEntities_objects|].
  intros [entCount [w3 m3]] (objs3 & H3). simpl in H3.
  eapply ok_spec_bind; [apply loadRooms_attach_objects|].
  intros m4 H4. apply ok_spec_ret. simpl.
  exists ((objs2 ++ objs3) ++ []).
  exact (objects_added_trans _ _ _ _ _ (objects_added_trans _ _ _ _ _ H2 H3) H4).
Qed.

Lemma loadRooms_objects (firstRoom : option XMLElement) (s : World * Memory) :
  ok_spec (loadRooms QueryIntText firstRoom s)
    (fun s' => exists objs, objects_added (snd s) (snd s') objs).
Proof.
  unfold loadRooms.
  apply (ok_spec_foldM (loadRooms_body QueryIntText)
           (fun _ s' => exists objs, objects_added (snd s) (snd s') objs) _
           (fun pre a s1 H s2 Hs2 =>
              match H with
              | ex_intro _ objs1 H1 =>
                  match loadRooms_body_objects a s1 s2 Hs2 with
                  | ex_intro _ objs2 H2 =>
                      ex_intro _ (objs1 ++ objs2)
                        (objects_added_trans _ _ _ _ _ H1 H2)
                  end
              end) [] s).
  exists []. apply objects_added_refl; reflexivity.
Qed.

End LoaderOwnership.

(** X8.  [loadRooms] keeps the items exclusively owned: when every
    handle of every inventory leads to a live object and no address sits
    in two handles before the load, the same holds after it, for the
    inventories of the old and of the new rooms and entities alike. *)
Theorem loadRooms_keeps_items_owned_once
  (QueryIntText : XMLElement -> Z -> XMLError * Z)
  (firstRoom : option XMLElement) (s s' : World * Memory)
  (Hown : items_owned_once (snd s))
  (Hload : loadRooms QueryIntText firstRoom s = Ok s') :
  items_owned_once (snd s').
Proof.
  destruct (loadRooms_objects QueryIntText firstRoom s s' Hload) as (objs & Hadd).
  exact (items_owned_once_kept _ _ _ Hown Hadd).
Qed.

Lemma loadRooms_keeps_items_owned_once_witness :
  exists s' : World * Memory,
    loadRooms decimal_QueryIntText (first_room two_rooms_story)
      (World_ctor, empty_memory) = Ok s'
    /\ items_owned_once (snd s').
Proof.
  destruct (loadRooms decimal_QueryIntText (first_room two_rooms_story)
              (World_ctor, empty_memory)) as [s'|f] eqn:Hload;
    [|vm_compute in Hload; discriminate Hload].
  exists s'. split; [reflexivity|].
  apply (loadRooms_keeps_items_owned_once decimal_QueryIntText
           (first_room two_rooms_story) (World_ctor, empty_memory) s');
    [|exact Hload].
  split; [apply NoDup_nil_2 | apply Forall_nil_2].
Defined.

(** X9.  A load only ever adds plain objects.  When [loadRooms] returns,
    every cell of the object store that existed is as it was (nothing is
    deleted or overwritten), every new cell holds a plain [Object], so
    that no [Key] comes out of a story, and there are as many new
    handles in the inventories as there are new cells. *)
Theorem loadRooms_adds_plain_objects_only
  (QueryIntText : XMLElement -> Z -> XMLError * Z)
  (firstRoom : option XMLElement) (s s' : World * Memory)
  (Hload : loadRooms QueryIntText firstRoom s = Ok s') :
  (forall (l : nat) (c : option Dyn),
     objectStore (snd s) !! l = Some c -> objectStore (snd s') !! l = Some c)
  /\ (forall (l : nat) (c : option Dyn),
        objectStore (snd s') !! l = Some c ->
        (length (objectStore (snd s)) <= l)%nat ->
        exists o : Object, c = Some (DynObject o))
  /\ (forall (l : nat) (d : Dyn),
        (length (objectStore (snd s)) <= l)%nat ->
        deref_object (snd s') (Some l) = Ok d -> is_Key d = false)
  /\ (length (all_items (snd s')) + length (objectStore (snd s)))%nat
     = (length (all_items (snd s)) + length (objectStore (snd s')))%nat.
Proof.
  destruct (loadRooms_objects QueryIntText firstRoom s s' Hload)
    as (objs & Ho & Hi).
  assert (Hnew : forall (l : nat) (c : option Dyn),
            objectStore (snd s') !! l = Some c ->
            (length (objectStore (snd s)) <= l)%nat ->
            exists o : Object, c = Some (DynObject o)).
  { intros l c Hl Hge. rewrite Ho, lookup_app_r in Hl by exact Hge.
    apply list_lookup_fmap_Some in Hl as (o & Hc & _). exists o. exact Hc. }
  split; [|split; [exact Hnew|split]].
  - intros l c Hl. rewrite Ho. apply lookup_app_l_Some. exact Hl.
  - intros l d Hge Hd. unfold deref_object, deref in Hd. simpl in Hd.
    destruct (objectStore (snd s') !! l) as [c|] eqn:Hl; [|discriminate Hd].
    destruct (Hnew l c Hl Hge) as (o & ->). simpl in Hd.
    injection Hd as <-. reflexivity.
  - rewrite Hi, Ho, !length_app, !length_map, length_seq. lia.
Qed.

Lemma loadRooms_adds_plain_objects_only_witness :
  exists s' : World * Memory,
    loadRooms decimal_QueryIntText (first_room two_rooms_story)
      (World_ctor, empty_memory) = Ok s'
    /\ length (all_items (snd s')) = length (objectStore (snd s')).
Proof.
  destruct (loadRooms decimal_QueryIntText (first_room two_rooms_story)
              (World_ctor, empty_memory)) as [s'|f] eqn:Hload;
    [|vm_compute in Hload; discriminate Hload].
  exists s'. split; [reflexivity|].
  destruct (loadRooms_adds_plain_objects_only decimal_QueryIntText
              (first_room two_rooms_story) (World_ctor, empty_memory) s' Hload)
    as (_ & _ & _ & Hcount).
  simpl in Hcount. lia.
Defined.

(** ** The registries through a load *)

Lemma deref_entity_returns (m : Memory) (e : option nat) :
  returns (deref_entity m e) = true <->
  exists l : nat, e = Some l /\ (l < length (entityStore m))%nat.
Proof.
  unfold deref_entity, deref. destruct e as [l|]; simpl.
  - destruct (entityStore m !! l) as [en|] eqn:Hl; simpl.
    + split; [|reflexivity]. intros _. exists l. split; [reflexivity|].
      eapply lookup_lt_Some. exact Hl.
    + split; [discriminate|]. intros (l' & [= <-] & Hlt).
      apply lookup_ge_None in Hl. lia.
  - split; [discriminate|]. intros (l & Hl & _). discriminate Hl.
Qed.

Lemma rooms_built_population (QueryIntText : XMLElement -> Z -> XMLError * Z)
  (recs : list XMLElement) (s s' : World * Memory) :
  rooms_built QueryIntText recs s s' ->
  population_valid (fst s) (snd s) /\ NoDup (population (fst s)) ->
  population_valid (fst s') (snd s') /\ NoDup (population (fst s')).
Proof.
  induction 1 as [s|r rs s s1 s2 Hr Hrs IH]; intros [Hv Hnd]; [split; assumption|].
  apply IH. destruct Hr as (room & es & _ & _ & Hp & Hpop & He & _).
  unfold population_valid in *. rewrite Hp, Hpop. split.
  - apply Forall_app. split.
    + eapply Forall_impl; [exact Hv|]. simpl. intros p Hp'.
      apply deref_entity_returns in Hp' as (l & -> & Hl).
      apply deref_entity_returns. exists l. split; [reflexivity|].
      rewrite He, length_app. lia.
    + apply Forall_forall. intros p Hin.
      apply list_elem_of_fmap in Hin as (l & -> & Hl). apply elem_of_seq in Hl.
      apply deref_entity_returns. exists l. split; [reflexivity|].
      rewrite He, length_app. lia.
  - apply NoDup_app. split; [exact Hnd|]. split.
    + intros p Hin Hnew. rewrite Forall_forall in Hv. specialize (Hv _ Hin).
      apply deref_entity_returns in Hv as (l & -> & Hl).
      apply list_elem_of_fmap in Hnew as (l' & [= <-] & Hl').
      apply elem_of_seq in Hl'. lia.
    + apply NoDup_fmap; [intros x y [= ->]; reflexivity | apply NoDup_seq].
Qed.

Lemma rooms_built_partition (QueryIntText : XMLElement -> Z -> XMLError * Z)
  (recs : list XMLElement) (s s' : World * Memory) :
  rooms_built QueryIntText recs s s' ->
  exists rooms : list Room,
    roomStore (snd s') = roomStore (snd s) ++ rooms
    /\ length rooms = length recs
    /\ population (fst s')
       = population (fst s) ++ concat (map roomPopulation rooms).
Proof.
  induction 1 as [s|r rs s s1 s2 Hr Hrs IH].
  - exists []. simpl. rewrite !app_nil_r. repeat split.
  - destruct Hr as (room & es & _ & Hrm & Hp & _).
    destruct IH as (rooms & Hrm' & Hlen & Hp').
    exists (room :: rooms). rewrite Hrm', Hrm, Hp', Hp, <- !app_assoc. simpl.
    rewrite Hlen. repeat split.
Qed.

(** X10.  [loadRooms] keeps the room registry sound: when every pointer
    of the registry can be followed and none is listed twice before the
    load, the same holds after it, and the registry has grown by one
    pointer per room record. *)
Theorem loadRooms_keeps_registry_valid
  (QueryIntText : XMLElement -> Z -> XMLError * Z)
  (firstRoom : option XMLElement) (s s' : World * Memory)
  (Hvalid : registry_valid (fst s) (snd s))
  (Hnodup : NoDup (worldRooms (fst s)))
  (Hload : loadRooms QueryIntText firstRoom s = Ok s') :
  registry_valid (fst s') (snd s')
  /\ NoDup (worldRooms (fst s'))
  /\ length (worldRooms (fst s'))
     = (length (worldRooms (fst s)) + length (sibling_chain "room" firstRoom))%nat.
Proof.
  pose proof (run_spec_Ok _ _ _ _ (loadRooms_spec QueryIntText firstRoom s) Hload)
    as Hb.
  destruct (rooms_built_registry QueryIntText _ _ _ Hb (conj Hvalid Hnodup))
    as [Hv Hnd].
  destruct (rooms_built_grows QueryIntText _ _ _ Hb) as ((wr & Hw & Hlen) & _).
  split; [exact Hv|]. split; [exact Hnd|].
  rewrite Hw, length_app, Hlen. reflexivity.
Qed.

Lemma loadRooms_keeps_registry_valid_witness :
  exists s' : World * Memory,
    loadRooms decimal_QueryIntText (first_room two_rooms_story)
      (two_rooms_world, two_rooms_memory) = Ok s'
    /\ length (worldRooms (fst s')) = 4%nat.
Proof.
  destruct (loadRooms decimal_QueryIntText (first_room two_rooms_story)
              (two_rooms_world, two_rooms_memory)) as [s'|f] eqn:Hload;
    [|vm_compute in Hload; discriminate Hload].
  exists s'. split; [reflexivity|].
  assert (Hvalid : registry_valid two_rooms_world two_rooms_memory).
  { repeat constructor. }
  assert (Hnodup : NoDup (worldRooms two_rooms_world)).
  { simpl. repeat constructor; rewrite ?list_elem_of_In; simpl; intuition congruence. }
  destruct (loadRooms_keeps_registry_valid decimal_QueryIntText
              (first_room two_rooms_story) (two_rooms_world, two_rooms_memory) s'
              Hvalid Hnodup Hload) as (_ & _ & Hlen).
  exact Hlen.
Defined.

(** X11.  [loadRooms] keeps the population sound and places every new
    entity in exactly one room: valid, pairwise distinct population
    pointers stay so, and what the load appends to the population is the
    populations of the rooms it has built, room after room. *)
Theorem loadRooms_population_is_the_rooms_populations
  (QueryIntText : XMLElement -> Z -> XMLError * Z)
  (firstRoom : option XMLElement) (s s' : World * Memory)
  (Hvalid : population_valid (fst s) (snd s))
  (Hnodup : NoDup (population (fst s)))
  (Hload : loadRooms QueryIntText firstRoom s = Ok s') :
  population_valid (fst s') (snd s')
  /\ NoDup (population (fst s'))
  /\ exists rooms : list Room,
       roomStore (snd s') = roomStore (snd s) ++ rooms
       /\ length rooms = length (sibling_chain "room" firstRoom)
       /\ population (fst s')
          = population (fst s) ++ concat (map roomPopulation rooms).
Proof.
  pose proof (run_spec_Ok _ _ _ _ (loadRooms_spec QueryIntText firstRoom s) Hload)
    as Hb.
  destruct (rooms_built_population QueryIntText _ _ _ Hb (conj Hvalid Hnodup))
    as [Hv Hnd].
  split; [exact Hv|]. split; [exact Hnd|].
  exact (rooms_built_partition QueryIntText _ _ _ Hb).
Qed.

Lemma loadRooms_population_is_the_rooms_populations_witness :
  exists s' : World * Memory,
    loadRooms decimal_QueryIntText (first_room two_rooms_story)
      (World_ctor, empty_memory) = Ok s'
    /\ NoDup (population (fst s')).
Proof.
  destruct (loadRooms decimal_QueryIntText (first_room two_rooms_story)
              (World_ctor, empty_memory)) as [s'|f] eqn:Hload;
    [|vm_compute in Hload; discriminate Hload].
  exists s'. split; [reflexivity|].
  destruct (loadRooms_population_is_the_rooms_populations decimal_QueryIntText
              (first_room two_rooms_story) (World_ctor, empty_memory) s')
    as (_ & Hnd & _); [apply Forall_nil_2 | apply NoDup_nil_2 | exact Hload |].
  exact Hnd.
Defined.

(** ** The connection map through a load *)

Lemma map_find_elem (k : Z) (v : list Z) (cm : list (Z * list Z)) :
  (k, v) ∈ cm -> is_Some (map_find k cm).
Proof.
  induction cm as [|[k' v'] cm IH]; intros Hin.
  - apply elem_of_nil in Hin. destruct Hin.
  - simpl. destruct (k =? k') eqn:Hk; [eexists; reflexivity|].
    apply elem_of_cons in Hin as [[= -> ->]|Hin]; [|exact (IH Hin)].
    rewrite Z.eqb_refl in Hk. discriminate Hk.
Qed.

Lemma map_find_Some_elem (k : Z) (v : list Z) (cm : list (Z * list Z)) :
  map_find k cm = Some v -> (k, v) ∈ cm.
Proof.
  induction cm as [|[k' v'] cm IH]; simpl; [discriminate|].
  destruct (k =? k') eqn:Hk.
  - intros [= ->]. apply Z.eqb_eq in Hk. subst k'. left.
  - intros H. right. exact (IH H).
Qed.

Lemma map_find_None_keys (k : Z) (cm : list (Z * list Z)) :
  map_find k cm = None -> k ∉ map fst cm.
Proof.
  induction cm as [|[k' v'] cm IH]; simpl; intros H Hin.
  - apply elem_of_nil in Hin. exact Hin.
  - destruct (k =? k') eqn:Hk; [discriminate H|].
    apply elem_of_cons in Hin as [->|Hin]; [|exact (IH H Hin)].
    rewrite Z.eqb_refl in Hk. discriminate Hk.
Qed.

Lemma map_place_keys (k : Z) (v : list Z) (cm : list (Z * list Z)) :
  map fst (map_place k v cm) ≡ₚ k :: map fst cm.
Proof.
  induction cm as [|[k' v'] cm IH]; simpl; [reflexivity|].
  destruct (k <? k'); simpl; [reflexivity|].
  rewrite IH. apply Permutation_swap.
Qed.

Lemma map_insert_keys_nodup (k : Z) (v : list Z) (cm : list (Z * list Z)) :
  NoDup (map fst cm) -> NoDup (map fst (map_insert k v cm)).
Proof.
  intros Hnd. unfold map_insert.
  destruct (map_find k cm) eqn:Hk; [exact Hnd|].
  rewrite map_place_keys. apply NoDup_cons. split; [|exact Hnd].
  apply map_find_None_keys. exact Hk.
Qed.

Lemma rooms_built_keys_nodup (QueryIntText : XMLElement -> Z -> XMLError * Z)
  (recs : list XMLElement) (s s' : World * Memory) :
  rooms_built QueryIntText recs s s' ->
  NoDup (map fst (roomConnectionMap (fst s))) ->
  NoDup (map fst (roomConnectionMap (fst s'))).
Proof.
  induction 1 as [s|r rs s s1 s2 Hr Hrs IH]; intros Hnd; [exact Hnd|].
  apply IH. destruct Hr as (room & es & Hr). decompose [and] Hr.
  match goal with H : roomConnectionMap (fst s1) = _ |- _ => rewrite H end.
  apply map_insert_keys_nodup. exact Hnd.
Qed.

Lemma rooms_built_keys (QueryIntText : XMLElement -> Z -> XMLError * Z)
  (recs : list XMLElement) (s s' : World * Memory) (k : Z) :
  rooms_built QueryIntText recs s s' ->
  is_Some (map_find k (roomConnectionMap (fst s'))) ->
  is_Some (map_find k (roomConnectionMap (fst s)))
  \/ exists (j : nat) (r : XMLElement),
       recs !! j = Some r /\ record_id QueryIntText r = k.
Proof.
  induction 1 as [s|r rs s s1 s2 Hr Hrs IH]; intros Hk; [left; exact Hk|].
  destruct (IH Hk) as [Hk1|(j & r' & Hj & Hid)].
  - destruct Hr as (room & es & Hr). decompose [and] Hr.
    match goal with H : roomConnectionMap (fst s1) = _ |- _ => rewrite H in Hk1 end.
    destruct (Z.eq_dec k (record_id QueryIntText r)) as [->|Hne].
    + right. exists 0%nat, r. split; reflexivity.
    + rewrite map_find_insert_other in Hk1 by exact Hne. left. exact Hk1.
  - right. exists (S j), r'. split; assumption.
Qed.

Lemma rooms_built_valid (QueryIntText : XMLElement -> Z -> XMLError * Z)
  (recs : list XMLElement) (s s' : World * Memory) :
  rooms_built QueryIntText recs s s' ->
  registry_valid (fst s) (snd s) -> registry_valid (fst s') (snd s').
Proof.
  induction 1 as [s|r rs s s1 s2 Hr Hrs IH]; intros Hv; [exact Hv|].
  apply IH. destruct Hr as (room & es & Hw & Hrm & _).
  unfold registry_valid in *. rewrite Hw. apply Forall_app. split.
  - eapply Forall_impl; [exact Hv|]. simpl. intros p Hp.
    apply deref_room_returns in Hp as (l & -> & Hl).
    apply deref_room_returns. exists l. split; [reflexivity|].
    rewrite Hrm, length_app. simpl. lia.
  - apply Forall_singleton. apply deref_room_returns.
    exists (length (roomStore (snd s))). split; [reflexivity|].
    rewrite Hrm, length_app. simpl. lia.
Qed.

(** X12.  After a load into a world with an empty connection map, every
    key of the map is the id of a room that the load has built and
    registered.  When every pointer of the registry could be followed
    before the load, the parent search of [connectRooms] then finds a
    room with that id for every entry of the map; the search passes the
    older pointers of the registry first, so this needs them valid. *)
Theorem loadRooms_map_keys_are_room_ids
  (QueryIntText : XMLElement -> Z -> XMLError * Z)
  (firstRoom : option XMLElement) (s s' : World * Memory)
  (Hempty : roomConnectionMap (fst s) = [])
  (Hload : loadRooms QueryIntText firstRoom s = Ok s') :
  forall (parentID : Z) (ids : list Z),
    (parentID, ids) ∈ roomConnectionMap (fst s') ->
    exists (k l : nat) (r : XMLElement) (room : Room),
      sibling_chain "room" firstRoom !! k = Some r
      /\ record_id QueryIntText r = parentID
      /\ worldRooms (fst s') !! (length (worldRooms (fst s)) + k)%nat
         = Some (Some l)
      /\ roomStore (snd s') !! l = Some room
      /\ Room_getID room = parentID
      /\ has_id (snd s') parentID (Some l) = true
      /\ (registry_valid (fst s) (snd s) ->
          exists parent : node,
            find_if_id (snd s') parentID (worldRooms (fst s')) = Ok (Some parent)
            /\ has_id (snd s') parentID parent = true).
Proof.
  intros parentID ids Hin.
  pose proof (run_spec_Ok _ _ _ _ (loadRooms_spec QueryIntText firstRoom s) Hload)
    as Hb.
  destruct (rooms_built_keys QueryIntText _ _ _ parentID Hb (map_find_elem _ _ _ Hin))
    as [Hold|(k & r & Hk & Hid)].
  - rewrite Hempty in Hold. destruct Hold as [v Hv]. discriminate Hv.
  - destruct (rooms_built_room QueryIntText _ _ _ k r Hb Hk)
      as (s1 & room & es & _ & Hw & Hrm & Hrid & _).
    exists k, (length (roomStore (snd s1))), r, room.
    rewrite Hid in Hrid.
    assert (Hhas : has_id (snd s') parentID (Some (length (roomStore (snd s1))))
                   = true).
    { unfold has_id, deref_room, deref. rewrite Hrm, Hrid. apply Z.eqb_refl. }
    repeat split; try assumption.
    intros Hvalid.
    pose proof (rooms_built_valid QueryIntText _ _ _ Hb Hvalid) as Hvalid'.
    destruct (first_with_id_present (fst s') (snd s') parentID) as (parent & Hp).
    { exists (Some (length (roomStore (snd s1)))). split; [|exact Hhas].
      eapply list_elem_of_lookup_2. exact Hw. }
    exists parent. split.
    + rewrite (find_if_id_valid _ _ _ Hvalid'). f_equal.
      apply resolve_first_with_id. exact Hp.
    + destruct Hp as (i & _ & Hp & _). exact Hp.
Qed.

Lemma loadRooms_map_keys_are_room_ids_witness :
  exists (s' : World * Memory) (parent : node),
    loadRooms decimal_QueryIntText (first_room two_rooms_story)
      (World_ctor, empty_memory) = Ok s'
    /\ find_if_id (snd s') 2 (worldRooms (fst s')) = Ok (Some parent)
    /\ has_id (snd s') 2 parent = true.
Proof.
  destruct (loadRooms decimal_QueryIntText (first_room two_rooms_story)
              (World_ctor, empty_memory)) as [s'|f] eqn:Hload;
    [|vm_compute in Hload; discriminate Hload].
  pose proof (loadRooms_map_keys_are_room_ids decimal_QueryIntText
                (first_room two_rooms_story) (World_ctor, empty_memory) s'
                eq_refl Hload 2 []) as H.
  destruct H as (k & l & r & room & _ & _ & _ & _ & _ & _ & Hsearch).
  { vm_compute in Hload. injection Hload as <-. right. left. }
  destruct Hsearch as (parent & Hfind & Hhas); [constructor|].
  exists s', parent. split; [reflexivity|]. split; [exact Hfind | exact Hhas].
Defined.

(** ** World::initWorld on a fresh world *)

Lemma rooms_built_fresh (QueryIntText : XMLElement -> Z -> XMLError * Z)
  (recs : list XMLElement) (s s' : World * Memory) :
  rooms_built QueryIntText recs s s' ->
  exists rs : list Room,
    roomStore (snd s') = roomStore (snd s) ++ rs
    /\ length rs = length recs
    /\ Forall (fun room => lock room = locked /\ neighbours room = []) rs.
Proof.
  induction 1 as [s|r rs s s1 s2 Hr Hrs IH].
  - exists []. rewrite app_nil_r. repeat split. constructor.
  - destruct Hr as (room & es & _ & Hrm & _ & _ & _ & _ & _ & _ & Hlock & Hnb & _).
    destruct IH as (rs' & Hrm' & Hlen & Hall).
    exists (room :: rs'). rewrite Hrm', Hrm, <- app_assoc. simpl. rewrite Hlen.
    repeat split. constructor; [split|]; assumption.
Qed.

(** The two phases of a run of [initWorld] that returns. *)
Lemma initWorld_phases (QueryIntText : XMLElement -> Z -> XMLError * Z)
  (story : list XMLNode) (s : World * Memory) (w : World) (m : Memory) :
  initWorld QueryIntText story s = Ok (w, m) ->
  exists m0 : Memory,
    loadRooms QueryIntText (first_room story) s = Ok (w, m0)
    /\ connectRooms (w, m0) = Ok (w, m).
Proof.
  unfold initWorld, first_room.
  destruct (first_element "world" story) as [we|]; [|discriminate]. simpl.
  destruct (loadRooms QueryIntText (FirstChildElement we "room") s)
    as [[w0 m0]|f]; [|discriminate]. simpl.
  intros Hc. exists m0.
  assert (w0 = w) as ->.
  { unfold connectRooms in Hc.
    destruct (foldM (connectRooms_entry w0) (roomConnectionMap w0) m0);
      [|discriminate Hc]. simpl in Hc. congruence. }
  split; [reflexivity | exact Hc].
Qed.

(** X13.  A world that [initWorld] has built from nothing has no
    unlocked room and no dangling edge: every room is locked, and every
    neighbour of every room is a pointer of the registry that can be
    followed. *)
Theorem initWorld_rooms_locked_edges_registered
  (QueryIntText : XMLElement -> Z -> XMLError * Z)
  (story : list XMLNode) (w : World) (m : Memory)
  (Hinit : initWorld QueryIntText story (World_ctor, empty_memory) = Ok (w, m)) :
  forall (l : nat) (ro : Room),
    roomStore m !! l = Some ro ->
    lock ro = locked
    /\ forall n : node,
         n ∈ neighbours ro ->
         n ∈ worldRooms w /\ returns (deref_room m n) = true.
Proof.
  destruct (initWorld_phases _ _ _ _ _ Hinit) as (m0 & Hload & Hconn).
  pose proof (run_spec_Ok _ _ _ _ (loadRooms_spec QueryIntText _ _) Hload) as Hb.
  destruct (rooms_built_fresh _ _ _ _ Hb) as (rs & Hrs & _ & Hfresh).
  destruct (rooms_built_registry _ _ _ _ Hb) as [Hv _].
  { split; [constructor | apply NoDup_nil_2]. }
  simpl in Hrs, Hv.
  destruct (connectRooms_grows w m0 Hv) as (m' & E & G).
  rewrite E in Hconn. injection Hconn as ->.
  intros l ro Hl.
  destruct (lookup_lt_is_Some_2 (roomStore m0) l) as [ro0 Hl0].
  { destruct G as (_ & _ & Hlen & _). rewrite <- Hlen.
    eapply lookup_lt_Some. exact Hl. }
  pose proof G as (_ & _ & _ & Gl). rewrite (Gl l ro0 Hl0) in Hl.
  injection Hl as <-. simpl.
  rewrite Forall_forall in Hfresh.
  destruct (Hfresh ro0) as [Hlock Hnb].
  { rewrite Hrs in Hl0. eapply list_elem_of_lookup_2. exact Hl0. }
  split; [exact Hlock|]. rewrite Hnb. simpl.
  intros n Hn. apply edges_added_elem in Hn as (_ & _ & id2find & _ & _ & _ & Hres).
  split.
  - apply find_some in Hres as [Hin _]. apply list_elem_of_In. exact Hin.
  - eapply deref_room_grows_returns; [exact G|].
    eapply resolve_valid; eassumption.
Qed.

Lemma initWorld_rooms_locked_edges_registered_witness :
  exists (w : World) (m : Memory) (ro : Room),
    initWorld decimal_QueryIntText two_rooms_story (World_ctor, empty_memory)
    = Ok (w, m)
    /\ roomStore m !! 0%nat = Some ro
    /\ lock ro = locked.
Proof.
  destruct (initWorld decimal_QueryIntText two_rooms_story
              (World_ctor, empty_memory)) as [[w m]|f] eqn:Hinit;
    [|vm_compute in Hinit; discriminate Hinit].
  destruct (roomStore m !! 0%nat) as [ro|] eqn:Hl;
    [|vm_compute in Hinit; injection Hinit as <- <-; discriminate Hl].
  exists w, m, ro. split; [reflexivity|]. split; [exact Hl|].
  exact (proj1 (initWorld_rooms_locked_edges_registered decimal_QueryIntText
                  two_rooms_story w m Hinit 0%nat ro Hl)).
Defined.

Lemma edges_of_entry_other (m : Memory) (w : World) (it : Z * list Z)
  (l : nat) (parentID : Z) :
  (forall id : Z, resolve m w id = Some (Some l) -> id = parentID) ->
  fst it <> parentID -> edges_of_entry m w it l = [].
Proof.
  intros Huniq Hne. unfold edges_of_entry.
  destruct (resolve m w (fst it)) as [parent|] eqn:Hres; [|reflexivity].
  destruct (decide (parent = Some l)) as [->|]; [|reflexivity].
  exfalso. exact (Hne (Huniq _ Hres)).
Qed.

(** With one entry per key, the room that a parent id leads to receives
    the edges of that entry and of no other. *)
Lemma edges_added_one_entry (m : Memory) (w : World) (l : nat)
  (parentID : Z) (ids : list Z) :
  NoDup (map fst (roomConnectionMap w)) ->
  (parentID, ids) ∈ roomConnectionMap w ->
  resolve m w parentID = Some (Some l) ->
  (forall id : Z, resolve m w id = Some (Some l) -> id = parentID) ->
  edges_added m w l = omap (resolve m w) ids.
Proof.
  intros Hnd Hin Hres Huniq. unfold edges_added.
  revert Hnd Hin. generalize (roomConnectionMap w) as cm.
  induction cm as [|it cm IH]; intros Hnd Hin.
  - apply elem_of_nil in Hin. destruct Hin.
  - simpl in *. apply NoDup_cons in Hnd as [Hhead Hnd].
    apply elem_of_cons in Hin as [<-|Hin].
    + unfold edges_of_entry at 1. simpl. rewrite Hres.
      destruct (decide (Some l = Some l)); [|congruence].
      assert (Hrest : flat_map (fun it => edges_of_entry m w it l) cm = []).
      { clear IH Hnd. induction cm as [|it' cm IH']; [reflexivity|]. simpl.
        rewrite (edges_of_entry_other m w it' l parentID Huniq).
        - apply IH'. intros Hin'. apply Hhead. simpl. right. exact Hin'.
        - intros Heq. apply Hhead. simpl. rewrite <- Heq. left. }
      rewrite Hrest, app_nil_r. reflexivity.
    + rewrite (edges_of_entry_other m w it l parentID Huniq).
      * simpl. exact (IH Hnd Hin).
      * intros Heq. apply Hhead. rewrite Heq.
        apply (list_elem_of_fmap_2 fst) in Hin. exact Hin.
Qed.

(** The room of the [k]-th record of a load from nothing, when the ids
    of the records are pairwise distinct. *)
Lemma rooms_built_fresh_room (QueryIntText : XMLElement -> Z -> XMLError * Z)
  (recs : list XMLElement) (w : World) (m0 : Memory) (k : nat) (r : XMLElement) :
  rooms_built QueryIntText recs (World_ctor, empty_memory) (w, m0) ->
  NoDup (map (record_id QueryIntText) recs) ->
  recs !! k = Some r ->
  exists room : Room,
    worldRooms w !! k = Some (Some k)
    /\ roomStore m0 !! k = Some room
    /\ Room_getID room = record_id QueryIntText r
    /\ neighbours room = []
    /\ map_find (record_id QueryIntText r) (roomConnectionMap w)
       = Some (record_connections QueryIntText r).
Proof.
  intros Hb Hnd Hk.
  destruct (rooms_built_room QueryIntText _ _ _ k r Hb Hk)
    as (s1 & room & es & H1 & Hw & Hrm & Hid & _ & _ & _ & _ & Hcm & _).
  destruct (rooms_built_fresh _ _ _ _ H1) as (rs1 & Hrs1 & Hlen1 & _).
  destruct (rooms_built_fresh _ _ _ _ Hb) as (rs & Hrs & _ & Hfresh).
  simpl in *.
  assert (Hk' : length (roomStore (snd s1)) = k).
  { rewrite Hrs1, Hlen1, length_take. apply lookup_lt_Some in Hk. lia. }
  rewrite Hk' in *.
  exists room. split; [exact Hw|]. split; [exact Hrm|]. split; [exact Hid|].
  split.
  - rewrite Forall_forall in Hfresh. apply Hfresh.
    rewrite Hrs in Hrm. eapply list_elem_of_lookup_2. exact Hrm.
  - rewrite Hcm.
    rewrite (rooms_built_key_absent QueryIntText _ _ _ _ H1); [reflexivity..|].
    intros j r' Hj Heq. apply lookup_take_Some in Hj as [Hj Hlt].
    assert (j = k); [|lia].
    eapply (NoDup_lookup _ _ _ _ Hnd); rewrite list_lookup_fmap.
    + rewrite Hj. simpl. rewrite Heq. reflexivity.
    + rewrite Hk. reflexivity.
Qed.

(** X14.  [initWorld] builds the graph that the story describes.  For a
    story whose room ids are pairwise distinct, loaded into a fresh
    world, the room of the [k]-th room record sits at the [k]-th place of
    the registry with the id of the record, and its neighbours are
    exactly the rooms that the ids of its [connections] block lead to, in
    the order of the block, an id that no room carries being left out and
    an id listed twice giving two edges. *)
Theorem initWorld_neighbours_follow_the_story
  (QueryIntText : XMLElement -> Z -> XMLError * Z)
  (story : list XMLNode) (w : World) (m : Memory)
  (Hinit : initWorld QueryIntText story (World_ctor, empty_memory) = Ok (w, m))
  (Hdistinct : NoDup (map (record_id QueryIntText) (story_rooms story))) :
  forall (k : nat) (r : XMLElement),
    story_rooms story !! k = Some r ->
    exists ro : Room,
      worldRooms w !! k = Some (Some k)
      /\ roomStore m !! k = Some ro
      /\ Room_getID ro = record_id QueryIntText r
      /\ Room_getNeighbours ro
         = omap (resolve m w) (record_connections QueryIntText r).
Proof.
  destruct (initWorld_phases _ _ _ _ _ Hinit) as (m0 & Hload & Hconn).
  pose proof (run_spec_Ok _ _ _ _ (loadRooms_spec QueryIntText _ _) Hload) as Hb.
  fold (story_rooms story) in Hb.
  destruct (rooms_built_registry _ _ _ _ Hb) as [Hv _].
  { split; [constructor | apply NoDup_nil_2]. }
  simpl in Hv.
  pose proof (rooms_built_keys_nodup _ _ _ _ Hb (NoDup_nil_2 : NoDup (map fst [])))
    as Hkeys. simpl in Hkeys.
  destruct (connectRooms_grows w m0 Hv) as (m' & E & G).
  rewrite E in Hconn. injection Hconn as ->.
  intros k r Hk.
  destruct (rooms_built_fresh_room _ _ _ _ k r Hb Hdistinct Hk)
    as (room & Hw & Hrm & Hid & Hnb & Hcm).
  assert (Hres : resolve m0 w (record_id QueryIntText r) = Some (Some k)).
  { apply resolve_first_with_id. exists k. split; [exact Hw|]. split.
    - unfold has_id, deref_room, deref. rewrite Hrm, Hid. apply Z.eqb_refl.
    - intros j r' Hlt Hj.
      destruct (lookup_lt_is_Some_2 (story_rooms story) j) as [rj Hrj].
      { apply lookup_lt_Some in Hk. lia. }
      destruct (rooms_built_fresh_room _ _ _ _ j rj Hb Hdistinct Hrj)
        as (roomj & Hwj & Hrmj & Hidj & _).
      rewrite Hwj in Hj. injection Hj as <-.
      unfold has_id, deref_room, deref. rewrite Hrmj, Hidj.
      apply Z.eqb_neq. intros Heq.
      assert (j = k); [|lia].
      eapply (NoDup_lookup _ _ _ _ Hdistinct); rewrite list_lookup_fmap.
      + rewrite Hrj. simpl. rewrite Heq. reflexivity.
      + rewrite Hk. reflexivity. }
  assert (Huniq : forall id : Z,
            resolve m0 w id = Some (Some k) -> id = record_id QueryIntText r).
  { intros id Hr. apply find_some in Hr as [_ Hhas].
    unfold has_id, deref_room, deref in Hhas. rewrite Hrm in Hhas.
    apply Z.eqb_eq in Hhas. rewrite <- Hhas. exact Hid. }
  exists (Room_with_neighbours room (neighbours room ++ edges_added m0 w k)).
  split; [exact Hw|].
  split; [destruct G as (_ & _ & _ & G); exact (G k room Hrm)|].
  split; [exact Hid|].
  unfold Room_getNeighbours. simpl. rewrite Hnb. simpl.
  rewrite (edges_added_one_entry m0 w k (record_id QueryIntText r)
             (record_connections QueryIntText r) Hkeys
             (map_find_Some_elem _ _ _ Hcm) Hres Huniq).
  apply omap_pointwise. intros a. symmetry.
  exact (grows_neighbours_resolve _ _ _ _ _ G).
Qed.

Lemma initWorld_neighbours_follow_the_story_witness :
  exists (w : World) (m : Memory) (ro : Room),
    initWorld decimal_QueryIntText two_rooms_story (World_ctor, empty_memory)
    = Ok (w, m)
    /\ roomStore m !! 0%nat = Some ro
    /\ Room_getNeighbours ro = [Some 1%nat].
Proof.
  destruct (initWorld decimal_QueryIntText two_rooms_story
              (World_ctor, empty_memory)) as [[w m]|f] eqn:Hinit;
    [|vm_compute in Hinit; discriminate Hinit].
  assert (Hdistinct : NoDup (map (record_id decimal_QueryIntText)
                               (story_rooms two_rooms_story))).
  { vm_compute. repeat constructor; rewrite ?list_elem_of_In; simpl;
      intuition congruence. }
  destruct (story_rooms two_rooms_story !! 0%nat) as [r|] eqn:Hr;
    [|vm_compute in Hr; discriminate Hr].
  destruct (initWorld_neighbours_follow_the_story decimal_QueryIntText
              two_rooms_story w m Hinit Hdistinct 0%nat r Hr)
    as (ro & _ & Hl & _ & Hnb).
  exists w, m, ro. split; [reflexivity|]. split; [exact Hl|].
  rewrite Hnb. vm_compute in Hr. injection Hr as <-.
  vm_compute in Hinit. injection Hinit as <- <-. reflexivity.
Defined.

(** X15.  [initWorld] on a fresh world returns exactly when the story has
    a [world] element all of whose room records are complete: once the
    rooms are loaded, the connect phase cannot fault.  A document without
    a [world] element, such as the empty document left by a file that
    could not be read, makes [initWorld] dereference a null pointer,
    whatever the world it is called on; a [world] without any room gives
    the fresh world back. *)
Theorem initWorld_returns_iff_story_complete
  (QueryIntText : XMLElement -> Z -> XMLError * Z) (story : list XMLNode) :
  returns (initWorld QueryIntText story (World_ctor, empty_memory))
  = match first_element "world" story with
    | Some worldElement =>
        forallb room_record_ok
          (sibling_chain "room" (FirstChildElement worldElement "room"))
    | None => false
    end
  /\ (forall s : World * Memory,
        first_element "world" story = None ->
        initWorld QueryIntText story s = Fault NullDereference)
  /\ (story_rooms story = [] -> first_element "world" story <> None ->
      initWorld QueryIntText story (World_ctor, empty_memory)
      = Ok (World_ctor, empty_memory)).
Proof.
  split; [apply initWorld_returns|]. split.
  - intros s Hnone. unfold initWorld. rewrite Hnone. reflexivity.
  - unfold story_rooms, first_room, initWorld.
    destruct (first_element "world" story) as [we|]; [|congruence].
    intros Hnone _.
    change (loadRooms QueryIntText (FirstChildElement we "room")
              (World_ctor, empty_memory) ≫= connectRooms
            = Ok (World_ctor, empty_memory)).
    unfold loadRooms. rewrite Hnone. reflexivity.
Qed.

(** ** Where the items of a story end up *)

Lemma foldM_app {A St : Type} (body : A -> St -> outcome St) (l1 l2 : list A) (s : St) :
  foldM body (l1 ++ l2) s = foldM body l1 s ≫= foldM body l2.
Proof.
  revert s; induction l1 as [|a l1 IH]; intros s; simpl; [reflexivity|].
  destruct (body a s) as [s1|f]; simpl; [apply IH | reflexivity].
Qed.

(** A loop that returns can be cut at any of its iterations. *)
Lemma foldM_cut {A St : Type} (body : A -> St -> outcome St) (l : list A)
  (s s' : St) (k : nat) (a : A) :
  foldM body l s = Ok s' -> l !! k = Some a ->
  exists s1 s2 : St,
    foldM body (take k l) s = Ok s1
    /\ body a s1 = Ok s2
    /\ foldM body (drop (S k) l) s2 = Ok s'.
Proof.
  intros Hrun Hk. rewrite <- (take_drop_middle l k a Hk), foldM_app in Hrun.
  destruct (foldM body (take k l) s) as [s1|f]; [|discriminate Hrun].
  simpl in Hrun. destruct (body a s1) as [s2|f] eqn:Hbody; [|discriminate Hrun].
  simpl in Hrun. exists s1, s2. split; [reflexivity|].
  split; [exact Hbody | exact Hrun].
Qed.

Lemma objects_kept_refl (m m' : Memory) :
  objectStore m' = objectStore m -> objects_kept m m'.
Proof. intros H l c Hl. rewrite H. exact Hl. Qed.

Lemma objects_kept_trans (m1 m2 m3 : Memory) :
  objects_kept m1 m2 -> objects_kept m2 m3 -> objects_kept m1 m3.
Proof. intros H1 H2 l c Hl. apply H2, H1, Hl. Qed.

Lemma objects_kept_app (m m' : Memory) (cells : list (option Dyn)) :
  objectStore m' = objectStore m ++ cells -> objects_kept m m'.
Proof. intros H l c Hl. rewrite H. apply lookup_app_l_Some. exact Hl. Qed.

Lemma deref_object_kept (m m' : Memory) (h : option nat) (d : Dyn) :
  objects_kept m m' -> deref_object m h = Ok d -> deref_object m' h = Ok d.
Proof.
  intros Hk. unfold deref_object, deref. destruct h as [l|]; [|discriminate].
  destruct (objectStore m !! l) as [c|] eqn:Hl; [|discriminate].
  rewrite (Hk l c Hl). trivial.
Qed.

Lemma inventory_holds_kept (QueryIntText : XMLElement -> Z -> XMLError * Z)
  (m m' : Memory) (inv : list (option nat)) (invEle : option XMLElement) :
  objects_kept m m' ->
  inventory_holds QueryIntText m inv invEle ->
  inventory_holds QueryIntText m' inv invEle.
Proof.
  intros Hk (e & He & Hall). exists e. split; [exact He|].
  eapply Forall2_impl; [exact Hall|]. simpl. intros h rec Hh.
  exact (deref_object_kept _ _ _ _ Hk Hh).
Qed.

Section LoaderItems.

Variable QueryIntText : XMLElement -> Z -> XMLError * Z.

Lemma makeInventory_holds (invEle : option XMLElement) (m : Memory) :
  ok_spec (makeInventory QueryIntText invEle m)
    (fun s => inventory_holds QueryIntText (snd s) (fst s) invEle
              /\ objects_kept m (snd s)
              /\ entityStore (snd s) = entityStore m
              /\ roomStore (snd s) = roomStore m).
Proof.
  intros [inv m1] Hrun.
  destruct (makeInventory_exact_opt QueryIntText invEle m _ Hrun)
    as (e & -> & Hits & Hm).
  simpl in *. subst inv m1. simpl.
  split; [|split; [eapply objects_kept_app; reflexivity|split; reflexivity]].
  exists e. split; [reflexivity|].
  apply Forall2_same_length_lookup_2.
  - rewrite length_map, length_seq. reflexivity.
  - intros j h rec Hh Hrec.
    pose proof (lookup_lt_Some _ _ _ Hrec) as Hlt.
    rewrite list_lookup_fmap, lookup_seq_lt in Hh by exact Hlt.
    injection Hh as <-.
    unfold deref_object, deref. simpl.
    rewrite lookup_app_r by lia.
    replace (length (objectStore m) + j - length (objectStore m))%nat with j by lia.
    rewrite list_lookup_fmap, Hrec. reflexivity.
Qed.

(** The entities of a run of entity records, each with the items of its
    own inventory element. *)
Lemma loadEntities_body_items (m0 : Memory) (pre : list XMLElement)
  (actual : XMLElement) (s : nat * (World * Memory)) :
  (roomStore (snd (snd s)) = roomStore m0
   /\ objects_kept m0 (snd (snd s))
   /\ exists es : list Entity,
        entityStore (snd (snd s)) = entityStore m0 ++ es
        /\ Forall2
             (fun rec ent =>
                inventory_holds QueryIntText (snd (snd s)) (Entity_inventory ent)
                  (FirstChildElement rec "inventory")) pre es) ->
  ok_spec (loadEntities_body QueryIntText actual s)
    (fun s' =>
       roomStore (snd (snd s')) = roomStore m0
       /\ objects_kept m0 (snd (snd s'))
       /\ exists es : list Entity,
            entityStore (snd (snd s')) = entityStore m0 ++ es
            /\ Forall2
                 (fun rec ent =>
                    inventory_holds QueryIntText (snd (snd s'))
                      (Entity_inventory ent) (FirstChildElement rec "inventory"))
                 (pre ++ [actual]) es).
Proof.
  destruct s as [counter [w m]]. simpl. intros (Hrs & Hkept & es & Hes & Hall).
  unfold loadEntities_body.
  eapply ok_spec_bind;
    [exact (ok_spec_of_run_spec _ _ _ (child_text_spec actual "name"))|].
  intros name _.
  eapply ok_spec_bind; [apply makeInventory_holds|].
  intros [inv m1] (Hholds & Hk1 & He1 & Hr1). simpl in Hholds, Hk1, He1, Hr1.
  unfold new_entity, with_population. simpl.
  rewrite vector_back_snoc. simpl.
  unfold deref_entity, deref. simpl.
  rewrite lookup_snoc_last. simpl.
  rewrite Entity_addItems_spec. simpl.
  rewrite destroy_items_null. simpl.
  apply ok_spec_ret. simpl. rewrite insert_snoc_last, He1, Hr1, Hes.
  split; [exact Hrs|].
  split; [exact (objects_kept_trans _ _ _ Hkept Hk1)|].
  exists (es ++ [{| Entity_name := name; Entity_inventory := inv |}]).
  split; [rewrite <- app_assoc; reflexivity|].
  apply Forall2_app.
  - eapply Forall2_impl; [exact Hall|]. simpl. intros rec ent Hh.
    exact (inventory_holds_kept _ _ _ _ _ Hk1 Hh).
  - constructor; [|constructor]. simpl. exact Hholds.
Qed.

Lemma loadEntities_items (firstEle : option XMLElement) (s : World * Memory) :
  ok_spec (loadEntities QueryIntText firstEle s)
    (fun s' =>
       roomStore (snd (snd s')) = roomStore (snd s)
       /\ objects_kept (snd s) (snd (snd s'))
       /\ exists es : list Entity,
            entityStore (snd (snd s')) = entityStore (snd s) ++ es
            /\ Forall2
                 (fun rec ent =>
                    inventory_holds QueryIntText (snd (snd s'))
                      (Entity_inventory ent) (FirstChildElement rec "inventory"))
                 (sibling_chain "entity" firstEle) es).
Proof.
  unfold loadEntities.
  apply (ok_spec_foldM (loadEntities_body QueryIntText) _ _
           (fun pre a s1 => loadEntities_body_items (snd s) pre a s1)
           [] (0%nat, s)).
  simpl. split; [reflexivity|]. split; [apply objects_kept_refl; reflexivity|].
  exists []. rewrite app_nil_r. split; [reflexivity | constructor].
Qed.

(** The inventory loop of [loadRooms], with the items of the records
    already processed. *)
Lemma loadRooms_item_items (w1 : World) (wr : list (option nat))
  (R0 : list Room) (room0 : Room) (m1 : Memory)
  (pre : list XMLElement) (actualInv : XMLElement) (m : Memory) :
  worldRooms w1 = wr ++ [Some (length R0)] ->
  (entityStore m = entityStore m1
   /\ objects_kept m1 m
   /\ exists inv : list (option nat),
        roomStore m = R0 ++ [Room_with_inventory room0 inv]
        /\ Forall2
             (fun h rec =>
                deref_object m h = Ok (DynObject (record_object QueryIntText rec)))
             inv pre) ->
  ok_spec (loadRooms_item QueryIntText w1 actualInv m)
    (fun m' =>
       entityStore m' = entityStore m1
       /\ objects_kept m1 m'
       /\ exists inv : list (option nat),
            roomStore m' = R0 ++ [Room_with_inventory room0 inv]
            /\ Forall2
                 (fun h rec =>
                    deref_object m' h
                    = Ok (DynObject (record_object QueryIntText rec)))
                 inv (pre ++ [actualInv])).
Proof.
  intros Hw1 (Hes & Hkept & inv & Hrs & Hall). unfold loadRooms_item.
  eapply ok_spec_bind; [apply read_object_exact|]. intros o ->.
  unfold new_object. rewrite Hw1, vector_back_snoc. simpl.
  unfold deref_room, deref. simpl. rewrite Hrs, lookup_snoc_last. simpl.
  apply ok_spec_ret. simpl. split; [exact Hes|].
  assert (Hk : objects_kept m
                 (with_rooms
                    (with_objects m
                       (objectStore m
                        ++ [Some (DynObject (record_object QueryIntText actualInv))]))
                    (<[length R0 :=
                         Room_with_inventory (Room_with_inventory room0 inv)
                           (inv ++ [Some (length (objectStore m))])]>
                       (R0 ++ [Room_with_inventory room0 inv])))).
  { apply (objects_kept_app _ _ [Some (DynObject (record_object QueryIntText actualInv))]).
    reflexivity. }
  split; [exact (objects_kept_trans _ _ _ Hkept Hk)|].
  exists (inv ++ [Some (length (objectStore m))]).
  split; [rewrite insert_snoc_last; reflexivity|].
  apply Forall2_app.
  - eapply Forall2_impl; [exact Hall|]. simpl. intros h rec Hh.
    exact (deref_object_kept _ _ _ _ Hk Hh).
  - constructor; [|constructor].
    unfold deref_object, deref. simpl. rewrite lookup_snoc_last. reflexivity.
Qed.

Lemma loadRooms_attach_frame (w : World) (n : nat) :
  forall (i : Z) (m : Memory),
  ok_spec (loadRooms_attach w n i m)
    (fun m' =>
       objectStore m' = objectStore m
       /\ entityStore m' = entityStore m
       /\ forall (l : nat) (ro : Room),
            roomStore m !! l = Some ro ->
            exists ro' : Room,
              roomStore m' !! l = Some ro'
              /\ Room_inventory ro' = Room_inventory ro).
Proof.
  induction n as [|n IH]; intros i m; simpl.
  - apply ok_spec_ret. repeat split. intros l ro Hl. exists ro. split; trivial.
  - eapply ok_spec_bind with (P := fun _ => True); [intros a _; exact I|].
    intros e _.
    eapply ok_spec_bind with (P := fun _ => True); [intros a _; exact I|].
    intros back _.
    destruct back as [l0|]; [|intros a Ha; discriminate Ha].
    unfold deref_room, deref. simpl.
    destruct (roomStore m !! l0) as [r|] eqn:Hl0; [|intros a Ha; discriminate Ha].
    simpl. intros m' Hm'. destruct (IH _ _ m' Hm') as (Ho & He & Hr).
    simpl in Ho, He, Hr. split; [exact Ho|]. split; [exact He|].
    intros l ro Hl. destruct (decide (l = l0)) as [->|Hne].
    + rewrite Hl0 in Hl. injection Hl as <-.
      destruct (Hr l0 (Room_addEntity r e)) as (ro' & Hro' & Hinv).
      { apply list_lookup_insert_eq. eapply lookup_lt_Some. exact Hl0. }
      exists ro'. split; [exact Hro' | exact Hinv].
    + apply Hr. rewrite list_lookup_insert_ne by congruence. exact Hl.
Qed.

(** What one room record does with the items: those of its inventory
    element end up in the inventory of its room, those of each entity
    record in the inventory of that entity. *)
Lemma loadRooms_body_items (actual : XMLElement) (s : World * Memory) :
  ok_spec (loadRooms_body QueryIntText actual s)
    (fun s' =>
       objects_kept (snd s) (snd s')
       /\ (exists ro : Room,
             roomStore (snd s') !! length (roomStore (snd s)) = Some ro
             /\ inventory_holds QueryIntText (snd s') (Room_inventory ro)
                  (FirstChildElement actual "inventory"))
       /\ exists es : list Entity,
            entityStore (snd s') = entityStore (snd s) ++ es
            /\ Forall2
                 (fun rec ent =>
                    inventory_holds QueryIntText (snd s') (Entity_inventory ent)
                      (FirstChildElement rec "inventory"))
                 (entity_records actual) es).
Proof.
  destruct s as [w m]. unfold loadRooms_body. simpl.
  eapply ok_spec_bind with (P := fun _ => True); [intros a _; exact I|].
  intros roomName _.
  eapply ok_spec_bind with (P := fun _ => True); [intros a _; exact I|].
  intros roomDescription _.
  eapply ok_spec_bind with (P := fun _ => True); [intros a _; exact I|].
  intros roomID _.
  destruct (FirstChildElement actual "inventory") as [invEle|] eqn:Hinv;
    [|intros a Ha; discriminate Ha].
  simpl.
  eapply ok_spec_bind.
  { apply (ok_spec_foldM _ _ _
             (fun pre a m' =>
                loadRooms_item_items
                  (with_worldRooms w (worldRooms w ++ [Some (length (roomStore m))]))
                  (worldRooms w) (roomStore m)
                  (Room_ctor roomName roomID roomDescription)
                  (with_rooms m
                     (roomStore m ++ [Room_ctor roomName roomID roomDescription]))
                  pre a m' eq_refl) []).
    simpl. split; [reflexivity|]. split; [apply objects_kept_refl; reflexivity|].
    exists []. split; [reflexivity | constructor]. }
  intros m2 (Hes2 & Hk2 & inv & Hrs2 & Hall2). simpl in Hes2, Hall2.
  eapply ok_spec_bind with (P := fun _ => True); [intros a _; exact I|].
  intros connections _.
  eapply ok_spec_bind; [apply loadEntities_items|].
  intros [entCount [w3 m3]] (Hrs3 & Hk3 & es & Hes3 & Hall3).
  simpl in Hrs3, Hk3, Hes3, Hall3.
  eapply ok_spec_bind; [apply loadRooms_attach_frame|].
  intros m4 (Ho4 & He4 & Hr4). apply ok_spec_ret. simpl.
  assert (Hk4 : objects_kept m3 m4) by (apply objects_kept_refl; exact Ho4).
  split.
  { intros l c Hl. apply Hk4, Hk3, Hk2. exact Hl. }
  split.
  - destruct (Hr4 (length (roomStore m))
                (Room_with_inventory (Room_ctor roomName roomID roomDescription) inv))
      as (ro' & Hro' & Hinv').
    { rewrite Hrs3, Hrs2. apply lookup_snoc_last. }
    exists ro'. split; [exact Hro'|]. rewrite Hinv'. simpl.
    exists invEle. split; [reflexivity|].
    eapply Forall2_impl; [exact Hall2|]. simpl. intros h rec Hh.
    exact (deref_object_kept _ _ _ _ (objects_kept_trans _ _ _ Hk3 Hk4) Hh).
  - exists es. split; [rewrite He4, Hes3, Hes2; reflexivity|].
    eapply Forall2_impl; [exact Hall3|]. simpl. intros rec ent Hh.
    exact (inventory_holds_kept _ _ _ _ _ Hk4 Hh).
Qed.

End LoaderItems.

Lemma loadRooms_loop_built (QueryIntText : XMLElement -> Z -> XMLError * Z)
  (recs : list XMLElement) :
  forall s s' : World * Memory,
    foldM (loadRooms_body QueryIntText) recs s = Ok s' ->
    rooms_built QueryIntText recs s s'.
Proof.
  induction recs as [|a recs IH]; intros s s' Hrun; simpl in Hrun.
  - injection Hrun as <-. apply rooms_built_nil.
  - destruct (loadRooms_body QueryIntText a s) as [s1|f] eqn:Hbody;
      [|discriminate Hrun].
    simpl in Hrun. eapply rooms_built_cons; [|exact (IH _ _ Hrun)].
    exact (run_spec_Ok _ _ _ _ (loadRooms_body_spec QueryIntText a s) Hbody).
Qed.

Lemma loadRooms_loop_kept (QueryIntText : XMLElement -> Z -> XMLError * Z)
  (recs : list XMLElement) :
  forall s s' : World * Memory,
    foldM (loadRooms_body QueryIntText) recs s = Ok s' ->
    objects_kept (snd s) (snd s').
Proof.
  induction recs as [|a recs IH]; intros s s' Hrun; simpl in Hrun.
  - injection Hrun as <-. apply objects_kept_refl. reflexivity.
  - destruct (loadRooms_body QueryIntText a s) as [s1|f] eqn:Hbody;
      [|discriminate Hrun].
    simpl in Hrun.
    destruct (loadRooms_body_items QueryIntText a s s1 Hbody) as (Hk & _).
    exact (objects_kept_trans _ _ _ Hk (IH _ _ Hrun)).
Qed.

(** The room of the [k]-th record after a whole run of [loadRooms]: its
    place, its items, its entities and theirs. *)
Lemma loadRooms_record_items (QueryIntText : XMLElement -> Z -> XMLError * Z)
  (firstRoom : option XMLElement) (s s' : World * Memory)
  (k : nat) (r : XMLElement) :
  loadRooms QueryIntText firstRoom s = Ok s' ->
  sibling_chain "room" firstRoom !! k = Some r ->
  exists (l a : nat) (room : Room) (es : list Entity),
    worldRooms (fst s') !! (length (worldRooms (fst s)) + k)%nat = Some (Some l)
    /\ roomStore (snd s') !! l = Some room
    /\ inventory_holds QueryIntText (snd s') (Room_inventory room)
         (FirstChildElement r "inventory")
    /\ roomPopulation room = map Some (seq a (length es))
    /\ (forall j : nat, (j < length es)%nat ->
          entityStore (snd s') !! (a + j)%nat = es !! j)
    /\ map (fun e => Some (Entity_name e)) es
       = map (fun rec => child_text_of rec "name") (entity_records r)
    /\ Forall2
         (fun rec ent =>
            inventory_holds QueryIntText (snd s') (Entity_inventory ent)
              (FirstChildElement rec "inventory"))
         (entity_records r) es.
Proof.
  unfold loadRooms. intros Hrun Hk.
  destruct (foldM_cut _ _ _ _ _ _ Hrun Hk) as (s1 & s2 & H1 & Hbody & H2).
  pose proof (loadRooms_loop_built _ _ _ _ H1) as Hb1.
  pose proof (loadRooms_loop_built _ _ _ _ H2) as Hb2.
  pose proof (loadRooms_loop_kept _ _ _ _ H2) as Hk2.
  pose proof (run_spec_Ok _ _ _ _ (loadRooms_body_spec QueryIntText r s1) Hbody)
    as Hr.
  destruct (loadRooms_body_items QueryIntText r s1 s2 Hbody)
    as (_ & (ro & Hro & Hroinv) & (es' & Hes' & Hall')).
  destruct (rooms_built_grows _ _ _ _ Hb1) as ((wr1 & Hw1 & Hl1) & _).
  destruct (rooms_built_grows _ _ _ _ Hb2)
    as ((wr2 & Hw2 & _) & (rs2 & Hrs2) & _ & (es2 & He2)).
  destruct Hr as (room & es & Hw & Hrm & _ & Hpop & He & Hnames & _).
  assert (Hroom : ro = room).
  { rewrite Hrm, lookup_snoc_last in Hro. injection Hro as <-. reflexivity. }
  assert (Hents : es' = es).
  { rewrite He in Hes'. exact (eq_sym (app_inv_head _ _ _ Hes')). }
  subst ro es'.
  assert (Hk' : length wr1 = k).
  { rewrite Hl1, length_take. apply lookup_lt_Some in Hk. lia. }
  exists (length (roomStore (snd s1))), (length (entityStore (snd s1))), room, es.
  split.
  { rewrite Hw2, Hw, Hw1, <- !app_assoc.
    rewrite lookup_app_r by lia.
    replace (length (worldRooms (fst s)) + k - length (worldRooms (fst s)))%nat
      with (length wr1) by lia.
    rewrite lookup_app_r by lia. rewrite Nat.sub_diag. reflexivity. }
  split.
  { rewrite Hrs2, Hrm, <- app_assoc. rewrite lookup_app_r by lia.
    rewrite Nat.sub_diag. reflexivity. }
  split; [exact (inventory_holds_kept _ _ _ _ _ Hk2 Hroinv)|].
  split; [exact Hpop|].
  split.
  { intros j Hj. rewrite He2, He, <- app_assoc.
    rewrite lookup_app_r by lia.
    replace (length (entityStore (snd s1)) + j - length (entityStore (snd s1)))%nat
      with j by lia.
    apply lookup_app_l. exact Hj. }
  split; [exact Hnames|].
  eapply Forall2_impl; [exact Hall'|]. simpl. intros rec ent Hh.
  exact (inventory_holds_kept _ _ _ _ _ Hk2 Hh).
Qed.

(** X16. After [loadRooms] has returned, the room of the [k]-th room
    record stands at slot [k] of the part of the registry that the run
    added, and its inventory lists, in document order and with nothing
    else, handles to one plain object (never a key) per [object] child of
    the record's [inventory] element, each with the name, the id and the
    description that its record gives; items loaded later for other
    rooms or for entities leave them untouched. *)
Theorem loadRooms_room_items_follow_the_record
  (QueryIntText : XMLElement -> Z -> XMLError * Z)
  (firstRoom : option XMLElement) (s s' : World * Memory)
  (k : nat) (r : XMLElement)
  (Hload : loadRooms QueryIntText firstRoom s = Ok s')
  (Hk : sibling_chain "room" firstRoom !! k = Some r) :
  exists (l : nat) (room : Room) (invEle : XMLElement),
    worldRooms (fst s') !! (length (worldRooms (fst s)) + k)%nat = Some (Some l)
    /\ roomStore (snd s') !! l = Some room
    /\ FirstChildElement r "inventory" = Some invEle
    /\ length (Room_inventory room) = length (object_records invEle)
    /\ forall (i : nat) (o : XMLElement),
         object_records invEle !! i = Some o ->
         exists h : option nat,
           Room_inventory room !! i = Some h
           /\ deref_object (snd s') h
              = Ok (DynObject
                      (Object_ctor (default "" (child_text_of o "name"))
                         (record_id QueryIntText o)
                         (default "" (child_text_of o "description")))).
Proof.
  destruct (loadRooms_record_items QueryIntText firstRoom s s' k r Hload Hk)
    as (l & a & room & es & Hw & Hrm & (invEle & Hinv & Hall) & _).
  exists l, room, invEle.
  split; [exact Hw|]. split; [exact Hrm|]. split; [exact Hinv|].
  split; [exact (Forall2_length _ _ _ Hall)|].
  intros i o Ho.
  destruct (Forall2_lookup_r _ _ _ _ _ Hall Ho) as (h & Hh & Hd).
  exists h. split; [exact Hh | exact Hd].
Qed.

Lemma loadRooms_room_items_follow_the_record_witness :
  exists s' : World * Memory,
    loadRooms decimal_QueryIntText (first_room two_rooms_story)
      (World_ctor, empty_memory) = Ok s'
    /\ exists (l : nat) (room : Room),
         worldRooms (fst s') !! 0%nat = Some (Some l)
         /\ roomStore (snd s') !! l = Some room
         /\ exists h : option nat,
              Room_inventory room = [h]
              /\ deref_object (snd s') h
                 = Ok (DynObject (Object_ctor "rock" 5 "a rock")).
Proof.
  destruct (loadRooms decimal_QueryIntText (first_room two_rooms_story)
              (World_ctor, empty_memory)) as [s'|f] eqn:Hload;
    [|vm_compute in Hload; discriminate Hload].
  exists s'. split; [reflexivity|].
  destruct (sibling_chain "room" (first_room two_rooms_story) !! 0%nat)
    as [r|] eqn:Hk; [|vm_compute in Hk; discriminate Hk].
  destruct (loadRooms_room_items_follow_the_record decimal_QueryIntText
              (first_room two_rooms_story) (World_ctor, empty_memory) s'
              0%nat r Hload Hk)
    as (l & room & invEle & Hw & Hrm & Hinv & Hlen & Hitems).
  vm_compute in Hk. injection Hk as <-.
  vm_compute in Hinv. injection Hinv as <-.
  exists l, room. split; [exact Hw|]. split; [exact Hrm|].
  destruct (Hitems 0%nat _ eq_refl) as (h & Hh & Hd).
  exists h. split; [|exact Hd].
  destruct (Room_inventory room) as [|h0 [|h1 inv]];
    [discriminate Hlen | | discriminate Hlen].
  injection Hh as ->. reflexivity.
Defined.

(** X17. After [loadRooms] has returned, the population of the room of
    the [k]-th room record has one pointer per [entity] child of the
    record, in document order; the [j]-th one leads to an entity that
    bears the name of the [j]-th entity record and whose inventory lists,
    in document order and with nothing else, handles to one plain object
    per [object] child of that entity record's [inventory] element, each
    with the name, the id and the description that its record gives. *)
Theorem loadRooms_entity_items_follow_the_record
  (QueryIntText : XMLElement -> Z -> XMLError * Z)
  (firstRoom : option XMLElement) (s s' : World * Memory)
  (k : nat) (r : XMLElement)
  (Hload : loadRooms QueryIntText firstRoom s = Ok s')
  (Hk : sibling_chain "room" firstRoom !! k = Some r) :
  exists (l : nat) (room : Room),
    worldRooms (fst s') !! (length (worldRooms (fst s)) + k)%nat = Some (Some l)
    /\ roomStore (snd s') !! l = Some room
    /\ length (roomPopulation room) = length (entity_records r)
    /\ forall (j : nat) (erec : XMLElement),
         entity_records r !! j = Some erec ->
         exists (p : option nat) (ent : Entity) (invEle : XMLElement),
           roomPopulation room !! j = Some p
           /\ deref_entity (snd s') p = Ok ent
           /\ Some (Entity_name ent) = child_text_of erec "name"
           /\ FirstChildElement erec "inventory" = Some invEle
           /\ length (Entity_inventory ent) = length (object_records invEle)
           /\ forall (i : nat) (o : XMLElement),
                object_records invEle !! i = Some o ->
                exists h : option nat,
                  Entity_inventory ent !! i = Some h
                  /\ deref_object (snd s') h
                     = Ok (DynObject
                             (Object_ctor (default "" (child_text_of o "name"))
                                (record_id QueryIntText o)
                                (default "" (child_text_of o "description")))).
Proof.
  destruct (loadRooms_record_items QueryIntText firstRoom s s' k r Hload Hk)
    as (l & a & room & es & Hw & Hrm & _ & Hpop & Hes & Hnames & Hall).
  exists l, room. split; [exact Hw|]. split; [exact Hrm|].
  pose proof (Forall2_length _ _ _ Hall) as Hlen.
  split; [rewrite Hpop, length_map, length_seq; symmetry; exact Hlen|].
  intros j erec Hj.
  destruct (Forall2_lookup_l _ _ _ _ _ Hall Hj) as (ent & Hent & (invEle & Hinv & Hobjs)).
  pose proof (lookup_lt_Some _ _ _ Hent) as Hlt.
  exists (Some (a + j)%nat), ent, invEle.
  split; [rewrite Hpop, list_lookup_fmap, lookup_seq_lt by exact Hlt; reflexivity|].
  split.
  { unfold deref_entity, deref. rewrite (Hes j Hlt), Hent. reflexivity. }
  split.
  { assert (Hn : map (fun e => Some (Entity_name e)) es !! j
                 = map (fun rec => child_text_of rec "name") (entity_records r) !! j)
      by (rewrite Hnames; reflexivity).
    rewrite !list_lookup_fmap, Hent, Hj in Hn. simpl in Hn.
    injection Hn as Hn. exact Hn. }
  split; [exact Hinv|].
  split; [exact (Forall2_length _ _ _ Hobjs)|].
  intros i o Ho.
  destruct (Forall2_lookup_r _ _ _ _ _ Hobjs Ho) as (h & Hh & Hd).
  exists h. split; [exact Hh | exact Hd].
Qed.

Lemma loadRooms_entity_items_follow_the_record_witness :
  exists s' : World * Memory,
    loadRooms decimal_QueryIntText (first_room two_rooms_story)
      (World_ctor, empty_memory) = Ok s'
    /\ exists (l : nat) (room : Room) (p h : option nat) (ent : Entity),
         worldRooms (fst s') !! 0%nat = Some (Some l)
         /\ roomStore (snd s') !! l = Some room
         /\ roomPopulation room = [p]
         /\ deref_entity (snd s') p = Ok ent
         /\ Entity_name ent = "bob"
         /\ Entity_inventory ent = [h]
         /\ deref_object (snd s') h
            = Ok (DynObject (Object_ctor "hat" 6 "a hat")).
Proof.
  destruct (loadRooms decimal_QueryIntText (first_room two_rooms_story)
              (World_ctor, empty_memory)) as [s'|f] eqn:Hload;
    [|vm_compute in Hload; discriminate Hload].
  exists s'. split; [reflexivity|].
  destruct (sibling_chain "room" (first_room two_rooms_story) !! 0%nat)
    as [r|] eqn:Hk; [|vm_compute in Hk; discriminate Hk].
  destruct (loadRooms_entity_items_follow_the_record decimal_QueryIntText
              (first_room two_rooms_story) (World_ctor, empty_memory) s'
              0%nat r Hload Hk)
    as (l & room & Hw & Hrm & Hlen & Hents).
  vm_compute in Hk. injection Hk as <-.
  destruct (Hents 0%nat _ eq_refl)
    as (p & ent & invEle & Hp & Hd & Hname & Hinv & Hilen & Hitems).
  vm_compute in Hinv. injection Hinv as <-.
  destruct (Hitems 0%nat _ eq_refl) as (h & Hh & Hdh).
  exists l, room, p, h, ent.
  split; [exact Hw|]. split; [exact Hrm|].
  split.
  { destruct (roomPopulation room) as [|p0 [|p1 pp]];
      [discriminate Hlen | | discriminate Hlen].
    injection Hp as ->. reflexivity. }
  split; [exact Hd|].
  split; [injection Hname as ->; reflexivity|].
  split; [|exact Hdh].
  destruct (Entity_inventory ent) as [|h0 [|h1 inv]];
    [discriminate Hilen | | discriminate Hilen].
  injection Hh as ->. reflexivity.
Defined.

(** ** The factories and the end of a world *)

Lemma has_id_kept (m m' : Memory) (id : Z) (r : option nat) :
  (forall (l : nat) (ro : Room),
     roomStore m !! l = Some ro -> roomStore m' !! l = Some ro) ->
  returns (deref_room m r) = true ->
  returns (deref_room m' r) = true /\ has_id m' id r = has_id m id r.
Proof.
  intros Hkept. unfold has_id, deref_room, deref.
  destruct r as [l|]; [|discriminate].
  destruct (roomStore m !! l) as [ro|] eqn:Hl; [|discriminate].
  rewrite (Hkept l ro Hl). intros _. split; reflexivity.
Qed.

(** X18. [RoomFactory] adds one room, locked and without neighbours,
    items or entities, at the back of a valid registry, which stays
    valid, and leaves every room that was there as it was.  A search of
    [connectRooms] on the new registry still ends at the room it ended at
    before: the new room is found only for its own id, and only when no
    older room of the registry carries that id. *)
Theorem RoomFactory_never_shadows_an_older_room
  (name : string) (id : Z) (desc : string) (w : World) (m : Memory)
  (Hvalid : registry_valid w m) :
  let s' := RoomFactory name id desc (w, m) in
  registry_valid (fst s') (snd s')
  /\ worldRooms (fst s') = worldRooms w ++ [Some (length (roomStore m))]
  /\ deref_room (snd s') (Some (length (roomStore m)))
     = Ok {| roomName := name; roomID := id; description := desc;
             lock := locked; roomPopulation := []; neighbours := [];
             Room_inventory := [] |}
  /\ (forall (l : nat) (ro : Room),
        roomStore m !! l = Some ro -> roomStore (snd s') !! l = Some ro)
  /\ forall id2find : Z,
       find_if_id (snd s') id2find (worldRooms (fst s'))
       = Ok (match resolve m w id2find with
             | Some r => Some r
             | None =>
                 if id =? id2find then Some (Some (length (roomStore m)))
                 else None
             end).
Proof.
  simpl.
  set (m' := with_rooms m (roomStore m ++ [Room_ctor name id desc])).
  assert (Hkept : forall (l : nat) (ro : Room),
            roomStore m !! l = Some ro -> roomStore m' !! l = Some ro).
  { intros l ro Hl. simpl. apply lookup_app_l_Some. exact Hl. }
  assert (Hnew : deref_room m' (Some (length (roomStore m)))
                 = Ok (Room_ctor name id desc)).
  { unfold deref_room, deref. simpl. rewrite lookup_snoc_last. reflexivity. }
  split.
  { unfold registry_valid in *. simpl. apply Forall_app. split.
    - eapply Forall_impl; [exact Hvalid|]. simpl. intros r Hr.
      exact (proj1 (has_id_kept m m' 0 r Hkept Hr)).
    - constructor; [|constructor]. rewrite Hnew. reflexivity. }
  split; [reflexivity|]. split; [exact Hnew|]. split; [exact Hkept|].
  intros id2find. unfold resolve. unfold registry_valid in Hvalid.
  induction Hvalid as [|r v Hr _ IH].
  - cbn [app find_if_id List.find]. rewrite Hnew. simpl.
    destruct (id =? id2find); reflexivity.
  - destruct (has_id_kept m m' id2find r Hkept Hr) as (Hr' & Hid).
    cbn [app find_if_id List.find]. rewrite <- Hid. unfold has_id.
    destruct (deref_room m' r) as [ro'|f]; [|discriminate Hr'].
    simpl. destruct (Room_getID ro' =? id2find); [reflexivity | exact IH].
Qed.

Lemma RoomFactory_never_shadows_an_older_room_witness :
  find_if_id (snd (RoomFactory "Vault again" 2 "a second vault"
                     (two_rooms_world, two_rooms_memory))) 2
    (worldRooms (fst (RoomFactory "Vault again" 2 "a second vault"
                        (two_rooms_world, two_rooms_memory))))
  = Ok (Some (Some 1%nat)).
Proof.
  assert (Hvalid : registry_valid two_rooms_world two_rooms_memory)
    by (repeat constructor).
  exact (proj2 (proj2 (proj2 (proj2
           (RoomFactory_never_shadows_an_older_room "Vault again" 2
              "a second vault" two_rooms_world two_rooms_memory Hvalid)))) 2).
Defined.

(** X19. [EntityFactory] adds one entity, with the given name and no
    item, at the back of the population, and touches no room: when the
    populations of the rooms hold live pointers only, the new entity is
    in the population of the world and in the population of no room
    (unlike the entities that [loadRooms] makes), and a valid population
    stays valid. *)
Theorem EntityFactory_entity_is_in_no_room
  (name : string) (w : World) (m : Memory)
  (Hrooms : Forall
              (fun ro =>
                 Forall (fun e => returns (deref_entity m e) = true)
                   (roomPopulation ro))
              (roomStore m)) :
  let s' := EntityFactory name (w, m) in
  exists p : option nat,
    population (fst s') = population w ++ [p]
    /\ deref_entity (snd s') p
       = Ok {| Entity_name := name; Entity_inventory := [] |}
    /\ roomStore (snd s') = roomStore m
    /\ worldRooms (fst s') = worldRooms w
    /\ Forall (fun ro => p ∉ roomPopulation ro) (roomStore (snd s'))
    /\ (population_valid w m -> population_valid (fst s') (snd s')).
Proof.
  simpl. exists (Some (length (entityStore m))).
  split; [reflexivity|].
  assert (Hnew : deref_entity
                   (with_entities m (entityStore m ++ [Entity_ctor name]))
                   (Some (length (entityStore m)))
                 = Ok (Entity_ctor name)).
  { unfold deref_entity, deref. simpl. rewrite lookup_snoc_last. reflexivity. }
  split; [exact Hnew|]. split; [reflexivity|]. split; [reflexivity|].
  split.
  - simpl. eapply Forall_impl; [exact Hrooms|]. simpl. intros ro Hro Hin.
    rewrite Forall_forall in Hro. specialize (Hro _ Hin).
    unfold deref_entity, deref in Hro.
    destruct (entityStore m !! length (entityStore m)) as [e|] eqn:Hl;
      [|discriminate Hro].
    apply lookup_lt_Some in Hl. lia.
  - unfold population_valid. simpl. intros Hpop. apply Forall_app. split.
    + eapply Forall_impl; [exact Hpop|]. simpl. intros e He.
      unfold deref_entity, deref in He |- *. destruct e as [l|]; [|discriminate He].
      simpl. destruct (entityStore m !! l) as [e|] eqn:Hl; [|discriminate He].
      rewrite (lookup_app_l_Some _ _ _ _ Hl). reflexivity.
    + constructor; [|constructor]. rewrite Hnew. reflexivity.
Qed.

Lemma EntityFactory_entity_is_in_no_room_witness :
  exists p : option nat,
    population (fst (EntityFactory "alice" (two_rooms_world, two_rooms_memory)))
    = [p]
    /\ Forall (fun ro => p ∉ roomPopulation ro)
         (roomStore (snd (EntityFactory "alice"
                            (two_rooms_world, two_rooms_memory)))).
Proof.
  assert (Hrooms : Forall
                     (fun ro =>
                        Forall (fun e => returns (deref_entity two_rooms_memory e) = true)
                          (roomPopulation ro))
                     (roomStore two_rooms_memory))
    by (repeat constructor).
  destruct (EntityFactory_entity_is_in_no_room "alice" two_rooms_world
              two_rooms_memory Hrooms) as (p & Hp & _ & _ & _ & Hnone & _).
  exists p. split; [exact Hp | exact Hnone].
Defined.

Lemma connectRooms_null_head (w : World) (m : Memory)
  (wr : list (option nat)) (k : Z) (v : list Z) :
  worldRooms w = None :: wr ->
  map_find k (roomConnectionMap w) = Some v ->
  connectRooms (w, m) = Fault NullDereference.
Proof.
  intros Hreg Hfind. unfold connectRooms.
  destruct (roomConnectionMap w) as [|it rest]; [discriminate Hfind|].
  simpl. unfold connectRooms_entry. rewrite Hreg. reflexivity.
Qed.

(** X20. [destroyWorld] resets the pointers of the registry but leaves
    them in the vector, and leaves the connection map as it is.  A world
    that had at least one room and one entry in its map can therefore not
    be initialised again: whatever the story, [initWorld] does not
    return, and when its rooms load, [connectRooms] dereferences the
    null pointer at the front of the registry in its first search. *)
Theorem destroyed_world_cannot_be_initialised_again
  (QueryIntText : XMLElement -> Z -> XMLError * Z)
  (story : list XMLNode) (s : World * Memory)
  (Hrooms : worldRooms (fst s) <> [])
  (Hmap : roomConnectionMap (fst s) <> []) :
  returns (initWorld QueryIntText story (destroyWorld s)) = false
  /\ forall s1 : World * Memory,
       loadRooms QueryIntText (first_room story) (destroyWorld s) = Ok s1 ->
       connectRooms s1 = Fault NullDereference
       /\ initWorld QueryIntText story (destroyWorld s) = Fault NullDereference.
Proof.
  destruct s as [w m]. simpl in Hrooms, Hmap.
  assert (Hload : forall (firstRoom : option XMLElement) (s1 : World * Memory),
            loadRooms QueryIntText firstRoom (destroyWorld (w, m)) = Ok s1 ->
            connectRooms s1 = Fault NullDereference).
  { intros firstRoom [w1 m1] Hl.
    pose proof (run_spec_Ok _ _ _ _
                  (loadRooms_spec QueryIntText firstRoom (destroyWorld (w, m))) Hl)
      as Hb.
    destruct (rooms_built_grows _ _ _ _ Hb) as ((wr & Hw & _) & _).
    destruct (roomConnectionMap w) as [|[k v] rest] eqn:Hcm; [congruence|].
    pose proof (rooms_built_key_kept _ _ _ _ k v Hb) as Hkept.
    simpl in Hw, Hkept. rewrite Hcm in Hkept. simpl in Hkept.
    rewrite Z.eqb_refl in Hkept. specialize (Hkept eq_refl).
    destruct (worldRooms w) as [|r0 wr0]; [congruence|]. simpl in Hw.
    exact (connectRooms_null_head w1 m1 _ k v Hw Hkept). }
  revert Hload. generalize (destroyWorld (w, m)). intros s0 Hload.
  split.
  - unfold initWorld.
    destruct (first_element "world" story) as [we|]; [|reflexivity]. simpl.
    destruct (loadRooms QueryIntText (FirstChildElement we "room") s0)
      as [s1|f] eqn:Hl; [|reflexivity].
    simpl. rewrite (Hload _ _ Hl). reflexivity.
  - intros s1 Hl. split; [exact (Hload _ _ Hl)|].
    unfold initWorld. unfold first_room in Hl.
    destruct (first_element "world" story) as [we|]; [|reflexivity]. simpl.
    rewrite Hl. simpl. exact (Hload _ _ Hl).
Qed.

Lemma destroyed_world_cannot_be_initialised_again_witness :
  initWorld decimal_QueryIntText two_rooms_story
    (destroyWorld (two_rooms_world, two_rooms_memory))
  = Fault NullDereference.
Proof.
  destruct (loadRooms decimal_QueryIntText (first_room two_rooms_story)
              (destroyWorld (two_rooms_world, two_rooms_memory)))
    as [s1|f] eqn:Hl; [|vm_compute in Hl; discriminate Hl].
  refine (proj2 (proj2 (destroyed_world_cannot_be_initialised_again
                          decimal_QueryIntText two_rooms_story
                          (two_rooms_world, two_rooms_memory) _ _) s1 Hl));
    discriminate.
Defined.

(** ** The reader of the examples *)

(** The reader of the examples stores what fits an [int], and stores a
    number that fits as it is. *)
Lemma to_int_range (z : Z) :
  (-2147483648 <= to_int z <= 2147483647)
  /\ (-2147483648 <= z <= 2147483647 -> to_int z = z).
Proof.
  unfold to_int. split.
  - pose proof (Z.mod_pos_bound (z + 2147483648) 4294967296 eq_refl). lia.
  - intros Hz. rewrite Z.mod_small by lia. lia.
Qed.
